(** * Translation tooling: the validator and the synchronizer

    A shallow embedding of [scripts/validate.js] (the translation file
    validator) and of [scripts/sync-i18n.js] (the i18n auto-sync script),
    with the properties of the specification stated over it.

    Conventions of the embedding.
    - A JavaScript string is the list of its UTF-16 code units.
    - A JavaScript value is a JSON value or [undefined]. A number is a
      rational: a double is one, and JSON has no other number.
    - An object is the list of its own properties, in the order in which
      [Object.keys] and [JSON.stringify] go through them: the array
      indices first, in ascending order, then the other names in the order
      of their creation.
    - A function that can throw returns an [outcome].
    - What Node provides ([path.basename], [fs], [JSON.parse],
      [JSON.stringify]) is taken by its result: a file is given by what
      parsing its text yields, and a value written is the value read back.
    - The arithmetic on doubles is exact arithmetic followed by a rounding
      [fl], a parameter of the synchronizer. *)

From Stdlib Require Import Ascii String QArith Qround Qabs Lqa.
From Corelib Require PrimFloat.
From stdpp Require Import base option list sorting gmap.

Set Default Proof Using "Type".
Set Warnings "-clear-no-such-hyp".
Local Open Scope N_scope.

(** ** Strings *)

Abbreviation jsstring := (list N).

(** The code units of an ASCII literal. *)
Definition str (s : string) : jsstring :=
  (λ a, N_of_ascii a) <$> list_ascii_of_string s.

(** [Number.prototype.toString] for a non-negative integer: its decimal
    digits. *)
Fixpoint digits_fuel (fuel : nat) (n : N) (acc : jsstring) : jsstring :=
  match fuel with
  | O => acc
  | S fuel =>
      let acc := (48 + n mod 10) :: acc in
      if n <? 10 then acc else digits_fuel fuel (n / 10) acc
  end.

Definition digits (n : N) : jsstring := digits_fuel (S (N.to_nat (N.log2 n))) n [].

Definition is_digit (c : N) : bool := (48 <=? c) && (c <=? 57).

(** The integer a canonical numeric string denotes: digits only, and no
    leading zero unless the string is "0". *)
Definition index_of_key (key : jsstring) : option N :=
  match key with
  | [] => None
  | c :: rest =>
      if forallb is_digit key && (negb (c =? 48) || bool_decide (rest = []))
      then Some (foldl (λ acc d, 10 * acc + (d - 48)) 0 key)
      else None
  end.

(** The default order of [Array.prototype.sort]: strings compared code unit
    by code unit, a proper prefix first. *)
Fixpoint str_le (a b : jsstring) : bool :=
  match a, b with
  | [], _ => true
  | _ :: _, [] => false
  | x :: a', y :: b' => (x <? y) || ((x =? y) && str_le a' b')
  end.

Definition sort (l : list jsstring) : list jsstring :=
  merge_sort (λ a b, Is_true (str_le a b)) l.

(** [Array.prototype.join]. *)
Fixpoint join (sep : jsstring) (l : list jsstring) : jsstring :=
  match l with
  | [] => []
  | [s] => s
  | s :: rest => s ++ sep ++ join sep rest
  end.

(** ** Values *)

#[warnings="-register-all"]
Inductive value :=
| VUndefined
| VNull
| VBool (b : bool)
| VNumber (n : Q)
| VString (s : jsstring)
| VArray (elts : list value)
| VObject (props : list (jsstring * value)).

Abbreviation object := (list (jsstring * value)).

(** The source of truth, [en.json]: an object whose values are strings. *)
Abbreviation source := (list (jsstring * jsstring)).

Inductive js_error :=
| TypeError (msg : jsstring).

Inductive outcome (A : Type) :=
| Returns (a : A)
| Throws (e : js_error).
Arguments Returns {A} a.
Arguments Throws {A} e.

#[global] Instance outcome_ret : MRet outcome := λ A a, Returns a.

#[global] Instance outcome_bind : MBind outcome := λ A B k m,
  match m with
  | Returns a => k a
  | Throws e => Throws e
  end.

(** [typeof v] *)
Definition typeof (v : value) : jsstring :=
  match v with
  | VUndefined => str "undefined"
  | VNull | VArray _ | VObject _ => str "object"
  | VBool _ => str "boolean"
  | VNumber _ => str "number"
  | VString _ => str "string"
  end.

(** [Object.keys(o)] *)
Definition Object_keys {V} (o : list (jsstring * V)) : list jsstring := o.*1.

(** The value of the own property [key] of an object, if it has one. *)
Fixpoint own {V} (o : list (jsstring * V)) (key : jsstring) : option V :=
  match o with
  | [] => None
  | (k, v) :: rest => if decide (k = key) then Some v else own rest key
  end.

(** [enContent[key]] *)
Definition source_get (enContent : source) (key : jsstring) : value :=
  match own enContent key with
  | Some s => VString s
  | None => VUndefined
  end.

Definition length_key : jsstring := str "length".

(** [Object.hasOwn(v, key)]. The argument is first converted to an object,
    which throws on [null] and [undefined]; a string has its length and its
    code units as own properties, an array its length and its elements. *)
Definition hasOwn (v : value) (key : jsstring) : outcome bool :=
  match v with
  | VUndefined | VNull =>
      Throws (TypeError (str "Cannot convert undefined or null to object"))
  | VBool _ | VNumber _ => Returns false
  | VString s =>
      Returns (bool_decide (key = length_key) ||
               match index_of_key key with
               | Some i => i <? N.of_nat (length s)
               | None => false
               end)
  | VArray elts =>
      Returns (bool_decide (key = length_key) ||
               match index_of_key key with
               | Some i => i <? N.of_nat (length elts)
               | None => false
               end)
  | VObject props => Returns (bool_decide (is_Some (own props key)))
  end.

(** [v[key]] for an own property [key] of [v]. *)
Definition get (v : value) (key : jsstring) : value :=
  match v with
  | VString s =>
      if bool_decide (key = length_key) then VNumber (inject_Z (Z.of_nat (length s)))
      else match index_of_key key with
           | Some i => match s !! N.to_nat i with
                       | Some c => VString [c]
                       | None => VUndefined
                       end
           | None => VUndefined
           end
  | VArray elts =>
      if bool_decide (key = length_key) then VNumber (inject_Z (Z.of_nat (length elts)))
      else match index_of_key key with
           | Some i => default VUndefined (elts !! N.to_nat i)
           | None => VUndefined
           end
  | VObject props => default VUndefined (own props key)
  | _ => VUndefined
  end.

(** [a === b] where [a] and [b] were read from two different files: an
    object or an array is only ever identical to itself, so two of them
    from two parses are never equal. *)
Definition strict_eq (a b : value) : bool :=
  match a, b with
  | VUndefined, VUndefined | VNull, VNull => true
  | VBool x, VBool y => bool_decide (x = y)
  | VNumber x, VNumber y => Qeq_bool x y
  | VString x, VString y => bool_decide (x = y)
  | _, _ => false
  end.

Definition proto_key : jsstring := str "__proto__".

(** An array index: a canonical numeric string of an integer below
    2^32 - 1. An object lists the properties of these names first. *)
Definition array_index (key : jsstring) : option N :=
  match index_of_key key with
  | Some i => if i <? 4294967295 then Some i else None
  | None => None
  end.

(** The place of a new property among those of an object: an array index
    goes before the first property that is not an array index or is a
    greater one, another name goes last. *)
Fixpoint insert_index (o : object) (i : N) (key : jsstring) (v : value) : object :=
  match o with
  | [] => [(key, v)]
  | (k, w) :: rest =>
      match array_index k with
      | Some j => if j <? i then (k, w) :: insert_index rest i key v else (key, v) :: o
      | None => (key, v) :: o
      end
  end.

Definition define_own (o : object) (key : jsstring) (v : value) : object :=
  match array_index key with
  | Some i => insert_index o i key v
  | None => o ++ [(key, v)]
  end.

(** [o[key] = v] on an object created by a literal. [Object.prototype] has
    one accessor property, [__proto__]: assigning to that name runs its
    setter and creates no own property. Any other name becomes an own
    property, in place when the object has it already. *)
Fixpoint replace_own (o : object) (key : jsstring) (v : value) : object :=
  match o with
  | [] => []
  | (k, w) :: rest =>
      if decide (k = key) then (k, v) :: rest else (k, w) :: replace_own rest key v
  end.

Definition assign (o : object) (key : jsstring) (v : value) : object :=
  if decide (key = proto_key) then o
  else match own o key with
       | Some _ => replace_own o key v
       | None => define_own o key v
       end.

(** What is in a file: a text that [JSON.parse] turns into a value, or
    anything else (a text it rejects, or a file that cannot be read), with
    the message of the error thrown. *)
Inductive file_text :=
| ParsesTo (v : value)
| NotJSON (message : jsstring).

(** [Math.round]: the nearest integer, a tie going up. It is exact. *)
Definition Math_round (x : Q) : Z := Qfloor (x + (1 # 2)).

(** ** Regular expressions *)

(** The patterns of the two scripts are sequences of characters and
    character classes, each of them possibly repeated, with no group and no
    alternative. *)
Inductive atom :=
| Chr (c : N)
| Cls (ranges : list (N * N)) (negated : bool).

(** [Many a min max] is the greedy [a{min,max}]: [a*] is [Many a 0 None],
    [a+] is [Many a 1 None], [a?] is [Many a 0 (Some 1)]. *)
Inductive token :=
| One (a : atom)
| Many (a : atom) (min : nat) (max : option nat).

Record regex := {
  at_start : bool;
  tokens : list token;
  at_end : bool;
  ignoreCase : bool;
}.

Definition in_ranges (ranges : list (N * N)) (c : N) : bool :=
  existsb (λ r, (r.1 <=? c) && (c <=? r.2)) ranges.

(** [Canonicalize] of a pattern without the [u] flag: the upper case of the
    code unit, except that a code unit outside ASCII is never turned into
    an ASCII one. So for what the patterns below can tell, all written in
    ASCII, [a] to [z] are the only code units that change. *)
Definition canonicalize (c : N) : N :=
  if (97 <=? c) && (c <=? 122) then c - 32 else c.

Definition lower_case (c : N) : N :=
  if (65 <=? c) && (c <=? 90) then c + 32 else c.

(** Under [/i] a character matches one of the same canonical form, and a
    class matches when one of its members has the canonical form of the
    input. *)
Definition atom_matches (ic : bool) (a : atom) (c : N) : bool :=
  match a with
  | Chr x => if ic then canonicalize x =? canonicalize c else x =? c
  | Cls ranges negated =>
      xorb negated
        (if ic
         then in_ranges ranges (canonicalize c)
              || in_ranges ranges (lower_case (canonicalize c))
         else in_ranges ranges c)
  end.

(** A greedy repetition of [a], between [min] and [max] times, followed by
    what [rest] matches: it first takes as much as it can and gives back
    what the rest of the pattern needs. The result is the length matched. *)
Fixpoint many (ic : bool) (a : atom) (rest : jsstring → option nat)
    (s : jsstring) (min : nat) (max : option nat) {struct s} : option nat :=
  let stop :=
    match min with
    | O => rest s
    | S _ => None
    end in
  match s with
  | c :: s' =>
      if atom_matches ic a c && negb (bool_decide (max = Some O))
      then match many ic a rest s' (pred min) (pred <$> max) with
           | Some n => Some (S n)
           | None => stop
           end
      else stop
  | [] => stop
  end.

(** The length of the match of [toks] at the start of the string, if there
    is one. *)
Fixpoint match_here (ic at_end : bool) (toks : list token) : jsstring → option nat :=
  match toks with
  | [] => λ s,
      if at_end then match s with [] => Some O | _ :: _ => None end else Some O
  | One a :: rest => λ s,
      match s with
      | c :: s' =>
          if atom_matches ic a c then S <$> match_here ic at_end rest s' else None
      | [] => None
      end
  | Many a min max :: rest => λ s,
      many ic a (match_here ic at_end rest) s min max
  end.

Definition matches_here (re : regex) (s : jsstring) : option nat :=
  match_here (ignoreCase re) (at_end re) (tokens re) s.

Fixpoint search (re : regex) (s : jsstring) : bool :=
  bool_decide (is_Some (matches_here re s))
  || match s with
     | _ :: s' => search re s'
     | [] => false
     end.

(** [re.test(s)], for a pattern without the [g] flag. *)
Definition test (re : regex) (s : jsstring) : bool :=
  if at_start re then bool_decide (is_Some (matches_here re s)) else search re s.

(** [s.match(re) ?? []] for a pattern with the [g] flag: the matches from
    left to right, the search resuming where the last match ended. [skip]
    counts the code units of the last match still to pass. *)
Fixpoint match_all (re : regex) (skip : nat) (s : jsstring) : list jsstring :=
  match skip with
  | S skip' =>
      match s with
      | _ :: s' => match_all re skip' s'
      | [] => []
      end
  | O =>
      match matches_here re s with
      | Some n =>
          take n s :: match s with
                      | _ :: s' => match_all re (pred n) s'
                      | [] => []
                      end
      | None =>
          match s with
          | _ :: s' => match_all re O s'
          | [] => []
          end
      end
  end.

Definition lit (s : string) : list token := (λ c, One (Chr c)) <$> str s.

Definition white_space : atom :=
  Cls [(9, 13); (32, 32); (160, 160); (5760, 5760); (8192, 8202); (8232, 8233);
       (8239, 8239); (8287, 8287); (12288, 12288); (65279, 65279)] false.

Definition unanchored (toks : list token) (ic : bool) : regex :=
  {| at_start := false; tokens := toks; at_end := false; ignoreCase := ic |}.

(** White space and line terminators: what [\s] matches and what
    [String.prototype.trim] removes. *)
Definition is_space (c : N) : bool := atom_matches false white_space c.

(** [s.trim() === ''] *)
Definition trim_is_empty (s : jsstring) : bool := forallb is_space s.

(** [s.startsWith(pat)] *)
Fixpoint starts_with (pat s : jsstring) : bool :=
  match pat, s with
  | [], _ => true
  | _ :: _, [] => false
  | p :: pat', c :: s' => (p =? c) && starts_with pat' s'
  end.

(** [s.replace(pat, rep)] for a string [pat]: the first occurrence only. *)
Fixpoint replace_first (pat rep s : jsstring) : jsstring :=
  if starts_with pat s then rep ++ drop (length pat) s
  else match s with
       | [] => []
       | c :: s' => c :: replace_first pat rep s'
       end.

(** ** The validator, [scripts/validate.js] *)

Definition MAX_LENGTH : nat := 2000.
Definition MAX_LENGTH_RATIO : nat := 10.

(** The patterns refused, with their labels. *)
Definition BLOCKED_PATTERNS : list (regex * jsstring) :=
  [ (unanchored (lit "<script") true, str "script tag");
    (unanchored (lit "</script") true, str "closing script tag");
    (unanchored (lit "javascript" ++ [Many white_space 0 None] ++ lit ":") true,
     str "javascript: URI");
    (unanchored (lit "on" ++ [Many (Cls [(97, 122)] false) 2 None;
                              Many white_space 0 None] ++ lit "=") true,
     str "inline event handler (onX=)");
    (unanchored (lit "<iframe") true, str "iframe tag");
    (unanchored (lit "<img" ++ [Many (Cls [(62, 62)] true) 1 None] ++ lit "onerror") true,
     str "img onerror injection");
    (unanchored (lit "data:" ++ [Many (Cls [(44, 44)] true) 0 None] ++ lit "base64") true,
     str "base64 data URI");
    (unanchored (lit "&#" ++ [Many (Chr 120) 0 (Some 1%nat);
                              Many (Cls [(48, 57); (97, 102)] false) 1 None] ++ lit ";") true,
     str "HTML numeric entity (potential obfuscation)");
    (unanchored [One (Chr 8238)] false,
     str "right-to-left override character (U+202E)") ].

(** [/\{\{[^}]+\}\}/g] *)
Definition placeholder : regex :=
  unanchored (lit "{{" ++ [Many (Cls [(125, 125)] true) 1 None] ++ lit "}}") false.

Definition extractPlaceholders (s : jsstring) : list jsstring :=
  sort (match_all placeholder 0 s).

(** [/[\x00-\x08\x0b\x0c\x0e-\x1f\x7f]/] *)
Definition control_chars : regex :=
  unanchored [One (Cls [(0, 8); (11, 11); (12, 12); (14, 31); (127, 127)] false)] false.

Definition hasControlChars (s : jsstring) : bool := test control_chars s.

(** [/^[a-z]{2,5}$/] *)
Definition language_code : regex :=
  {| at_start := true; tokens := [Many (Cls [(97, 122)] false) 2 (Some 5%nat)];
     at_end := true; ignoreCase := false |}.

(** The messages of the validator, each kept with the parts its text is
    made of; [render] gives the text. *)
Inductive message :=
| SourceSubmitted
| ReportSubmitted
| BadFileName (label : jsstring)
| InvalidJSON (reason : jsstring)
| RootNotObject
| MissingKey (key : jsstring)
| UnknownKey (key : jsstring)
| NotAString (key type : jsstring)
| EmptyValue (key : jsstring)
| BlockedContent (key patLabel : jsstring)
| ControlChars (key : jsstring)
| MissingPlaceholders (key : jsstring) (missing : list jsstring)
| ExtraPlaceholders (key : jsstring) (extra : list jsstring)
| TooLong (key : jsstring) (length : nat)
| MuchLonger (key : jsstring) (ratio : Z).

#[global] Instance message_eq_dec : EqDecision message.
Proof. solve_decision. Defined.

Definition quoted (s : jsstring) : jsstring := [34] ++ s ++ [34].
Definition bracketed (key : jsstring) : jsstring := str "[" ++ key ++ str "] ".

Definition render (m : message) : jsstring :=
  match m with
  | SourceSubmitted =>
      str "en.json is the source of truth " ++ [8212]
      ++ str " do not submit it as a translation."
  | ReportSubmitted =>
      str "report.json is auto-generated " ++ [8212] ++ str " do not submit it in a PR."
  | BadFileName label =>
      str "File name " ++ quoted label
      ++ str " is not a valid language code (expected e.g. " ++ quoted (str "de.json")
      ++ str ")."
  | InvalidJSON reason => str "Invalid JSON: " ++ reason
  | RootNotObject => str "Root value must be a JSON object."
  | MissingKey key => str "Missing key: " ++ quoted key
  | UnknownKey key => str "Unknown key not in en.json: " ++ quoted key
  | NotAString key type =>
      bracketed key ++ str "Value must be a string, got " ++ type ++ str "."
  | EmptyValue key => bracketed key ++ str "Value is empty (English is not)."
  | BlockedContent key patLabel =>
      bracketed key ++ str "Contains blocked content: " ++ patLabel ++ str "."
  | ControlChars key => bracketed key ++ str "Contains non-printable control characters."
  | MissingPlaceholders key missing =>
      bracketed key ++ str "Missing template placeholder(s): " ++ join (str ", ") missing
  | ExtraPlaceholders key extra =>
      bracketed key ++ str "Extra template placeholder(s) not in English: "
      ++ join (str ", ") extra
  | TooLong key len =>
      bracketed key ++ str "Value exceeds hard cap of " ++ digits (N.of_nat MAX_LENGTH)
      ++ str " characters (got " ++ digits (N.of_nat len) ++ str ")."
  | MuchLonger key ratio =>
      bracketed key ++ str "Value is " ++ digits (Z.to_N ratio) ++ [215]
      ++ str " longer than English " ++ [8212] ++ str " looks suspicious."
  end.

(** What [validate] returns. *)
Record report := {
  errors : list message;
  warnings : list message;
}.

Definition push_error (r : report) (m : message) : report :=
  {| errors := errors r ++ [m]; warnings := warnings r |}.

Definition push_warning (r : report) (m : message) : report :=
  {| errors := errors r; warnings := warnings r ++ [m] |}.

(** The file to validate: [path.basename(file)] and what reading and parsing
    it gives. *)
Record submitted_file := {
  basename : jsstring;
  text : file_text;
}.

(** [new Set(l)]: the elements of [l] in order, each once. *)
Fixpoint new_Set (l : list jsstring) : list jsstring :=
  match l with
  | [] => []
  | x :: rest => x :: filter (λ y, y ≠ x) (new_Set rest)
  end.

Definition Set_has (s : list jsstring) (x : jsstring) : bool := bool_decide (x ∈ s).

(** [l.includes(p)] *)
Definition includes (l : list jsstring) (p : jsstring) : bool := bool_decide (p ∈ l).

(** 6 and 7: the injection checks. *)
Definition check_blocked (key value : jsstring) (r : report) : report :=
  foldl (λ r pat, if test pat.1 value then push_error r (BlockedContent key pat.2) else r)
    r BLOCKED_PATTERNS.

(** 9: placeholder consistency. *)
Definition check_placeholders (key enValue value : jsstring) (r : report) : report :=
  let enPlaceholders := extractPlaceholders enValue in
  let langPlaceholders := extractPlaceholders value in
  let missing := filter (λ p, includes langPlaceholders p = false) enPlaceholders in
  let extra := filter (λ p, includes enPlaceholders p = false) langPlaceholders in
  let r := match missing with
           | [] => r
           | _ :: _ => push_error r (MissingPlaceholders key missing)
           end in
  match extra with
  | [] => r
  | _ :: _ => push_error r (ExtraPlaceholders key extra)
  end.

(** 10: length sanity. The ratio shown is [Math.round] of a quotient of two
    lengths of at most [MAX_LENGTH], where the rounding of the division
    changes nothing. *)
Definition check_length (key enValue value : jsstring) (r : report) : report :=
  if (MAX_LENGTH <? length value)%nat
  then push_error r (TooLong key (length value))
  else if (0 <? length enValue)%nat && (length enValue * MAX_LENGTH_RATIO <? length value)%nat
  then push_warning r
         (MuchLonger key (Math_round (inject_Z (Z.of_nat (length value))
                                      / inject_Z (Z.of_nat (length enValue)))))
  else r.

(** The body of the loop over [Object.entries(content)]. A key that is not
    in [enKeys] was flagged before and is passed over; for any other key
    [enContent[key]] is a string of the source. *)
Definition check_entry (enContent : source) (r : report) (entry : jsstring * value) : report :=
  let key := entry.1 in
  match own enContent key with
  | None => r
  | Some enValue =>
      match entry.2 with
      | VString value =>
          let r := if trim_is_empty value && negb (trim_is_empty enValue)
                   then push_warning r (EmptyValue key) else r in
          let r := check_blocked key value r in
          let r := if hasControlChars value then push_error r (ControlChars key) else r in
          let r := check_placeholders key enValue value r in
          check_length key enValue value r
      | other => push_error r (NotAString key (typeof other))
      end
  end.

Definition en_json : jsstring := str "en.json".
Definition report_json : jsstring := str "report.json".

(** [validate(file, enContent)] *)
Definition validate (file : submitted_file) (enContent : source) : report :=
  let label := basename file in
  if decide (label = en_json) then {| errors := [SourceSubmitted]; warnings := [] |}
  else if decide (label = report_json) then {| errors := [ReportSubmitted]; warnings := [] |}
  else
    let r := {| errors := []; warnings := [] |} in
    let langCode := replace_first (str ".json") [] label in
    let r := if test language_code langCode then r else push_error r (BadFileName label) in
    match text file with
    | NotJSON reason => push_error r (InvalidJSON reason)
    | ParsesTo (VObject content) =>
        let enKeys := new_Set (Object_keys enContent) in
        let langKeys := new_Set (Object_keys content) in
        let r := foldl (λ r key, if Set_has langKeys key then r
                                 else push_error r (MissingKey key)) r enKeys in
        let r := foldl (λ r key, if Set_has enKeys key then r
                                 else push_error r (UnknownKey key)) r langKeys in
        foldl (check_entry enContent) r content
    | ParsesTo _ => push_error r RootNotObject
    end.

(** ** The synchronizer, [scripts/sync-i18n.js] *)

(** The JSON files of [I18N_DIR], by name: [fs !! lang] is the file
    [`${lang}.json`], [None] when there is no such file. *)
Abbreviation filesystem := (gmap jsstring file_text).

Record stats := {
  translated : Z;
  untranslated : Z;
  missing : Z;
  completion : Q;
}.

(** The three variables the merge loop updates. *)
Record merge_state := {
  merged : object;
  untranslatedKeys : list jsstring;
  missingKeys : list jsstring;
}.

Definition merge_start : merge_state :=
  {| merged := []; untranslatedKeys := []; missingKeys := [] |}.

(** [for (const x of l) body] *)
Fixpoint for_of {A S} (body : S → A → outcome S) (st : S) (l : list A) : outcome S :=
  match l with
  | [] => mret st
  | x :: rest => st' ← body st x; for_of body st' rest
  end.

(** The body of the merge loop. *)
Definition merge_key (enContent : source) (langContent : value)
    (st : merge_state) (key : jsstring) : outcome merge_state :=
  present ← hasOwn langContent key;
  if (present : bool) then
    mret {| merged := assign (merged st) key (get langContent key);
            untranslatedKeys :=
              if strict_eq (get langContent key) (source_get enContent key)
              then untranslatedKeys st ++ [key]
              else untranslatedKeys st;
            missingKeys := missingKeys st |}
  else
    mret {| merged := assign (merged st) key (source_get enContent key);
            untranslatedKeys := untranslatedKeys st ++ [key];
            missingKeys := missingKeys st ++ [key] |}.

Section Synchronizer.

(** The arithmetic of the script is that of doubles: the result of a
    division or a multiplication is the exact result rounded to a double.
    [fl] is that rounding. Integers of the size of a key count are doubles
    and need none. *)
Variable fl : Q → Q.

(** [totalKeys > 0 ? Math.round((translatedKeys / totalKeys) * 1000) / 10 : 100] *)
Definition completion_of (translatedKeys totalKeys : Z) : Q :=
  if (0 <? totalKeys)%Z
  then fl (inject_Z (Math_round
             (fl (fl (inject_Z translatedKeys / inject_Z totalKeys) * 1000))) / 10)
  else 100.

(** [syncLanguage(lang, enContent)], from the files it finds to the files
    it leaves and the stats it returns. Writing the file is taken to
    succeed, and the text written parses back to [merged]. The line it
    prints is left out. *)
Definition syncLanguage (fs : filesystem) (lang : jsstring) (enContent : source)
    : outcome (filesystem * stats) :=
  let langContent :=
    match fs !! lang with
    | Some (ParsesTo v) => v
    | Some (NotJSON _) => VObject []
    | None => VObject []
    end in
  let enKeys := sort (Object_keys enContent) in
  st ← for_of (merge_key enContent langContent) merge_start enKeys;
  let fs' := <[lang := ParsesTo (VObject (merged st))]> fs in
  let totalKeys := Z.of_nat (length enKeys) in
  let translatedKeys := (totalKeys - Z.of_nat (length (untranslatedKeys st)))%Z in
  mret (fs', {| translated := translatedKeys;
                untranslated := Z.of_nat (length (untranslatedKeys st));
                missing := Z.of_nat (length (missingKeys st));
                completion := completion_of translatedKeys totalKeys |}).

End Synchronizer.

(** The same expression on the binary64 numbers of the kernel, to run it on
    the doubles the script computes with. [Math.round] is written for an
    argument between 0 and 2^52: adding and subtracting 2^52 rounds to an
    integer, a tie going to the even one, and a tie that went down is put
    up. *)
Fixpoint double_of_positive (p : positive) : PrimFloat.float :=
  match p with
  | xH => PrimFloat.one
  | xO p => PrimFloat.mul PrimFloat.two (double_of_positive p)
  | xI p => PrimFloat.add (PrimFloat.mul PrimFloat.two (double_of_positive p)) PrimFloat.one
  end.

Definition double_of_count (z : Z) : PrimFloat.float :=
  match z with
  | Zpos p => double_of_positive p
  | _ => PrimFloat.zero
  end.

Definition Math_round_double (x : PrimFloat.float) : PrimFloat.float :=
  let two52 := double_of_count (2 ^ 52) in
  let r := PrimFloat.sub (PrimFloat.add x two52) two52 in
  if PrimFloat.eqb (PrimFloat.sub x r) (PrimFloat.div PrimFloat.one PrimFloat.two)
  then PrimFloat.add r PrimFloat.one
  else r.

Definition completion_double (translatedKeys totalKeys : Z) : PrimFloat.float :=
  if (0 <? totalKeys)%Z
  then PrimFloat.div
         (Math_round_double
            (PrimFloat.mul
               (PrimFloat.div (double_of_count translatedKeys) (double_of_count totalKeys))
               (double_of_count 1000)))
         (double_of_count 10)
  else double_of_count 100.

(** ** The rest of the synchronizer: the progress bar and [main] *)

(** [s.repeat(count)] for an integer [count]: [None] stands for the
    [RangeError] a negative count throws. *)
Definition String_repeat (s : jsstring) (count : Z) : option jsstring :=
  if (count <? 0)%Z then None else Some (concat (replicate (Z.to_nat count) s)).

Section Progress.

Variable fl : Q → Q.

(** [progressBar(pct)]: 20 cells, a full block (U+2588) for every 5 percent
    and a light shade (U+2591) for the rest, between brackets. *)
Definition progressBar (pct : Q) : option jsstring :=
  let filled := Math_round (fl (pct / 5)) in
  full ← String_repeat [9608] filled;
  rest ← String_repeat [9617] (20 - filled);
  Some ([91] ++ full ++ rest ++ [93]).

End Progress.

Definition LANGUAGES : list jsstring :=
  [str "de"; str "es"; str "fr"; str "it"; str "ja"; str "ko"; str "pl"; str "pt";
   str "ru"; str "tr"; str "zh"].

(** The report [main] builds. [generated] is the time of the run, and
    [languages] the object it fills, one entry for each language. *)
Record sync_report := {
  generated : jsstring;
  totalKeys : Z;
  languages : list (jsstring * stats);
}.

(** How a script ends: [process.exit(code)], its last statement, or an
    exception that nothing catches. *)
(** The object a stats record is in [report.json], and the report itself:
    what [JSON.parse] gives for the text [JSON.stringify] wrote. *)
Definition stats_value (st : stats) : value :=
  VObject [(str "translated", VNumber (inject_Z (translated st)));
           (str "untranslated", VNumber (inject_Z (untranslated st)));
           (str "missing", VNumber (inject_Z (missing st)));
           (str "completion", VNumber (completion st))].

Definition report_value (r : sync_report) : value :=
  VObject [(str "generated", VString (generated r));
           (str "totalKeys", VNumber (inject_Z (totalKeys r)));
           (str "languages",
            VObject ((λ entry, (entry.1, stats_value entry.2)) <$> languages r))].

(** [report.json] among the files of [I18N_DIR]. *)
Definition report_name : jsstring := str "report".

Inductive run (A : Type) :=
| Exit (code : Z)
| Done (a : A)
| Uncaught (e : js_error).
Arguments Exit {A} code.
Arguments Done {A} a.
Arguments Uncaught {A} e.

Section Main.

Variable fl : Q → Q.

(** The loop of [main] over the languages, with the files as they are when
    it ends or when [syncLanguage] throws. The languages are distinct, and
    none is [__proto__] or an array index, so [report.languages[lang] = ...]
    adds an entry after the others. *)
Fixpoint sync_each (enContent : source) (langs : list jsstring) (fs : filesystem)
    (entries : list (jsstring * stats)) : filesystem * outcome (list (jsstring * stats)) :=
  match langs with
  | [] => (fs, Returns entries)
  | lang :: rest =>
      match syncLanguage fl fs lang enContent with
      | Returns (fs', st) => sync_each enContent rest fs' (entries ++ [(lang, st)])
      | Throws e => (fs, Throws e)
      end
  end.

(** [main()] of the synchronizer. [en_file] is [en.json], [None] when there
    is no such file; [now] is the time. When the loop is done it writes
    [report.json], the file of the name [report]. What is printed is left
    out. *)
Definition main (now : jsstring) (en_file : option source) (fs : filesystem)
    : filesystem * run sync_report :=
  match en_file with
  | None => (fs, Exit 1)
  | Some enContent =>
      let totalKeys := Z.of_nat (length (Object_keys enContent)) in
      match sync_each enContent LANGUAGES fs [] with
      | (fs', Returns entries) =>
          let report := {| generated := now; totalKeys := totalKeys; languages := entries |} in
          (<[report_name := ParsesTo (report_value report)]> fs', Done report)
      | (fs', Throws e) => (fs', Uncaught e)
      end
  end.

End Main.

(** ** The command line of the validator *)

Record totals := {
  totalErrors : nat;
  totalWarnings : nat;
}.

(** The body of the loop over the files named: [None] is a file that
    [fs.existsSync] does not find. *)
Definition validate_next (enContent : source) (t : totals) (file : option submitted_file)
    : totals :=
  match file with
  | None => {| totalErrors := S (totalErrors t); totalWarnings := totalWarnings t |}
  | Some f =>
      let r := validate f enContent in
      {| totalErrors := totalErrors t + length (errors r);
         totalWarnings := totalWarnings t + length (warnings r) |}
  end.

(** The script of the validator, to its exit code. [en_file] is [en.json],
    [None] when there is no such file. *)
Definition validate_cli (files : list (option submitted_file)) (en_file : option source) : Z :=
  match files with
  | [] => 1
  | _ :: _ =>
      match en_file with
      | None => 1
      | Some enContent =>
          let t := foldl (validate_next enContent)
                     {| totalErrors := 0; totalWarnings := 0 |} files in
          if (0 <? totalErrors t)%nat then 1 else 0
      end
  end%Z.

(** ** Definitions the properties are stated with *)

(** *** For the synchronizer *)

(** [ToObject] succeeds on every value but [undefined] and [null]. *)
Definition coercible (v : value) : bool :=
  match v with
  | VUndefined | VNull => false
  | _ => true
  end.

(** [Object.hasOwn] when it returns. *)
Definition has (v : value) (key : jsstring) : bool :=
  match hasOwn v key with
  | Returns b => b
  | Throws _ => false
  end.

(** The value the loop stores under [key]. *)
Definition kept (enContent : source) (langContent : value) (key : jsstring) : value :=
  if has langContent key then get langContent key else source_get enContent key.

(** Whether the loop records [key] as untranslated. *)
Definition still_english (enContent : source) (langContent : value) (key : jsstring) : bool :=
  if has langContent key
  then strict_eq (get langContent key) (source_get enContent key)
  else true.

(** The three variables after the loop has run over [keys]. *)
Definition merge_all (enContent : source) (langContent : value)
    (st : merge_state) (keys : list jsstring) : merge_state :=
  {| merged := foldl (λ o key, assign o key (kept enContent langContent key)) (merged st) keys;
     untranslatedKeys :=
       untranslatedKeys st ++ filter (λ key, still_english enContent langContent key = true) keys;
     missingKeys :=
       missingKeys st ++ filter (λ key, has langContent key = false) keys |}.

(** The place [define_own] gives to a new key among the keys. *)
Fixpoint insert_key (l : list jsstring) (i : N) (key : jsstring) : list jsstring :=
  match l with
  | [] => [key]
  | k :: rest =>
      match array_index k with
      | Some j => if j <? i then k :: insert_key rest i key else key :: l
      | None => key :: l
      end
  end.

Definition place_key (l : list jsstring) (key : jsstring) : list jsstring :=
  match array_index key with
  | Some i => insert_key l i key
  | None => l ++ [key]
  end.

(** The keys of the object the loop builds, as the object lists them: each
    key once, [__proto__] never. *)
Definition add_key (l : list jsstring) (key : jsstring) : list jsstring :=
  if decide (key = proto_key) then l
  else if decide (key ∈ l) then l else place_key l key.

(** The property the loop creates for [key] when it stores [f key]. *)
Definition entry (f : jsstring → value) (key : jsstring) : jsstring * value :=
  (key, f key).

(** What [syncLanguage] reads as [langContent]. *)
Definition candidate (fs : filesystem) (lang : jsstring) : value :=
  match fs !! lang with
  | Some (ParsesTo v) => v
  | Some (NotJSON _) => VObject []
  | None => VObject []
  end.

(** The object the loop builds. *)
Definition merged_of (enContent : source) (langContent : value) : object :=
  entry (kept enContent langContent)
    <$> foldl add_key [] (sort (Object_keys enContent)).

(** The stats the run returns. *)
Definition stats_of (fl : Q → Q) (enContent : source) (langContent : value) : stats :=
  let enKeys := sort (Object_keys enContent) in
  let untranslatedKeys := filter (λ key, still_english enContent langContent key = true) enKeys in
  let missingKeys := filter (λ key, has langContent key = false) enKeys in
  let totalKeys := Z.of_nat (length enKeys) in
  let translatedKeys := (totalKeys - Z.of_nat (length untranslatedKeys))%Z in
  {| translated := translatedKeys;
     untranslated := Z.of_nat (length untranslatedKeys);
     missing := Z.of_nat (length missingKeys);
     completion := completion_of fl translatedKeys totalKeys |}.

(** One of [LANGUAGES]. *)
Definition de : jsstring := str "de".

(** *** For the completion statistic *)

(** Half the distance between 1 and the next double, 2^-53. *)
Definition half_ulp : Q := Eval vm_compute in (1 # 2 ^ 53)%Q.

(** A range well inside that of the normal doubles: from 2^-64 to 2^64. *)
Definition range_low : Q := Eval vm_compute in (1 # 2 ^ 64)%Q.

Definition range_high : Q := Eval vm_compute in (2 ^ 64)%Q.

(** What rounding to the nearest double does to zero and to a number of that
    range: it moves it by at most 2^-53 times its size. *)
Definition rounds_to_double (fl : Q → Q) : Prop :=
  ∀ x : Q, (x == 0 ∨ range_low <= Qabs x <= range_high)%Q →
           (Qabs (fl x - x) <= half_ulp * Qabs x)%Q.

(** Whether [completion_double] gives, for [translatedKeys] of [totalKeys],
    the double of a number of tenths nearest to the exact percentage: the
    exact [translatedKeys / totalKeys * 1000] rounded to an integer, a tie
    going either way. *)
Definition nearest_tenths (translatedKeys totalKeys : Z) : bool :=
  let up := ((2000 * translatedKeys + totalKeys) / (2 * totalKeys))%Z in
  let down := (- ((totalKeys - 2000 * translatedKeys) / (2 * totalKeys)))%Z in
  let tenths k := PrimFloat.div (double_of_count k) (double_of_count 10) in
  PrimFloat.eqb (completion_double translatedKeys totalKeys) (tenths up)
  || PrimFloat.eqb (completion_double translatedKeys totalKeys) (tenths down).

(** *** For the validator *)

Definition empty_report : report := {| errors := []; warnings := [] |}.

(** A step of the validator only adds messages, and which ones does not
    depend on the messages it finds. *)
Definition appends (f : report → report) : Prop :=
  ∀ r, errors (f r) = errors r ++ errors (f empty_report).

(** The errors of each check. *)
Definition blocked_errors (key value : jsstring) : list message :=
  flat_map (λ pat : regex * jsstring,
              if test pat.1 value then [BlockedContent key pat.2] else [])
    BLOCKED_PATTERNS.

Definition control_errors (key value : jsstring) : list message :=
  if hasControlChars value then [ControlChars key] else [].

Definition missing_placeholders (enValue value : jsstring) : list jsstring :=
  filter (λ p, includes (extractPlaceholders value) p = false) (extractPlaceholders enValue).

Definition extra_placeholders (enValue value : jsstring) : list jsstring :=
  filter (λ p, includes (extractPlaceholders enValue) p = false) (extractPlaceholders value).

Definition placeholder_errors (key enValue value : jsstring) : list message :=
  match missing_placeholders enValue value with
  | [] => []
  | _ :: _ => [MissingPlaceholders key (missing_placeholders enValue value)]
  end
  ++ match extra_placeholders enValue value with
     | [] => []
     | _ :: _ => [ExtraPlaceholders key (extra_placeholders enValue value)]
     end.

Definition length_errors (key value : jsstring) : list message :=
  if (MAX_LENGTH <? length value)%nat then [TooLong key (length value)] else [].

Definition entry_errors (enContent : source) (entry : jsstring * value) : list message :=
  match own enContent entry.1 with
  | None => []
  | Some enValue =>
      match entry.2 with
      | VString value =>
          blocked_errors entry.1 value ++ control_errors entry.1 value
          ++ placeholder_errors entry.1 enValue value ++ length_errors entry.1 value
      | other => [NotAString entry.1 (typeof other)]
      end
  end.

Definition name_errors (label : jsstring) : list message :=
  if test language_code (replace_first (str ".json") [] label) then []
  else [BadFileName label].

Definition missing_keys (enContent : source) (content : object) : list jsstring :=
  filter (λ key, Set_has (new_Set (Object_keys content)) key = false)
    (new_Set (Object_keys enContent)).

Definition unknown_keys (enContent : source) (content : object) : list jsstring :=
  filter (λ key, Set_has (new_Set (Object_keys enContent)) key = false)
    (new_Set (Object_keys content)).

(** How many times a message occurs. *)
Definition occurrences (m : message) (l : list message) : nat :=
  length (filter (λ x, x = m) l).

(** The key a per-value error is about. *)
Definition entry_key (m : message) : option jsstring :=
  match m with
  | NotAString key _ | BlockedContent key _ | ControlChars key
  | MissingPlaceholders key _ | ExtraPlaceholders key _ | TooLong key _ => Some key
  | _ => None
  end.

(** A message names a string when its text contains it. *)
Definition names (m : message) (s : jsstring) : Prop :=
  ∃ before after, render m = before ++ s ++ after.

(** The control characters of ASCII: the code units below U+0020, and
    U+007F. *)
Definition control_character (c : N) : Prop := c < 32 ∨ c = 127.

(** Two strings that differ by the case of ASCII letters only. *)
Definition case_variant (s s' : jsstring) : Prop :=
  Forall2 (λ c c', canonicalize c = canonicalize c') s s'.

(** *** A file to try the theorems on *)

Ltac by_computation := apply (bool_decide_unpack _); vm_compute; exact I.

(** The source [{"greeting": "Hello {{name}}", "farewell": "Goodbye"}]. *)
Definition sample_source : source :=
  [(str "greeting", str "Hello {{name}}"); (str "farewell", str "Goodbye")].

(** A [de.json] that drops the placeholder, rings the bell in upper case
    script, and has a key of its own:
    [{"greeting": "<SCRIPT>\u0007Bonjour", "extra": "x"}]. *)
Definition sample_content : object :=
  [(str "greeting", VString (str "<SCRIPT>" ++ [7] ++ str "Bonjour"));
   (str "extra", VString (str "x"))].

Definition sample_file : submitted_file :=
  {| basename := str "de.json"; text := ParsesTo (VObject sample_content) |}.

(** *** For the patterns *)

(** [s] contains [w] up to the case of ASCII letters. *)
Definition contains_variant (w s : jsstring) : Prop :=
  ∃ before found after, s = before ++ found ++ after ∧ case_variant w found.

(** A lower case ASCII letter. *)
Definition lower_letter (c : N) : Prop := 97 <= c <= 122.

(** A text of two opening braces, one code unit or more none of which is a
    closing brace, and two closing braces. *)
Definition placeholder_text (p : jsstring) : Prop :=
  ∃ body, p = str "{{" ++ body ++ str "}}" ∧ body ≠ [] ∧ 125 ∉ body.

(** The strings a sequence of tokens stands for: one code unit for each
    atom, and for a repetition a run of code units of the atom, as long as
    its bounds say. *)
Inductive derives (ic : bool) : list token → jsstring → Prop :=
| derives_nil : derives ic [] []
| derives_One a toks c s :
    atom_matches ic a c = true → derives ic toks s →
    derives ic (One a :: toks) (c :: s)
| derives_Many a min max toks run s :
    Forall (λ c, atom_matches ic a c = true) run →
    (min ≤ length run)%nat → (∀ m, max = Some m → (length run ≤ m)%nat) →
    derives ic toks s →
    derives ic (Many a min max :: toks) (run ++ s).

(** [s] holds a match of [re]: a string of the pattern, at the start of [s]
    and up to its end where the pattern says so. *)
Definition holds_match (re : regex) (s : jsstring) : Prop :=
  ∃ before found after,
    s = before ++ found ++ after
    ∧ derives (ignoreCase re) (tokens re) found
    ∧ (at_start re = true → before = [])
    ∧ (at_end re = true → after = []).

(** [p] is a placeholder of [s]: a text of that form found in [s] that is
    not the end of a longer one. In [{{{{a}}] the placeholder is the whole
    string, and [{{a}}] is none. *)
Definition occurs_placeholder (p s : jsstring) : Prop :=
  ∃ before after,
    s = before ++ p ++ after ∧ placeholder_text p
    ∧ ∀ b0 pre, before = b0 ++ pre → pre ≠ [] → ¬ placeholder_text (pre ++ p).

(** *** For the validator *)

(** The extension the validator removes from the name of a file. *)
Definition dot_json : jsstring := str ".json".

(** A language code: two to five lower case ASCII letters. *)
Definition language_code_shape (s : jsstring) : Prop :=
  (2 ≤ length s ≤ 5)%nat ∧ Forall lower_letter s.

(** The warnings of the checks of one entry. *)
Definition entry_warnings (enContent : source) (entry : jsstring * value) : list message :=
  match own enContent entry.1 with
  | None => []
  | Some enValue =>
      match entry.2 with
      | VString value =>
          (if trim_is_empty value && negb (trim_is_empty enValue)
           then [EmptyValue entry.1] else [])
          ++ (if (MAX_LENGTH <? length value)%nat then []
              else if (0 <? length enValue)%nat
                      && (length enValue * MAX_LENGTH_RATIO <? length value)%nat
              then [MuchLonger entry.1
                      (Math_round (inject_Z (Z.of_nat (length value))
                                   / inject_Z (Z.of_nat (length enValue))))]
              else [])
      | _ => []
      end
  end.

(** What an error of a file that parses to the object [content] says of the
    file and of the source. *)
Definition error_cause (file : submitted_file) (enContent : source) (content : object)
    (m : message) : Prop :=
  match m with
  | BadFileName label =>
      label = basename file
      ∧ ¬ language_code_shape (replace_first dot_json [] label)
  | MissingKey key => key ∈ Object_keys enContent ∧ key ∉ Object_keys content
  | UnknownKey key => key ∈ Object_keys content ∧ key ∉ Object_keys enContent
  | NotAString key type =>
      ∃ v, (key, v) ∈ content ∧ key ∈ Object_keys enContent
           ∧ type = typeof v ∧ ∀ s, v ≠ VString s
  | BlockedContent key patLabel =>
      ∃ value re, (key, VString value) ∈ content ∧ key ∈ Object_keys enContent
                  ∧ (re, patLabel) ∈ BLOCKED_PATTERNS ∧ test re value = true
  | ControlChars key =>
      ∃ value c, (key, VString value) ∈ content ∧ key ∈ Object_keys enContent
                 ∧ c ∈ value ∧ control_character c ∧ c ≠ 9 ∧ c ≠ 10 ∧ c ≠ 13
  | MissingPlaceholders key missing =>
      ∃ enValue value, own enContent key = Some enValue ∧ (key, VString value) ∈ content
        ∧ missing ≠ []
        ∧ ∀ p, p ∈ missing
               ↔ p ∈ extractPlaceholders enValue ∧ p ∉ extractPlaceholders value
  | ExtraPlaceholders key extra =>
      ∃ enValue value, own enContent key = Some enValue ∧ (key, VString value) ∈ content
        ∧ extra ≠ []
        ∧ ∀ p, p ∈ extra
               ↔ p ∈ extractPlaceholders value ∧ p ∉ extractPlaceholders enValue
  | TooLong key n =>
      ∃ value, (key, VString value) ∈ content ∧ key ∈ Object_keys enContent
               ∧ n = length value ∧ (MAX_LENGTH < n)%nat
  | _ => False
  end.

(** What a warning says of the file and of the source. *)
Definition warning_cause (enContent : source) (content : object) (m : message) : Prop :=
  match m with
  | EmptyValue key =>
      ∃ enValue value, own enContent key = Some enValue ∧ (key, VString value) ∈ content
        ∧ Forall (λ c, is_space c = true) value
        ∧ ¬ Forall (λ c, is_space c = true) enValue
  | MuchLonger key ratio =>
      ∃ enValue value, own enContent key = Some enValue ∧ (key, VString value) ∈ content
        ∧ (length value ≤ MAX_LENGTH)%nat
        ∧ (0 < length enValue)%nat
        ∧ (length enValue * MAX_LENGTH_RATIO < length value)%nat
        ∧ ratio = Math_round (inject_Z (Z.of_nat (length value))
                              / inject_Z (Z.of_nat (length enValue)))
        ∧ (10 <= ratio)%Z
  | _ => False
  end.

(** A value the validator has no error for, beside the value of the
    source: no detector matches it, its control characters of ASCII are
    tabs, line feeds and carriage returns, its placeholders are those of
    the value of the source, and it is within the cap. *)
Definition value_passes (enValue value : jsstring) : Prop :=
  (∀ pat, pat ∈ BLOCKED_PATTERNS → test pat.1 value = false)
  ∧ (∀ c, c ∈ value → control_character c → c = 9 ∨ c = 10 ∨ c = 13)
  ∧ (∀ p, occurs_placeholder p enValue ↔ occurs_placeholder p value)
  ∧ (length value ≤ MAX_LENGTH)%nat.

(** The control characters as the specification has them, any
    non-printable control character: those of Unicode, which are the ones
    of ASCII and U+0080 to U+009F. *)
Definition unicode_control_character (c : N) : Prop := c < 32 ∨ 127 <= c <= 159.

(** The key a warning is about. *)
Definition warning_key (m : message) : option jsstring :=
  match m with
  | EmptyValue key | MuchLonger key _ => Some key
  | _ => None
  end.

(** How many errors the command line counts for a file. *)
Definition errors_counted (enContent : source) (file : option submitted_file) : nat :=
  match file with
  | None => 1
  | Some f => length (errors (validate f enContent))
  end.

(** *** For the synchronizer *)

(** The state of the merge loop when [syncLanguage] is done with it. *)
Definition merge_result (enContent : source) (langContent : value) : outcome merge_state :=
  for_of (merge_key enContent langContent) merge_start (sort (Object_keys enContent)).

(** Two array indices in ascending order. *)
Definition index_le (a b : jsstring) : Prop :=
  match array_index a, array_index b with
  | Some i, Some j => i <= j
  | _, _ => False
  end.

(** The number of keys of the source. *)
Definition total_of (enContent : source) : Z := Z.of_nat (length (Object_keys enContent)).

(** The bar with [filled] cells out of 20. *)
Definition bar (filled : nat) : jsstring :=
  [91] ++ replicate filled 9608 ++ replicate (20 - filled) 9617 ++ [93].


(** ** Properties of the synchronizer *)

Lemma hasOwn_coercible v key : coercible v = true → hasOwn v key = Returns (has v key).
Proof. unfold has. by destruct v. Qed.

Lemma hasOwn_not_coercible v key : coercible v = false → ∃ e, hasOwn v key = Throws e.
Proof. destruct v; try done; eauto. Qed.

Lemma merge_key_coercible enContent langContent st key :
  coercible langContent = true →
  merge_key enContent langContent st key
  = Returns (merge_all enContent langContent st [key]).
Proof.
  intros Hc. unfold merge_key, merge_all, kept, still_english.
  rewrite (hasOwn_coercible _ _ Hc). cbn [foldl].
  rewrite !filter_cons, !filter_nil.
  destruct (has langContent key) eqn:Hhas; cbn.
  - destruct (strict_eq _ _); repeat case_decide; try done.
    all: by rewrite ?app_nil_r.
  - by repeat case_decide.
Qed.

Lemma merge_all_cons enContent langContent st key keys :
  merge_all enContent langContent st (key :: keys)
  = merge_all enContent langContent (merge_all enContent langContent st [key]) keys.
Proof.
  unfold merge_all. cbn [merged untranslatedKeys missingKeys foldl].
  rewrite !(filter_cons _ key keys), !(filter_cons _ key []), !filter_nil.
  f_equal; repeat case_decide; by rewrite <- ?app_assoc, ?app_nil_r.
Qed.

Lemma for_of_merge_key enContent langContent keys st :
  coercible langContent = true →
  for_of (merge_key enContent langContent) st keys
  = Returns (merge_all enContent langContent st keys).
Proof.
  intros Hc. revert st. induction keys as [|key keys IH]; intros st.
  - destruct st. unfold merge_all. cbn. by rewrite !app_nil_r.
  - cbn [for_of]. rewrite (merge_key_coercible _ _ _ _ Hc).
    unfold mbind, outcome_bind. rewrite IH. by rewrite <- merge_all_cons.
Qed.

Lemma for_of_merge_key_throws enContent langContent key keys st :
  coercible langContent = false →
  ∃ e, for_of (merge_key enContent langContent) st (key :: keys) = Throws e.
Proof.
  intros Hc. destruct (hasOwn_not_coercible langContent key Hc) as [e He].
  exists e. cbn [for_of]. unfold merge_key. by rewrite He.
Qed.

Lemma own_entries f l key :
  own (entry f <$> l) key = if decide (key ∈ l) then Some (f key) else None.
Proof.
  induction l as [|k l IH]; cbn.
  - by rewrite decide_False by apply not_elem_of_nil.
  - destruct (decide (k = key)) as [->|Hne].
    + by rewrite decide_True by left.
    + rewrite IH. destruct (decide (key ∈ l)).
      * by rewrite decide_True by by right.
      * rewrite decide_False; [done|]. rewrite elem_of_cons. naive_solver.
Qed.

Lemma replace_own_entries f l key :
  replace_own (entry f <$> l) key (f key) = entry f <$> l.
Proof.
  induction l as [|k l IH]; cbn; [done|].
  destruct (decide (k = key)) as [->|Hne]; [done|]. by rewrite IH.
Qed.

Lemma insert_index_entries f l i key :
  insert_index (entry f <$> l) i key (f key) = entry f <$> insert_key l i key.
Proof.
  induction l as [|k l IH]; [done|]. cbn.
  destruct (array_index k) as [j|]; [|done].
  destruct (j <? i); [|done]. cbn. by rewrite IH.
Qed.

Lemma define_own_entries f l key :
  define_own (entry f <$> l) key (f key) = entry f <$> place_key l key.
Proof.
  unfold define_own, place_key. destruct (array_index key) as [i|].
  - apply insert_index_entries.
  - by rewrite fmap_app.
Qed.

Lemma assign_entries f l key :
  assign (entry f <$> l) key (f key) = entry f <$> add_key l key.
Proof.
  unfold assign, add_key. destruct (decide (key = proto_key)); [done|].
  rewrite own_entries. destruct (decide (key ∈ l)).
  - apply replace_own_entries.
  - apply define_own_entries.
Qed.

Lemma foldl_assign_entries f keys l :
  foldl (λ o key, assign o key (f key)) (entry f <$> l) keys
  = entry f <$> foldl add_key l keys.
Proof.
  revert l. induction keys as [|key keys IH]; intros l; cbn; [done|].
  by rewrite assign_entries, IH.
Qed.

Lemma insert_key_Permutation l i key : insert_key l i key ≡ₚ key :: l.
Proof.
  induction l as [|k l IH]; [done|]. cbn.
  destruct (array_index k) as [j|]; [|done].
  destruct (j <? i); [|done]. rewrite IH. apply Permutation_swap.
Qed.

Lemma place_key_Permutation l key : place_key l key ≡ₚ key :: l.
Proof.
  unfold place_key. destruct (array_index key) as [i|].
  - apply insert_key_Permutation.
  - by rewrite Permutation_app_comm.
Qed.

Lemma elem_of_foldl_add_key keys l key :
  key ∈ foldl add_key l keys ↔ key ∈ l ∨ (key ∈ keys ∧ key ≠ proto_key).
Proof.
  revert l. induction keys as [|k keys IH]; intros l; cbn.
  - rewrite elem_of_nil. naive_solver.
  - rewrite IH, elem_of_cons. unfold add_key.
    destruct (decide (k = proto_key)) as [->|Hk].
    + naive_solver.
    + destruct (decide (k ∈ l)).
      * naive_solver.
      * rewrite place_key_Permutation, elem_of_cons. naive_solver.
Qed.

(** Keys that are not array indices are listed in the order of their
    creation. *)
Lemma foldl_add_key_nil_proto keys l :
  proto_key ∉ keys → NoDup (l ++ keys) → Forall (λ key, array_index key = None) keys →
  foldl add_key l keys = l ++ keys.
Proof.
  revert l. induction keys as [|k keys IH]; intros l Hp Hnd Hnames; cbn.
  - by rewrite app_nil_r.
  - rewrite not_elem_of_cons in Hp. destruct Hp as [Hk Hp].
    apply Forall_cons in Hnames as [Hname Hnames].
    unfold add_key. rewrite decide_False by done.
    apply NoDup_app in Hnd as Hnd'. destruct Hnd' as (_ & Hdisj & _).
    rewrite decide_False.
    + unfold place_key. rewrite Hname.
      rewrite IH; [by rewrite <- app_assoc|done|by rewrite <- app_assoc|done].
    + intros Hin. apply (Hdisj _ Hin). by left.
Qed.

Lemma elem_of_sort l key : key ∈ sort l ↔ key ∈ l.
Proof. unfold sort. by rewrite merge_sort_Permutation. Qed.

Lemma length_sort l : length (sort l) = length l.
Proof. unfold sort. by rewrite merge_sort_Permutation. Qed.

Lemma syncLanguage_coercible fl fs lang enContent :
  coercible (candidate fs lang) = true →
  syncLanguage fl fs lang enContent
  = Returns (<[lang := ParsesTo (VObject (merged_of enContent (candidate fs lang)))]> fs,
             stats_of fl enContent (candidate fs lang)).
Proof.
  intros Hc. unfold syncLanguage. fold (candidate fs lang).
  rewrite (for_of_merge_key _ _ _ _ Hc). unfold mbind, outcome_bind.
  unfold merge_all, merge_start. cbn [merged untranslatedKeys missingKeys app].
  change (@nil (jsstring * value)) with (entry (kept enContent (candidate fs lang)) <$> []).
  by rewrite foldl_assign_entries.
Qed.

Lemma syncLanguage_no_keys fl fs lang :
  syncLanguage fl fs lang []
  = Returns (<[lang := ParsesTo (VObject [])]> fs,
             {| translated := 0; untranslated := 0; missing := 0; completion := 100 |}).
Proof. reflexivity. Qed.

Lemma syncLanguage_not_coercible fl fs lang enContent :
  coercible (candidate fs lang) = false → enContent ≠ [] →
  ∃ e, syncLanguage fl fs lang enContent = Throws e.
Proof.
  intros Hc Hne. unfold syncLanguage. fold (candidate fs lang).
  destruct (sort (Object_keys enContent)) as [|key keys] eqn:Hs.
  - apply (f_equal length) in Hs. rewrite length_sort in Hs.
    unfold Object_keys in Hs. rewrite length_fmap in Hs. by destruct enContent.
  - destruct (for_of_merge_key_throws enContent _ key keys merge_start Hc) as [e He].
    exists e. by rewrite He.
Qed.

Lemma filter_ext_elem {A} (P Q : A → Prop) `{!∀ x, Decision (P x), !∀ x, Decision (Q x)}
    (l : list A) :
  (∀ x, x ∈ l → P x ↔ Q x) → filter P l = filter Q l.
Proof.
  induction l as [|x l IH]; intros Hext; [done|].
  rewrite !filter_cons. rewrite IH by (intros y Hy; apply Hext; by right).
  destruct (decide (P x)) as [HP|HP], (decide (Q x)) as [HQ|HQ]; try done.
  - destruct HQ. apply Hext; [by left|done].
  - destruct HP. apply Hext; [by left|done].
Qed.

Lemma filter_none {A} (P : A → Prop) `{!∀ x, Decision (P x)} (l : list A) :
  (∀ x, x ∈ l → ¬ P x) → filter P l = [].
Proof.
  induction l as [|x l IH]; intros Hnone; [done|].
  rewrite filter_cons, decide_False by (apply Hnone; by left).
  apply IH. intros y Hy. apply Hnone. by right.
Qed.

(** The keys of the object the loop builds are the keys of the source
    other than [__proto__]. *)
Lemma merged_of_keys enContent langContent key :
  key ∈ Object_keys (merged_of enContent langContent)
  ↔ key ∈ Object_keys enContent ∧ key ≠ proto_key.
Proof.
  unfold merged_of, Object_keys at 1. rewrite <- list_fmap_compose.
  rewrite (list_fmap_ext _ id) by done.
  rewrite list_fmap_id, elem_of_foldl_add_key, elem_of_sort, elem_of_nil.
  naive_solver.
Qed.

(** For a source whose keys are distinct, not [__proto__] and not array
    indices, the keys of the object are the keys of the source in the order
    of the sort. *)
Lemma merged_of_sorted enContent langContent :
  proto_key ∉ Object_keys enContent → NoDup (Object_keys enContent) →
  Forall (λ key, array_index key = None) (Object_keys enContent) →
  Object_keys (merged_of enContent langContent) = sort (Object_keys enContent).
Proof.
  intros Hproto Hnd Hnames. unfold merged_of, Object_keys at 1.
  rewrite <- list_fmap_compose, (list_fmap_ext _ id) by done.
  rewrite list_fmap_id. apply (foldl_add_key_nil_proto _ []).
  - by rewrite elem_of_sort.
  - cbn. unfold sort. by rewrite merge_sort_Permutation.
  - apply Forall_forall. intros key Hin. rewrite elem_of_sort in Hin.
    by apply (proj1 (Forall_forall _ _) Hnames).
Qed.

Lemma own_merged_of enContent langContent key :
  key ∈ Object_keys enContent → key ≠ proto_key →
  own (merged_of enContent langContent) key = Some (kept enContent langContent key).
Proof.
  intros Hin Hne. unfold merged_of. rewrite own_entries.
  rewrite decide_True; [done|].
  rewrite elem_of_foldl_add_key, elem_of_sort. by right.
Qed.

Lemma own_merged_of_proto enContent langContent :
  own (merged_of enContent langContent) proto_key = None.
Proof.
  unfold merged_of. rewrite own_entries.
  rewrite decide_False; [done|].
  rewrite elem_of_foldl_add_key, elem_of_nil. naive_solver.
Qed.

Lemma strict_eq_source_get enContent key :
  strict_eq (source_get enContent key) (source_get enContent key) = true.
Proof.
  unfold source_get. destruct (own enContent key); cbn; [|done].
  by rewrite bool_decide_eq_true.
Qed.

(** Run on its own output, the loop keeps every value and classifies every
    key as before; no key is missing any more. *)
Lemma kept_merged_of enContent langContent key :
  key ∈ Object_keys enContent → key ≠ proto_key →
  has (VObject (merged_of enContent langContent)) key = true
  ∧ kept enContent (VObject (merged_of enContent langContent)) key
    = kept enContent langContent key
  ∧ still_english enContent (VObject (merged_of enContent langContent)) key
    = still_english enContent langContent key.
Proof.
  intros Hin Hne.
  assert (has (VObject (merged_of enContent langContent)) key = true) as Hhas.
  { unfold has, hasOwn. rewrite (own_merged_of _ _ _ Hin Hne).
    by rewrite bool_decide_eq_true. }
  assert (get (VObject (merged_of enContent langContent)) key
          = kept enContent langContent key) as Hget.
  { unfold get. by rewrite (own_merged_of _ _ _ Hin Hne). }
  split; [done|]. unfold kept at 1, still_english at 1. rewrite Hhas, Hget.
  split; [done|]. unfold kept, still_english.
  destruct (has langContent key); [done|]. apply strict_eq_source_get.
Qed.

Lemma merged_of_again enContent langContent :
  merged_of enContent (VObject (merged_of enContent langContent))
  = merged_of enContent langContent.
Proof.
  unfold merged_of at 1 3. apply list_fmap_ext. intros i key Hi.
  apply list_elem_of_lookup_2 in Hi.
  rewrite elem_of_foldl_add_key, elem_of_sort, elem_of_nil in Hi.
  destruct Hi as [[]|[Hin Hne]]. unfold entry. f_equal.
  by apply kept_merged_of.
Qed.

(** When [syncLanguage] returns, the file it leaves holds the keys of the
    source other than [__proto__]. *)
Lemma syncLanguage_keys fl fs lang enContent :
  coercible (candidate fs lang) = true →
  ∃ o st,
    syncLanguage fl fs lang enContent = Returns (<[lang := ParsesTo (VObject o)]> fs, st)
    ∧ ∀ key, key ∈ Object_keys o ↔ key ∈ Object_keys enContent ∧ key ≠ proto_key.
Proof.
  intros Hc. eexists _, _. split; [by apply syncLanguage_coercible|].
  apply merged_of_keys.
Qed.

(** A key of the source other than [__proto__] that the candidate lacks is
    written with the value of the source, and is among the missing and the
    untranslated keys. *)
Lemma syncLanguage_backfills fl fs lang enContent key text :
  coercible (candidate fs lang) = true →
  own enContent key = Some text → key ≠ proto_key →
  has (candidate fs lang) key = false →
  ∃ o st,
    syncLanguage fl fs lang enContent = Returns (<[lang := ParsesTo (VObject o)]> fs, st)
    ∧ own o key = Some (VString text)
    ∧ key ∈ filter (λ k, has (candidate fs lang) k = false) (sort (Object_keys enContent))
    ∧ key ∈ filter (λ k, still_english enContent (candidate fs lang) k = true)
              (sort (Object_keys enContent)).
Proof.
  intros Hc Hown Hne Hhas. eexists _, _. split; [by apply syncLanguage_coercible|].
  assert (key ∈ Object_keys enContent) as Hin.
  { clear -Hown. induction enContent as [|[k v] o IH]; [done|]. cbn in *.
    destruct (decide (k = key)) as [->|]; [by left|]. right. by apply IH. }
  split; [|split].
  - rewrite (own_merged_of _ _ _ Hin Hne). unfold kept, source_get.
    by rewrite Hhas, Hown.
  - apply list_elem_of_filter. split; [done|]. by apply elem_of_sort.
  - apply list_elem_of_filter. split; [|by apply elem_of_sort].
    unfold still_english. by rewrite Hhas.
Qed.

(** C1. The merged mapping does not always have the key set of the source.
    With the source [{"__proto__": "x"}] and no [de.json], the synchronizer
    returns and writes the empty object: the key [__proto__] of the source
    is not a key of the merged mapping. With the source
    [{"greeting": "Hello"}] and a [de.json] that holds [null], it throws and
    there is no merged mapping at all. *)
Theorem merged_keys_differ_from_source (fl : Q → Q) :
  (∃ st, syncLanguage fl ∅ de [(proto_key, str "x")]
         = Returns ({[ de := ParsesTo (VObject []) ]}, st)
         ∧ Object_keys (@nil (jsstring * value)) ≠ Object_keys [(proto_key, str "x")])
  ∧ (∃ e, syncLanguage fl {[ de := ParsesTo VNull ]} de [(str "greeting", str "Hello")]
          = Throws e).
Proof.
  split.
  - exists (stats_of fl [(proto_key, str "x")] (VObject [])).
    split; [|done]. by rewrite syncLanguage_coercible.
  - eexists. reflexivity.
Qed.

(** C2. The synchronizer is not total. When [de.json] holds [null] and the
    source has a key, [Object.hasOwn(null, key)] throws a [TypeError] that
    nothing catches. *)
Theorem syncLanguage_throws_on_null (fl : Q → Q) :
  syncLanguage fl {[ de := ParsesTo VNull ]} de [(str "greeting", str "Hello")]
  = Throws (TypeError (str "Cannot convert undefined or null to object")).
Proof. reflexivity. Qed.

(** Every other candidate is synchronized: the only way to fail is a
    candidate that parses to [null] under a source that has a key. *)
Lemma syncLanguage_returns_iff fl fs lang enContent :
  (∃ r, syncLanguage fl fs lang enContent = Returns r)
  ↔ fs !! lang ≠ Some (ParsesTo VNull) ∧ fs !! lang ≠ Some (ParsesTo VUndefined)
    ∨ enContent = [].
Proof.
  split.
  - intros [r Hr]. destruct enContent as [|kv o]; [by right|left].
    destruct (coercible (candidate fs lang)) eqn:Hc.
    + unfold candidate in Hc. split; intros Heq; by rewrite Heq in Hc.
    + destruct (syncLanguage_not_coercible fl fs lang (kv :: o) Hc) as [e He]; [done|].
      by rewrite He in Hr.
  - intros [[Hnull Hundef]| ->].
    + eexists. apply syncLanguage_coercible. unfold candidate.
      destruct (fs !! lang) as [[[]|]|]; done.
    + eexists. apply syncLanguage_no_keys.
Qed.

(** A candidate that is not an object is not always treated as the empty
    mapping either: an array has a [length] of its own. *)
Lemma syncLanguage_array_length (fl : Q → Q) :
  ∃ st, syncLanguage fl {[ de := ParsesTo (VArray []) ]} de [(length_key, str "Length")]
        = Returns ({[ de := ParsesTo (VObject [(length_key, VNumber 0)]) ]}, st)
        ∧ missing st = 0%Z.
Proof.
  exists (stats_of fl [(length_key, str "Length")] (VArray [])).
  split; [|reflexivity].
  rewrite syncLanguage_coercible by done. do 2 f_equal.
Qed.

(** C3. A key of the source that the candidate lacks is not always written
    with the value of the source. With the source [{"__proto__": "x"}] and
    no [de.json], the key [__proto__] is in the source and not in the
    candidate, it is counted as missing and as untranslated, and the merged
    mapping has no value for it. *)
Theorem backfill_skips_proto (fl : Q → Q) :
  ∃ o st,
    syncLanguage fl ∅ de [(proto_key, str "x")]
    = Returns ({[ de := ParsesTo (VObject o) ]}, st)
    ∧ own [(proto_key, str "x")] proto_key = Some (str "x")
    ∧ hasOwn (candidate ∅ de) proto_key = Returns false
    ∧ own o proto_key = None
    ∧ missing st = 1%Z
    ∧ untranslated st = 1%Z.
Proof.
  exists [], (stats_of fl [(proto_key, str "x")] (VObject [])).
  split; [|done]. by rewrite syncLanguage_coercible.
Qed.

(** C5, as the code has it. When the source has no key [__proto__], a
    second run on the file a first run wrote returns too, writes the same
    file, and reports the same [translated], [untranslated] and
    [completion]; its [missing] is 0, whatever the first run counted. *)
Theorem sync_twice (fl : Q → Q) (fs : filesystem) (lang : jsstring) (enContent : source)
    (fs1 : filesystem) (st1 : stats) :
  proto_key ∉ Object_keys enContent →
  syncLanguage fl fs lang enContent = Returns (fs1, st1) →
  ∃ st2,
    syncLanguage fl fs1 lang enContent = Returns (fs1, st2)
    ∧ translated st2 = translated st1
    ∧ untranslated st2 = untranslated st1
    ∧ completion st2 = completion st1
    ∧ missing st2 = 0%Z.
Proof.
  intros Hproto Hrun.
  destruct (coercible (candidate fs lang)) eqn:Hc; cycle 1.
  { destruct enContent as [|kv o].
    - rewrite syncLanguage_no_keys in Hrun. injection Hrun as <- <-.
      eexists. rewrite syncLanguage_no_keys, insert_insert_eq. done.
    - destruct (syncLanguage_not_coercible fl fs lang (kv :: o) Hc) as [e He]; [done|].
      by rewrite He in Hrun. }
  rewrite syncLanguage_coercible in Hrun by done. injection Hrun as <- <-.
  set (c := candidate fs lang) in *.
  set (fs1 := <[lang := ParsesTo (VObject (merged_of enContent c))]> fs).
  assert (candidate fs1 lang = VObject (merged_of enContent c)) as Hc1.
  { unfold candidate, fs1. by rewrite lookup_insert_eq. }
  assert (∀ key, key ∈ sort (Object_keys enContent) →
            key ∈ Object_keys enContent ∧ key ≠ proto_key) as Hkeys.
  { intros key Hin. rewrite elem_of_sort in Hin. split; [done|].
    intros ->. by apply Hproto. }
  assert (filter (λ key, still_english enContent (VObject (merged_of enContent c)) key = true)
            (sort (Object_keys enContent))
          = filter (λ key, still_english enContent c key = true)
              (sort (Object_keys enContent))) as Huntranslated.
  { apply filter_ext_elem. intros key [Hin Hne]%Hkeys.
    destruct (kept_merged_of enContent c key Hin Hne) as (_ & _ & ->). done. }
  assert (filter (λ key, has (VObject (merged_of enContent c)) key = false)
            (sort (Object_keys enContent)) = []) as Hmissing.
  { apply filter_none. intros key [Hin Hne]%Hkeys.
    destruct (kept_merged_of enContent c key Hin Hne) as (-> & _). done. }
  exists (stats_of fl enContent (VObject (merged_of enContent c))). split.
  - rewrite syncLanguage_coercible by by rewrite Hc1.
    rewrite Hc1, merged_of_again. unfold fs1. by rewrite insert_insert_eq.
  - unfold stats_of. cbv zeta. cbn [translated untranslated missing completion].
    by rewrite Huntranslated, Hmissing.
Qed.

Lemma sync_twice_witness :
  let enContent : source := [(str "greeting", str "Hello"); (str "farewell", str "Goodbye")] in
  let fs : filesystem :=
    {[ de := ParsesTo (VObject [(str "greeting", VString (str "Hallo"))]) ]} in
  let fs1 : filesystem :=
    {[ de := ParsesTo (VObject [(str "farewell", VString (str "Goodbye"));
                                (str "greeting", VString (str "Hallo"))]) ]} in
  let st1 := stats_of (λ x, x) enContent (candidate fs de) in
  ∃ st2,
    syncLanguage (λ x, x) fs1 de enContent = Returns (fs1, st2)
    ∧ translated st2 = translated st1
    ∧ untranslated st2 = untranslated st1
    ∧ completion st2 = completion st1
    ∧ missing st2 = 0%Z.
Proof.
  intros enContent fs fs1 st1.
  apply (sync_twice (λ x, x) fs de enContent fs1 st1).
  - apply (bool_decide_unpack _). vm_compute. exact I.
  - vm_compute. reflexivity.
Defined.

(** C5, as the specification states it, fails whatever the rounding: with
    the source [{"greeting": "Hello"}] and no [de.json], the first run
    counts one missing key and the second run none. *)
Lemma sync_twice_missing_differs :
  ¬ ∃ fl : Q → Q,
      ∀ (fs : filesystem) (lang : jsstring) (enContent : source) fs1 st1 fs2 st2,
        syncLanguage fl fs lang enContent = Returns (fs1, st1) →
        syncLanguage fl fs1 lang enContent = Returns (fs2, st2) →
        fs2 = fs1
        ∧ translated st2 = translated st1
        ∧ untranslated st2 = untranslated st1
        ∧ missing st2 = missing st1
        ∧ completion st2 = completion st1.
Proof.
  intros [fl Hclaim].
  pose (enContent := [(str "greeting", str "Hello")] : source).
  pose (fs1 := {[ de := ParsesTo (VObject [(str "greeting", VString (str "Hello"))]) ]}
               : filesystem).
  destruct (Hclaim ∅ de enContent
              fs1 (stats_of fl enContent (VObject []))
              fs1 (stats_of fl enContent
                     (VObject [(str "greeting", VString (str "Hello"))])))
    as (_ & _ & _ & Hmissing & _).
  - by rewrite syncLanguage_coercible.
  - by rewrite syncLanguage_coercible.
  - vm_compute in Hmissing. discriminate.
Qed.

(** ** The completion statistic *)

Local Open Scope Q_scope.

Lemma exact_rounds_to_double : rounds_to_double (λ x, x).
Proof.
  intros x _. pose proof (Qabs_nonneg x) as Hx.
  apply Qabs_Qle_condition. unfold half_ulp. lra.
Qed.

Lemma rounds_nonneg fl x :
  rounds_to_double fl → x == 0 ∨ range_low <= x <= range_high →
  x - half_ulp * x <= fl x <= x + half_ulp * x.
Proof.
  intros Hfl Hx. specialize (Hfl x).
  unfold range_low, range_high, half_ulp in *.
  assert (0 <= x) as H0 by (destruct Hx as [Hx|Hx]; lra).
  rewrite (Qabs_pos x H0) in Hfl.
  specialize (Hfl Hx). apply Qabs_Qle_condition in Hfl. lra.
Qed.

Lemma inject_Z_le (x y : Z) : (x <= y)%Z → inject_Z x <= inject_Z y.
Proof. by rewrite <- Zle_Qle. Qed.

Lemma inject_Z_lt (x y : Z) : (x < y)%Z → inject_Z x < inject_Z y.
Proof. by rewrite <- Zlt_Qlt. Qed.

Lemma inject_Z_pos_ge_1 (u : Z) : 0 < inject_Z u → 1 <= inject_Z u.
Proof.
  intros H. change 0 with (inject_Z 0) in H. rewrite <- Zlt_Qlt in H.
  change 1 with (inject_Z 1). rewrite <- Zle_Qle. lia.
Qed.

(** The two roundings before [Math.round] cannot carry [t / n * 1000] across
    the middle of two integers: with [n] below 2^40 that quotient is either
    on such a middle or at least [1 / (2 * n)] away from it, which is more
    than the roundings move it. *)
Lemma round_nearest fl (t n : Z) :
  rounds_to_double fl → (0 <= t <= n)%Z → (0 < n < 2 ^ 40)%Z →
  Qabs (inject_Z (Math_round (fl (fl (inject_Z t / inject_Z n) * 1000))) / 10
        - inject_Z t / inject_Z n * 100) <= 1 # 20.
Proof.
  intros Hfl Ht Hn.
  set (T := inject_Z t). set (N := inject_Z n).
  assert (0 <= T) as HT0 by (change 0 with (inject_Z 0); apply inject_Z_le; lia).
  assert (T <= N) as HTN by (apply inject_Z_le; lia).
  assert (0 < N) as HN0 by (change 0 with (inject_Z 0); apply inject_Z_lt; lia).
  assert (N <= 1099511627775) as HNmax.
  { change 1099511627775 with (inject_Z 1099511627775). apply inject_Z_le; lia. }
  set (A := T / N).
  assert (A * N == T) as HAN by (unfold A; field; lra).
  assert (0 <= A <= 1) as HA.
  { split.
    - apply Qle_shift_div_l; lra.
    - apply Qle_shift_div_r; lra. }
  assert (t = 0%Z → A == 0) as HA0.
  { intros ->. unfold A, T. change (inject_Z 0) with 0. field. lra. }
  assert (t ≠ 0%Z → (1 # 1099511627776) <= A) as HAlow.
  { intros Hne.
    assert (1 <= T) as HT1 by (change 1 with (inject_Z 1); apply inject_Z_le; lia).
    apply Qle_shift_div_l; [done|]. lra. }
  assert (A == 0 ∨ range_low <= A <= range_high) as HArange.
  { destruct (Z.eq_dec t 0%Z) as [Hz|Hne]; [left; by apply HA0|right].
    specialize (HAlow Hne). unfold range_low, range_high. lra. }
  pose proof (rounds_nonneg fl A Hfl HArange) as Hq.
  set (q := fl A) in *.
  assert (q * 1000 == 0 ∨ range_low <= q * 1000 <= range_high) as HBrange.
  { unfold range_low, range_high, half_ulp in *.
    destruct (Z.eq_dec t 0%Z) as [Hz|Hne].
    - left. specialize (HA0 Hz). lra.
    - right. specialize (HAlow Hne). lra. }
  pose proof (rounds_nonneg fl (q * 1000) Hfl HBrange) as Hp.
  set (p := fl (q * 1000)) in *.
  unfold Math_round.
  pose proof (Qfloor_le (p + (1 # 2))) as Hk1.
  pose proof (Qlt_floor (p + (1 # 2))) as Hk2.
  set (k := Qfloor (p + (1 # 2))) in *. rewrite inject_Z_plus in Hk2.
  change (inject_Z 1) with 1 in Hk2.
  set (K := inject_Z k) in *.
  unfold half_ulp in *.
  assert (inject_Z (2 * k * n - 2000 * t - n) == 2 * K * N - 2000 * T - N) as Hu1.
  { unfold Z.sub. rewrite !inject_Z_plus, !inject_Z_opp, !inject_Z_mult.
    fold K T N. change (inject_Z 2) with 2. change (inject_Z 2000) with 2000. ring. }
  assert (inject_Z (2000 * t - 2 * k * n - n) == 2000 * T - 2 * K * N - N) as Hu2.
  { unfold Z.sub. rewrite !inject_Z_plus, !inject_Z_opp, !inject_Z_mult.
    fold K T N. change (inject_Z 2) with 2. change (inject_Z 2000) with 2000. ring. }
  assert (0 <= ((4001 # 9007199254740992) - (K - 1000 * A - (1 # 2))) * N) as Hup.
  { apply Qmult_le_0_compat; lra. }
  assert (0 <= ((4001 # 9007199254740992) + (K - 1000 * A + (1 # 2))) * N) as Hlow.
  { apply Qmult_le_0_compat; lra. }
  assert (K * N - 1000 * T <= N * (1 # 2)) as Hhi.
  { destruct (Qlt_le_dec 0 (2 * K * N - 2000 * T - N)) as [Hpos|Hle]; [|lra].
    rewrite <- Hu1 in Hpos. apply inject_Z_pos_ge_1 in Hpos. rewrite Hu1 in Hpos. lra. }
  assert (1000 * T - K * N <= N * (1 # 2)) as Hlo.
  { destruct (Qlt_le_dec 0 (2000 * T - 2 * K * N - N)) as [Hpos|Hle]; [|lra].
    rewrite <- Hu2 in Hpos. apply inject_Z_pos_ge_1 in Hpos. rewrite Hu2 in Hpos. lra. }
  apply Qabs_Qle_condition.
  assert (K / 10 - A * 100 == (K * N - 1000 * T) / (10 * N)) as ->.
  { rewrite <- HAN. field. lra. }
  split.
  - apply Qle_shift_div_l; lra.
  - apply Qle_shift_div_r; lra.
Qed.

Lemma syncLanguage_stats fl fs lang enContent fs' st :
  syncLanguage fl fs lang enContent = Returns (fs', st) →
  st = stats_of fl enContent (candidate fs lang).
Proof.
  intros Hrun. destruct (coercible (candidate fs lang)) eqn:Hc.
  - rewrite syncLanguage_coercible in Hrun by done. by injection Hrun as _ <-.
  - destruct enContent as [|kv o].
    + rewrite syncLanguage_no_keys in Hrun. by injection Hrun as _ <-.
    + destruct (syncLanguage_not_coercible fl fs lang (kv :: o) Hc) as [e He]; [done|].
      by rewrite He in Hrun.
Qed.

(** C4. When the rounding of the arithmetic is that of doubles and the
    source has fewer than 2^40 keys, the completion a run returns is 100
    for a source without keys, and otherwise the double nearest to a number
    of tenths that is within half a tenth of [translated / total * 100]. *)
Theorem completion_rounded (fl : Q → Q) (fs : filesystem) (lang : jsstring)
    (enContent : source) (fs' : filesystem) (st : stats) :
  rounds_to_double fl →
  (Z.of_nat (length enContent) < 2 ^ 40)%Z →
  syncLanguage fl fs lang enContent = Returns (fs', st) →
  (enContent = [] → completion st = 100)
  ∧ (enContent ≠ [] →
     ∃ tenths : Z,
       completion st = fl (inject_Z tenths / 10)
       ∧ Qabs (inject_Z tenths / 10
               - inject_Z (translated st) / inject_Z (Z.of_nat (length enContent)) * 100)
         <= 1 # 20).
Proof.
  intros Hfl Hsize Hrun. apply syncLanguage_stats in Hrun as ->.
  split; [by intros ->|]. intros Hne.
  unfold stats_of. cbv zeta. cbn [completion translated].
  rewrite length_sort. unfold Object_keys. rewrite length_fmap.
  set (n := Z.of_nat (length enContent)) in *.
  set (u := filter _ _).
  assert (0 < n)%Z as Hn by (unfold n; destruct enContent; [done|cbn; lia]).
  assert (Z.of_nat (length u) <= n)%Z as Hu.
  { unfold u, n. rewrite <- (length_fmap fst enContent), <- (length_sort (enContent.*1)).
    apply inj_le, length_filter. }
  unfold completion_of. rewrite (proj2 (Z.ltb_lt 0 n) Hn).
  eexists. split; [reflexivity|].
  apply round_nearest; [done|lia|lia].
Qed.

Lemma completion_rounded_witness :
  let enContent : source := [(str "greeting", str "Hello"); (str "farewell", str "Goodbye")] in
  let fs : filesystem :=
    {[ de := ParsesTo (VObject [(str "greeting", VString (str "Hallo"))]) ]} in
  let st := stats_of (λ x, x) enContent (candidate fs de) in
  (enContent = [] → completion st = 100)
  ∧ (enContent ≠ [] →
     ∃ tenths : Z,
       completion st = inject_Z tenths / 10
       ∧ Qabs (inject_Z tenths / 10
               - inject_Z (translated st) / inject_Z (Z.of_nat (length enContent)) * 100)
         <= 1 # 20).
Proof.
  intros enContent fs st.
  apply (completion_rounded (λ x, x) fs de enContent
           (<[de := ParsesTo (VObject (merged_of enContent (candidate fs de)))]> fs) st).
  - exact exact_rounds_to_double.
  - vm_compute. reflexivity.
  - apply syncLanguage_coercible. vm_compute. reflexivity.
Defined.

(** On the doubles themselves, for every source of up to 400 keys: the
    completion is the double of the nearest number of tenths. For 201 keys
    of 400 the exact percentage, 50.25, is a tie; a tie of [Math.round] goes
    up, but the product the script rounds is just below 502.5 and the result
    is 50.2. *)
Example completion_double_nearest :
  forallb (λ n, forallb (λ t, nearest_tenths (Z.of_nat t) (Z.of_nat (S n))) (seq 0 (S (S n))))
    (seq 0 400) = true.
Proof. vm_compute. reflexivity. Qed.

Example completion_double_tie :
  completion_double 201 400 = PrimFloat.div (double_of_count 502) (double_of_count 10)
  ∧ completion_of (λ x, x) 201 400 == 503 # 10.
Proof. split; vm_compute; reflexivity. Qed.

Local Close Scope Q_scope.

(** ** The placeholders of a string *)

Lemma match_here_chars_Some ic w s n :
  match_here ic false ((λ c, One (Chr c)) <$> w) s = Some n →
  n = length w ∧ ∃ found after,
    s = found ++ after ∧ Forall2 (λ x c, atom_matches ic (Chr x) c = true) w found.
Proof.
  revert s n. induction w as [|x w IH]; intros s n.
  - cbn. intros [= <-]. split; [done|]. exists [], s. split; [done|constructor].
  - rewrite fmap_cons. cbn [match_here].
    destruct s as [|c s]; [done|]. destruct (atom_matches ic (Chr x) c) eqn:Hc; [|done].
    destruct (match_here ic false _ s) as [m|] eqn:Hm; [|done].
    cbn. intros [= <-]. destruct (IH s m Hm) as (-> & found & after & -> & Hall).
    split; [done|]. exists (c :: found), after. split; [done|]. by constructor.
Qed.

(** What a repetition that matches has taken: [j] code units the atom
    matches, at least [min], before what the rest of the pattern matches. *)
Lemma many_Some ic a rest s min max n :
  many ic a rest s min max = Some n →
  ∃ j r, n = (j + r)%nat ∧ (min ≤ j ≤ length s)%nat
         ∧ Forall (λ c, atom_matches ic a c = true) (take j s)
         ∧ rest (drop j s) = Some r.
Proof.
  revert min max n. induction s as [|c s IH]; intros min max n.
  - cbn. destruct min; [|done]. intros Hn. exists O, n.
    split; [done|]. split; [done|]. split; [constructor|done].
  - cbn [many].
    assert (match min with O => rest (c :: s) | S _ => None end = Some n →
            ∃ j r, n = (j + r)%nat ∧ (min ≤ j ≤ length (c :: s))%nat
                   ∧ Forall (λ c, atom_matches ic a c = true) (take j (c :: s))
                   ∧ rest (drop j (c :: s)) = Some r) as Hstop.
    { destruct min; [|done]. intros Hn. exists O, n.
      split; [done|]. split; [cbn; lia|]. split; [constructor|done]. }
    destruct (atom_matches ic a c) eqn:Hc; [|done].
    destruct (negb (bool_decide (max = Some O))); [|done]. cbn [andb].
    destruct (many ic a rest s (pred min) (pred <$> max)) as [m|] eqn:Hm; [|done].
    intros [= <-]. destruct (IH _ _ _ Hm) as (j & r & -> & Hj & Hall & Hr).
    exists (S j), r. split; [done|]. split; [cbn; lia|]. split; [|done].
    cbn. by constructor.
Qed.

(** A repetition without a bound takes all of a run of code units the atom
    matches, when the rest of the pattern matches right after the run and
    the atom does not match there. *)
Lemma many_run ic a rest run after min r :
  Forall (λ c, atom_matches ic a c = true) run →
  (min ≤ length run)%nat →
  match after with [] => True | c :: _ => atom_matches ic a c = false end →
  rest after = Some r →
  many ic a rest (run ++ after) min None = Some (length run + r)%nat.
Proof.
  intros Hall. revert min. induction Hall as [|c run Hc Hall IH]; intros min Hmin Hafter Hr.
  - cbn [app length]. assert (min = O) as -> by (cbn in Hmin; lia).
    destruct after as [|c after]; cbn [many]; [done|]. by rewrite Hafter.
  - cbn [app many length]. rewrite Hc. cbn [andb negb bool_decide decide_rel].
    rewrite bool_decide_eq_false_2 by done. cbn [negb fmap option_fmap option_map].
    rewrite IH; [done|cbn in Hmin; lia|done|done].
Qed.

Lemma match_all_elem re skip s p :
  p ∈ match_all re skip s →
  ∃ before after n, s = before ++ after ∧ matches_here re after = Some n ∧ p = take n after.
Proof.
  revert skip. induction s as [|c s IH]; intros skip.
  - destruct skip; cbn; [|by intros ?%elem_of_nil].
    destruct (matches_here re []) as [n|] eqn:Hn; [|by intros ?%elem_of_nil].
    intros ->%list_elem_of_singleton. by exists [], [], n.
  - destruct skip as [|skip]; cbn [match_all].
    + destruct (matches_here re (c :: s)) as [n|] eqn:Hn.
      * intros [->|Hp]%elem_of_cons; [by exists [], (c :: s), n|].
        destruct (IH _ Hp) as (before & after & m & -> & Hm & ->).
        by exists (c :: before), after, m.
      * intros Hp. destruct (IH _ Hp) as (before & after & m & -> & Hm & ->).
        by exists (c :: before), after, m.
    + intros Hp. destruct (IH _ Hp) as (before & after & m & -> & Hm & ->).
      by exists (c :: before), after, m.
Qed.

Lemma match_all_skipped re skip s :
  matches_here re [] = None → (length s ≤ skip)%nat → match_all re skip s = [].
Proof.
  intros Hend. revert skip. induction s as [|c s IH]; intros skip Hskip.
  - destruct skip; [|done]. cbn. by rewrite Hend.
  - destruct skip as [|skip]; [cbn in Hskip; lia|]. cbn. apply IH. cbn in Hskip. lia.
Qed.

Lemma not_closing_brace c : atom_matches false (Cls [(125, 125)] true) c = true ↔ c ≠ 125.
Proof.
  unfold atom_matches, in_ranges. cbn. rewrite orb_false_r.
  destruct (N.leb_spec 125 c), (N.leb_spec c 125); cbn; split; try done; lia.
Qed.

Lemma placeholder_matches t n :
  matches_here placeholder t = Some n →
  placeholder_text (take n t) ∧ (n ≤ length t)%nat.
Proof.
  unfold matches_here, placeholder. cbn [ignoreCase at_end tokens unanchored].
  change (lit "{{" ++ [Many (Cls [(125, 125)] true) 1 None] ++ lit "}}")
    with (One (Chr 123) :: One (Chr 123) :: Many (Cls [(125, 125)] true) 1 None
          :: ((λ c, One (Chr c)) <$> str "}}")).
  cbn [match_here].
  destruct t as [|c1 t]; [done|]. destruct (atom_matches false (Chr 123) c1) eqn:H1; [|done].
  destruct t as [|c2 t]; [done|]. destruct (atom_matches false (Chr 123) c2) eqn:H2; [|done].
  unfold atom_matches in H1, H2. apply N.eqb_eq in H1 as <-, H2 as <-.
  destruct (many false _ _ t 1 None) as [m|] eqn:Hm; [|done].
  cbn. intros [= <-].
  apply many_Some in Hm as (j & r & -> & Hj & Hall & Hr).
  apply match_here_chars_Some in Hr as (-> & found & after & Hdrop & Hfound).
  assert (found = str "}}") as ->.
  { change (str "}}") with [125; 125] in *.
    inversion Hfound as [|? c3 ? l3 Hc3 Hrest]; subst.
    inversion Hrest as [|? c4 ? l4 Hc4 Hrest']; subst. inversion Hrest'; subst.
    unfold atom_matches in Hc3, Hc4. apply N.eqb_eq in Hc3 as <-, Hc4 as <-. done. }
  assert (t = take j t ++ str "}}" ++ after) as Ht.
  { rewrite <- Hdrop. by rewrite take_drop. }
  assert (length (take j t) = j) as Hlen by (rewrite length_take; lia).
  split.
  - exists (take j t). split; [|split].
    + cbn [take]. do 2 f_equal. rewrite Ht at 1.
      rewrite <- Hlen at 1. change (length (str "}}")) with 2%nat.
      rewrite take_app_add', take_app_length'; done.
    + intros Hnil. rewrite Hnil in Hlen. cbn in Hlen. lia.
    + intros Hin. rewrite Forall_forall in Hall. specialize (Hall _ Hin).
      by apply not_closing_brace in Hall.
  - pose proof (f_equal length Ht) as Hl. rewrite !length_app, Hlen in Hl.
    change (length (str "}}")) with 2%nat in *. cbn [length]. lia.
Qed.

Lemma placeholder_text_braces p :
  placeholder_text p
  ↔ ∃ body, p = 123 :: 123 :: body ++ [125; 125] ∧ body ≠ [] ∧ 125 ∉ body.
Proof. reflexivity. Qed.

(** A placeholder at the start of a string is matched there, whole. *)
Lemma placeholder_starts p after :
  placeholder_text p → matches_here placeholder (p ++ after) = Some (length p).
Proof.
  intros Hp. destruct (proj1 (placeholder_text_braces p) Hp) as (body & -> & Hbody & Hbrace).
  unfold matches_here, placeholder. cbn [ignoreCase at_end tokens unanchored].
  change (lit "{{" ++ [Many (Cls [(125, 125)] true) 1 None] ++ lit "}}")
    with (One (Chr 123) :: One (Chr 123) :: Many (Cls [(125, 125)] true) 1 None
          :: ((λ c, One (Chr c)) <$> [125; 125])).
  cbn [app match_here atom_matches]. rewrite N.eqb_refl. cbn [fmap option_fmap option_map].
  rewrite <- app_assoc.
  rewrite (many_run _ _ _ body ([125; 125] ++ after) 1 2).
  - cbn [length]. by rewrite length_app.
  - apply Forall_forall. intros c Hc. apply not_closing_brace. by intros ->.
  - destruct body; [done|cbn; lia].
  - done.
  - done.
Qed.

(** A match of the pattern is a placeholder, and the string goes on after
    it. *)
Lemma placeholder_match_split s n :
  matches_here placeholder s = Some n →
  ∃ body rest,
    s = 123 :: 123 :: body ++ 125 :: 125 :: rest ∧ body ≠ [] ∧ (125 ∉ body)
    ∧ take n s = 123 :: 123 :: body ++ [125; 125] ∧ drop n s = rest
    ∧ (0 < n ≤ length s)%nat.
Proof.
  intros Hm. destruct (placeholder_matches _ _ Hm) as [Htext Hn].
  destruct (proj1 (placeholder_text_braces _) Htext) as (body & Htake & Hbody & Hbrace).
  exists body, (drop n s). split; [|split; [done|split; [done|split; [done|split; [done|]]]]].
  - rewrite <- (take_drop n s) at 1. rewrite Htake. cbn. by rewrite <- app_assoc.
  - split; [|done]. destruct n; [|lia]. by rewrite take_0 in Htake.
Qed.

Lemma match_all_skip re k s :
  (k ≤ length s)%nat → match_all re k s = match_all re 0 (drop k s).
Proof.
  revert k. induction s as [|c s IH]; intros k Hk.
  - cbn in Hk. by assert (k = O) as -> by lia.
  - destruct k as [|k]; [done|]. cbn [match_all drop]. apply IH. cbn in Hk. lia.
Qed.

Lemma match_all_None re c s :
  matches_here re (c :: s) = None → match_all re 0 (c :: s) = match_all re 0 s.
Proof. intros Hm. cbn [match_all]. by rewrite Hm. Qed.

Lemma match_all_Some re s n :
  matches_here re s = Some n → (0 < n ≤ length s)%nat →
  match_all re 0 s = take n s :: match_all re 0 (drop n s).
Proof.
  intros Hm Hn. destruct s as [|c s]; [cbn in Hn; lia|].
  cbn [match_all]. rewrite Hm. destruct n as [|n]; [lia|].
  cbn [pred drop]. rewrite match_all_skip; [done|]. cbn in Hn. lia.
Qed.

Lemma first_unique {A} (x : A) l1 r1 l2 r2 :
  l1 ++ x :: r1 = l2 ++ x :: r2 → x ∉ l1 → x ∉ l2 → l1 = l2 ∧ r1 = r2.
Proof.
  revert l2. induction l1 as [|a l1 IH]; intros [|b l2]; cbn; intros Heq H1 H2.
  - by injection Heq.
  - injection Heq as -> _. destruct H2. by left.
  - injection Heq as -> _. destruct H1. by left.
  - injection Heq as -> Heq. rewrite not_elem_of_cons in H1, H2.
    destruct (IH l2 Heq) as [-> ->]; naive_solver.
Qed.

(** Every placeholder text found in a string is the end of a match: the
    match found there, or one that began before it and has taken it in. *)
Lemma match_all_covers n :
  ∀ s, (length s ≤ n)%nat →
  ∀ before p after, s = before ++ p ++ after → placeholder_text p →
  ∃ b0 pre, before = b0 ++ pre ∧ pre ++ p ∈ match_all placeholder 0 s.
Proof.
  induction n as [|n IH]; intros s Hlen before p after Hs Hp.
  { destruct (proj1 (placeholder_text_braces p) Hp) as (bp & -> & _). subst s.
    rewrite !length_app in Hlen. cbn in Hlen. lia. }
  destruct (matches_here placeholder s) as [k|] eqn:Hm.
  - destruct (placeholder_match_split _ _ Hm)
      as (body & rest & Hshape & Hbody & Hbrace & Htake & Hdrop & Hk).
    rewrite (match_all_Some _ _ _ Hm Hk), Htake, Hdrop.
    destruct (proj1 (placeholder_text_braces p) Hp) as (bp & Hpeq & Hbp & Hbpbrace).
    assert ((123 :: 123 :: body) ++ 125 :: 125 :: rest = before ++ p ++ after) as Heq
      by by rewrite <- Hs, Hshape.
    apply app_eq_inv in Heq as [(k' & Hl & Hr)|(k' & Hl & Hr)].
    + assert (125 ∉ k') as Hk'.
      { intros Hin. assert (125 ∈ 123 :: 123 :: body) as Hin'
          by (rewrite Hl, elem_of_app; by right).
        rewrite !elem_of_cons in Hin'. naive_solver. }
      assert (k' = 123 :: 123 :: bp) as ->.
      { rewrite Hpeq in Hr.
        change ((123 :: 123 :: bp ++ [125; 125]) ++ after)
          with (((123 :: 123 :: bp) ++ [125; 125]) ++ after) in Hr.
        rewrite <- app_assoc in Hr. cbn [app] in Hr.
        change (123 :: 123 :: bp ++ 125 :: 125 :: after)
          with ((123 :: 123 :: bp) ++ 125 :: 125 :: after) in Hr.
        symmetry. apply (first_unique 125 _ _ _ _ Hr); [|done].
        rewrite !not_elem_of_cons. naive_solver. }
      exists [], before. split; [done|]. apply elem_of_cons. left.
      change (123 :: 123 :: body ++ [125; 125]) with ((123 :: 123 :: body) ++ [125; 125]).
      rewrite Hl, Hpeq, <- app_assoc. done.
    + destruct k' as [|x [|y k'']].
      * cbn in Hr. by rewrite Hpeq in Hr.
      * cbn in Hr. rewrite Hpeq in Hr. by injection Hr.
      * cbn in Hr. injection Hr as <- <- Hrest.
        destruct (IH rest) with (before := k'') (p := p) (after := after)
          as (b0 & pre & Hb & Hin); [|done|done|].
        { rewrite Hshape in Hlen. cbn in Hlen. rewrite length_app in Hlen.
          cbn in Hlen. lia. }
        exists ((123 :: 123 :: body) ++ 125 :: 125 :: b0), pre. split.
        -- rewrite Hl, Hb, <- app_assoc. done.
        -- apply elem_of_cons. by right.
  - destruct before as [|c before'].
    + cbn in Hs. subst s. by rewrite (placeholder_starts p after Hp) in Hm.
    + subst s. cbn [app] in *. rewrite (match_all_None _ _ _ Hm).
      destruct (IH (before' ++ p ++ after)) with (before := before') (p := p) (after := after)
        as (b0 & pre & Hb & Hin); [cbn in Hlen; lia|done|done|].
      exists (c :: b0), pre. split; [by rewrite Hb|done].
Qed.

(** Every match is a placeholder of the string. *)
Lemma match_all_occurs n :
  ∀ s, (length s ≤ n)%nat →
  ∀ p, p ∈ match_all placeholder 0 s → occurs_placeholder p s.
Proof.
  induction n as [|n IH]; intros s Hlen p Hin.
  { destruct s; [|cbn in Hlen; lia]. by apply elem_of_nil in Hin. }
  destruct s as [|c s']; [by apply elem_of_nil in Hin|].
  destruct (matches_here placeholder (c :: s')) as [k|] eqn:Hm.
  - destruct (placeholder_match_split _ _ Hm)
      as (body & rest & Hshape & Hbody & Hbrace & Htake & Hdrop & Hk).
    rewrite (match_all_Some _ _ _ Hm Hk), Htake, Hdrop in Hin.
    assert (placeholder_text (123 :: 123 :: body ++ [125; 125])) as Hmatch
      by (apply placeholder_text_braces; by exists body).
    apply elem_of_cons in Hin as [->|Hin].
    + exists [], rest. split; [|split; [done|]].
      * rewrite Hshape. cbn. by rewrite <- app_assoc.
      * intros b0 pre Hb Hpre. symmetry in Hb. by apply app_nil in Hb as [_ ->].
    + destruct (IH rest) with (p := p) as (before' & after & Hrest & Hp & Hmax); [|done|].
      { rewrite Hshape in Hlen. cbn in Hlen. rewrite length_app in Hlen.
        cbn in Hlen. lia. }
      exists ((123 :: 123 :: body ++ [125; 125]) ++ before'), after.
      split; [|split; [done|]].
      * rewrite Hshape, Hrest. cbn. by rewrite <- !app_assoc.
      * intros b0 pre Hb Hpre Htext.
        apply app_eq_inv in Hb as [(k' & Hm1 & Hpre1)|(k' & Hb0 & Hbefore')];
          [|by apply (Hmax k' pre)].
        destruct k' as [|x k'].
        { cbn in Hpre1. subst pre. by apply (Hmax [] before'). }
        assert (125 ∈ x :: k') as Hin125.
        { assert (last (b0 ++ x :: k') = Some 125) as Hlast.
          { rewrite <- Hm1.
            change (123 :: 123 :: body ++ [125; 125])
              with ((123 :: 123 :: body) ++ [125; 125]).
            by rewrite last_app. }
          rewrite last_app_cons in Hlast. by apply last_Some_elem_of. }
        destruct (proj1 (placeholder_text_braces p) Hp) as (bp & Hpeq & _).
        destruct (proj1 (placeholder_text_braces _) Htext) as (b & Hb & _ & Hbbrace).
        rewrite Hpre1, Hpeq in Hb.
        assert (((x :: k') ++ before' ++ 123 :: 123 :: bp) ++ [125; 125]
                = (123 :: 123 :: b) ++ [125; 125]) as Hb'.
        { etrans; [|exact Hb]. by rewrite <- !app_assoc. }
        apply app_inv_tail in Hb'.
        assert (125 ∈ 123 :: 123 :: b) as Hin'
          by (rewrite <- Hb', elem_of_app; by left).
        rewrite !elem_of_cons in Hin'. naive_solver.
  - rewrite (match_all_None _ _ _ Hm) in Hin.
    destruct (IH s') with (p := p) as (before' & after & Hs' & Hp & Hmax);
      [cbn in Hlen; lia|done|].
    exists (c :: before'), after. split; [by rewrite Hs'|split; [done|]].
    intros b0 pre Hb Hpre Htext. destruct b0 as [|c' b0].
    + cbn in Hb. subst pre.
      assert (c :: s' = ((c :: before') ++ p) ++ after) as Heq
        by (rewrite Hs', <- app_assoc; done).
      rewrite Heq, (placeholder_starts _ after Htext) in Hm. done.
    + injection Hb as _ Hb. by apply (Hmax b0 pre).
Qed.

(** What [extractPlaceholders] returns are the placeholders of the
    string, every one of them. *)
Lemma extractPlaceholders_occurs p s :
  p ∈ extractPlaceholders s ↔ occurs_placeholder p s.
Proof.
  unfold extractPlaceholders. rewrite elem_of_sort. split.
  - by apply (match_all_occurs (length s)).
  - intros (before & after & Hs & Hp & Hmax).
    destruct (match_all_covers (length s) s (le_n _) before p after Hs Hp)
      as (b0 & pre & Hb & Hin).
    destruct pre as [|x pre]; [done|]. destruct (Hmax b0 (x :: pre) Hb); [done|].
    apply match_all_elem in Hin as (before' & after' & n & _ & Hn & ->).
    by apply placeholder_matches in Hn as [Htext _].
Qed.

(** A placeholder text found anywhere in a string is the end of one of
    its placeholders, and a placeholder of a string is found in it. *)
Lemma placeholder_text_extracted s p :
  placeholder_text p → (∃ before after, s = before ++ p ++ after) →
  ∃ pre, pre ++ p ∈ extractPlaceholders s.
Proof.
  intros Hp (before & after & Hs).
  destruct (match_all_covers (length s) s (le_n _) before p after Hs Hp)
    as (b0 & pre & _ & Hin).
  exists pre. unfold extractPlaceholders. by rewrite elem_of_sort.
Qed.

Lemma extracted_found s q :
  q ∈ extractPlaceholders s → ∃ before after, s = before ++ q ++ after.
Proof.
  unfold extractPlaceholders. rewrite elem_of_sort.
  intros (before & rest & n & -> & _ & ->)%match_all_elem.
  exists before, (drop n rest). by rewrite take_drop.
Qed.

(** ** Properties of the validator *)

Lemma appends_id : appends (λ r, r).
Proof. intros r. by rewrite app_nil_r. Qed.

Lemma appends_push_error m : appends (λ r, push_error r m).
Proof. by intros r. Qed.

Lemma appends_push_warning m : appends (λ r, push_warning r m).
Proof. intros r. cbn. by rewrite app_nil_r. Qed.

Lemma appends_if (b : bool) f g : appends f → appends g → appends (λ r, if b then f r else g r).
Proof. by destruct b. Qed.

Lemma appends_compose f g : appends f → appends g → appends (λ r, g (f r)).
Proof.
  intros Hf Hg r. rewrite Hg, Hf, (Hg (f empty_report)). by rewrite app_assoc.
Qed.

Lemma errors_compose f g r :
  appends f → appends g →
  errors (g (f r)) = errors r ++ errors (f empty_report) ++ errors (g empty_report).
Proof. intros Hf Hg. rewrite Hg, Hf. by rewrite app_assoc. Qed.

Lemma errors_foldl {A} (f : report → A → report) (l : list A) r :
  (∀ x, appends (λ r, f r x)) →
  errors (foldl f r l) = errors r ++ flat_map (λ x, errors (f empty_report x)) l.
Proof.
  intros Hf. revert r. induction l as [|x l IH]; intros r; cbn.
  - by rewrite app_nil_r.
  - rewrite IH, (Hf x r). by rewrite app_assoc.
Qed.

Lemma appends_foldl {A} (f : report → A → report) (l : list A) :
  (∀ x, appends (λ r, f r x)) → appends (λ r, foldl f r l).
Proof.
  intros Hf r. rewrite !errors_foldl by done. done.
Qed.

Lemma errors_check_blocked key value r :
  errors (check_blocked key value r) = errors r ++ blocked_errors key value.
Proof.
  unfold check_blocked. rewrite errors_foldl.
  - f_equal. unfold blocked_errors. apply flat_map_ext. intros [re l]. cbn.
    by destruct (test re value).
  - intros pat. apply appends_if; [apply appends_push_error|apply appends_id].
Qed.

Lemma errors_check_placeholders key enValue value r :
  errors (check_placeholders key enValue value r)
  = errors r ++ placeholder_errors key enValue value.
Proof.
  unfold check_placeholders, placeholder_errors.
  fold (missing_placeholders enValue value). fold (extra_placeholders enValue value).
  destruct (missing_placeholders enValue value), (extra_placeholders enValue value);
    cbn; by rewrite <- ?app_assoc, ?app_nil_r.
Qed.

Lemma errors_check_length key enValue value r :
  errors (check_length key enValue value r) = errors r ++ length_errors key value.
Proof.
  unfold check_length, length_errors.
  destruct (MAX_LENGTH <? length value)%nat; [done|].
  destruct (_ && _); cbn; by rewrite app_nil_r.
Qed.

Lemma errors_if_push_error (b : bool) m r :
  errors (if b then push_error r m else r) = errors r ++ (if b then [m] else []).
Proof. destruct b; [done|]. by rewrite app_nil_r. Qed.

Lemma errors_if_push_warning (b : bool) m r :
  errors (if b then push_warning r m else r) = errors r.
Proof. by destruct b. Qed.

Lemma errors_check_entry enContent entry r :
  errors (check_entry enContent r entry) = errors r ++ entry_errors enContent entry.
Proof.
  unfold check_entry, entry_errors. destruct (own enContent entry.1) as [enValue|].
  - destruct entry.2 as [| | | |value| |]; try done.
    rewrite errors_check_length, errors_check_placeholders, errors_if_push_error,
      errors_check_blocked, errors_if_push_warning.
    unfold control_errors. by rewrite <- !app_assoc.
  - by rewrite app_nil_r.
Qed.

Lemma appends_check_entry enContent entry : appends (λ r, check_entry enContent r entry).
Proof. intros r. by rewrite !errors_check_entry. Qed.

Lemma errors_foldl_unless (has : jsstring → bool) (mk : jsstring → message) keys r :
  errors (foldl (λ r key, if has key then r else push_error r (mk key)) r keys)
  = errors r ++ (mk <$> filter (λ key, has key = false) keys).
Proof.
  revert r. induction keys as [|key keys IH]; intros r; cbn [foldl].
  - by rewrite filter_nil, app_nil_r.
  - rewrite IH, filter_cons. destruct (has key).
    + by rewrite decide_False.
    + rewrite decide_True by done. cbn. by rewrite <- app_assoc.
Qed.

(** The errors of a file that is not reserved and parses to an object. *)
Lemma errors_validate_object file enContent content :
  basename file ≠ en_json → basename file ≠ report_json →
  text file = ParsesTo (VObject content) →
  errors (validate file enContent)
  = name_errors (basename file)
    ++ (MissingKey <$> missing_keys enContent content)
    ++ (UnknownKey <$> unknown_keys enContent content)
    ++ flat_map (entry_errors enContent) content.
Proof.
  intros Hen Hreport Htext. unfold validate.
  rewrite decide_False, decide_False, Htext by done.
  rewrite errors_foldl by apply appends_check_entry.
  rewrite !errors_foldl_unless.
  rewrite <- !app_assoc. f_equal.
  - unfold name_errors. by destruct (test _ _).
  - do 2 f_equal. apply flat_map_ext. intros entry.
    by rewrite errors_check_entry.
Qed.

Lemma occurrences_app m l1 l2 :
  occurrences m (l1 ++ l2) = (occurrences m l1 + occurrences m l2)%nat.
Proof. unfold occurrences. by rewrite filter_app, length_app. Qed.

Lemma occurrences_none m l : m ∉ l → occurrences m l = 0%nat.
Proof.
  intros Hm. unfold occurrences. rewrite filter_none; [done|].
  intros x Hx ->. by apply Hm.
Qed.

Lemma occurrences_NoDup m l : NoDup l → m ∈ l → occurrences m l = 1%nat.
Proof.
  unfold occurrences. induction 1 as [|x l Hx Hl IH]; intros Hm.
  - by apply elem_of_nil in Hm.
  - rewrite filter_cons. apply elem_of_cons in Hm as [->|Hm].
    + rewrite decide_True by done. cbn. f_equal.
      by apply (occurrences_none x l).
    + rewrite decide_False; [by apply IH|]. intros ->. by apply Hx.
Qed.

Lemma elem_of_new_Set l x : x ∈ new_Set l ↔ x ∈ l.
Proof.
  induction l as [|y l IH]; cbn; [done|].
  rewrite !elem_of_cons, list_elem_of_filter, IH.
  destruct (decide (x = y)); naive_solver.
Qed.

Lemma NoDup_new_Set l : NoDup (new_Set l).
Proof.
  induction l as [|y l IH]; cbn; [constructor|].
  constructor.
  - rewrite list_elem_of_filter. naive_solver.
  - by apply NoDup_filter.
Qed.

Lemma Set_has_false l x : Set_has (new_Set l) x = false ↔ x ∉ l.
Proof.
  unfold Set_has. rewrite bool_decide_eq_false. by rewrite elem_of_new_Set.
Qed.

Lemma elem_of_missing_keys enContent content key :
  key ∈ missing_keys enContent content
  ↔ key ∈ Object_keys enContent ∧ key ∉ Object_keys content.
Proof.
  unfold missing_keys. rewrite list_elem_of_filter, Set_has_false, elem_of_new_Set.
  naive_solver.
Qed.

Lemma elem_of_unknown_keys enContent content key :
  key ∈ unknown_keys enContent content
  ↔ key ∈ Object_keys content ∧ key ∉ Object_keys enContent.
Proof.
  unfold unknown_keys. rewrite list_elem_of_filter, Set_has_false, elem_of_new_Set.
  naive_solver.
Qed.

Lemma elem_of_flat_map {A B} (f : A → list B) (l : list A) (y : B) :
  y ∈ flat_map f l ↔ ∃ x, x ∈ l ∧ y ∈ f x.
Proof.
  induction l as [|x l IH]; cbn.
  - rewrite elem_of_nil. split; [done|]. by intros (? & ?%elem_of_nil & _).
  - rewrite elem_of_app, IH. setoid_rewrite elem_of_cons. naive_solver.
Qed.

#[local] Instance MissingKey_inj : Inj (=) (=) MissingKey.
Proof. by intros ?? [=]. Qed.

#[local] Instance UnknownKey_inj : Inj (=) (=) UnknownKey.
Proof. by intros ?? [=]. Qed.

Lemma entry_errors_key enContent entry m :
  m ∈ entry_errors enContent entry → entry_key m = Some entry.1.
Proof.
  unfold entry_errors. destruct (own enContent entry.1) as [enValue|];
    [|by intros ?%elem_of_nil].
  destruct entry.2 as [| | | |value| |];
    try (intros ->%list_elem_of_singleton; done).
  unfold placeholder_errors. rewrite !elem_of_app. intros [H|[H|[[H|H]|H]]].
  - unfold blocked_errors in H. apply elem_of_flat_map in H as (pat & _ & H).
    destruct (test pat.1 value); [|by apply elem_of_nil in H].
    by apply list_elem_of_singleton in H as ->.
  - unfold control_errors in H. destruct (hasControlChars value);
      [|by apply elem_of_nil in H].
    by apply list_elem_of_singleton in H as ->.
  - destruct (missing_placeholders enValue value); [by apply elem_of_nil in H|].
    by apply list_elem_of_singleton in H as ->.
  - destruct (extra_placeholders enValue value); [by apply elem_of_nil in H|].
    by apply list_elem_of_singleton in H as ->.
  - unfold length_errors in H. destruct (MAX_LENGTH <? length value)%nat;
      [|by apply elem_of_nil in H].
    by apply list_elem_of_singleton in H as ->.
Qed.

Lemma not_entry_error enContent content m :
  entry_key m = None → m ∉ flat_map (entry_errors enContent) content.
Proof.
  intros Hm (entry & _ & H)%elem_of_flat_map.
  apply entry_errors_key in H. congruence.
Qed.

Lemma not_name_error label m : (∀ l, m ≠ BadFileName l) → m ∉ name_errors label.
Proof.
  intros Hm. unfold name_errors. destruct (test _ _); [apply not_elem_of_nil|].
  rewrite list_elem_of_singleton. apply Hm.
Qed.

Lemma names_join sep l p : p ∈ l → ∃ before after, join sep l = before ++ p ++ after.
Proof.
  induction l as [|x l IH]; intros Hp; [by apply elem_of_nil in Hp|].
  apply elem_of_cons in Hp as [->|Hp].
  - destruct l as [|y l].
    + exists [], []. cbn. by rewrite app_nil_r.
    + exists [], (sep ++ join sep (y :: l)). done.
  - destruct (IH Hp) as (before & after & Heq). destruct l as [|y l].
    + by apply elem_of_nil in Hp.
    + exists (x ++ sep ++ before), after.
      change (join sep (x :: y :: l)) with (x ++ sep ++ join sep (y :: l)).
      rewrite Heq. by rewrite <- !app_assoc.
Qed.

Lemma names_MissingKey key : names (MissingKey key) key.
Proof.
  exists (str "Missing key: " ++ [34]), [34]. unfold render, quoted.
  by rewrite <- !app_assoc.
Qed.

Lemma names_UnknownKey key : names (UnknownKey key) key.
Proof.
  exists (str "Unknown key not in en.json: " ++ [34]), [34]. unfold render, quoted.
  by rewrite <- !app_assoc.
Qed.

(** C9. A file named [en.json] or [report.json] gets one error and no
    warning, whatever the file and the source hold: nothing else is
    looked at. *)
Theorem reserved_names_stop (t : file_text) (enContent : source) :
  validate {| basename := en_json; text := t |} enContent
  = {| errors := [SourceSubmitted]; warnings := [] |}
  ∧ validate {| basename := report_json; text := t |} enContent
    = {| errors := [ReportSubmitted]; warnings := [] |}.
Proof. split; reflexivity. Qed.

(** C8. For a file that is not reserved and parses to an object, each key
    of the source that the object lacks gets exactly one [Missing key]
    error, each key of the object that the source lacks exactly one
    [Unknown key] error, and the text of the error contains the key. *)
Theorem key_sets_compared (file : submitted_file) (enContent : source) (content : object) :
  basename file ≠ en_json → basename file ≠ report_json →
  text file = ParsesTo (VObject content) →
  (∀ key, key ∈ Object_keys enContent → key ∉ Object_keys content →
     occurrences (MissingKey key) (errors (validate file enContent)) = 1%nat
     ∧ names (MissingKey key) key)
  ∧ (∀ key, key ∈ Object_keys content → key ∉ Object_keys enContent →
       occurrences (UnknownKey key) (errors (validate file enContent)) = 1%nat
       ∧ names (UnknownKey key) key).
Proof.
  intros Hen Hreport Htext.
  rewrite (errors_validate_object _ _ _ Hen Hreport Htext).
  split; intros key Hin Hout;
    (split; [|first [apply names_MissingKey | apply names_UnknownKey]]).
  - rewrite !occurrences_app.
    rewrite (occurrences_none _ (name_errors _)) by by apply not_name_error.
    rewrite (occurrences_none _ (UnknownKey <$> _))
      by (intros (? & ? & _)%list_elem_of_fmap; done).
    rewrite (occurrences_none _ (flat_map _ _)) by by apply not_entry_error.
    rewrite occurrences_NoDup; [done| |].
    + apply (NoDup_fmap_2 _), NoDup_filter, NoDup_new_Set.
    + apply list_elem_of_fmap_2. by apply elem_of_missing_keys.
  - rewrite !occurrences_app.
    rewrite (occurrences_none _ (name_errors _)) by by apply not_name_error.
    rewrite (occurrences_none _ (MissingKey <$> _))
      by (intros (? & ? & _)%list_elem_of_fmap; done).
    rewrite (occurrences_none _ (flat_map _ _)) by by apply not_entry_error.
    rewrite occurrences_NoDup; [done| |].
    + apply (NoDup_fmap_2 _), NoDup_filter, NoDup_new_Set.
    + apply list_elem_of_fmap_2. by apply elem_of_unknown_keys.
Qed.

Lemma own_elem_of {V} (o : list (jsstring * V)) key :
  key ∈ Object_keys o → is_Some (own o key).
Proof.
  unfold Object_keys. induction o as [|[k v] o IH]; cbn.
  - by intros ?%elem_of_nil.
  - destruct (decide (k = key)); [by eexists|].
    rewrite elem_of_cons. naive_solver.
Qed.

Lemma own_is_Some {V} (o : list (jsstring * V)) key :
  is_Some (own o key) ↔ key ∈ Object_keys o.
Proof.
  split; [|apply own_elem_of].
  unfold Object_keys. induction o as [|[k v] o IH]; cbn.
  - by intros [? ?].
  - destruct (decide (k = key)) as [->|]; [by left|]. right. by apply IH.
Qed.

(** The loop over the entries asks [enKeys.has(key)] and then reads
    [enContent[key]]; the embedding reads the own property and passes over
    the key when there is none, which is the same test. *)
Lemma enKeys_has (enContent : source) key :
  Set_has (new_Set (Object_keys enContent)) key = bool_decide (is_Some (own enContent key)).
Proof.
  unfold Set_has. apply bool_decide_ext. by rewrite elem_of_new_Set, own_is_Some.
Qed.

(** Two code units have the same canonical form when they are equal or the
    two cases of one ASCII letter. *)
Lemma canonicalize_eq c c' :
  canonicalize c = canonicalize c'
  ↔ c = c' ∨ (97 <= c <= 122 ∧ c' = c - 32) ∨ (97 <= c' <= 122 ∧ c = c' - 32).
Proof.
  unfold canonicalize.
  destruct (N.leb_spec 97 c), (N.leb_spec c 122), (N.leb_spec 97 c'), (N.leb_spec c' 122);
    cbn [andb]; lia.
Qed.

(** The errors of the value of a key that the source has too are errors of
    the file. *)
Lemma entry_errors_reported file enContent content entry m :
  basename file ≠ en_json → basename file ≠ report_json →
  text file = ParsesTo (VObject content) →
  entry ∈ content → m ∈ entry_errors enContent entry →
  m ∈ errors (validate file enContent).
Proof.
  intros Hen Hreport Htext Hentry Hm.
  rewrite (errors_validate_object _ _ _ Hen Hreport Htext).
  rewrite !elem_of_app. do 3 right. apply elem_of_flat_map. eauto.
Qed.

Lemma string_entry_errors enContent key enValue value :
  own enContent key = Some enValue →
  entry_errors enContent (key, VString value)
  = blocked_errors key value ++ control_errors key value
    ++ placeholder_errors key enValue value ++ length_errors key value.
Proof. intros Hown. unfold entry_errors. cbn. by rewrite Hown. Qed.

(** A pattern that is one character class is found when one code unit of
    the string is in the class. *)
Lemma test_one_atom a s c :
  c ∈ s → atom_matches false a c = true → test (unanchored [One a] false) s = true.
Proof.
  intros Hc Ha. unfold test. cbn [at_start unanchored].
  induction s as [|x s IH]; [by apply elem_of_nil in Hc|].
  cbn [search]. apply elem_of_cons in Hc as [<-|Hc].
  - unfold matches_here. cbn. by rewrite Ha.
  - rewrite (IH Hc). apply orb_true_r.
Qed.

Lemma control_chars_class c :
  control_character c → c ≠ 9 → c ≠ 10 → c ≠ 13 →
  atom_matches false (Cls [(0, 8); (11, 11); (12, 12); (14, 31); (127, 127)] false) c = true.
Proof.
  intros Hc H9 H10 H13. unfold atom_matches, in_ranges, existsb. cbn [fst snd xorb].
  rewrite !orb_true_iff, !andb_true_iff, !N.leb_le. unfold control_character in Hc. lia.
Qed.

(** C7, as the code has it. For a file that is not reserved and parses to
    an object, a key of the source whose value in the file is a string with
    a control character of ASCII, below U+0020 or U+007F, other than tab,
    line feed and carriage return, gets the error [Contains non-printable
    control characters]. *)
Theorem control_characters_refused (file : submitted_file) (enContent : source)
    (content : object) (key value : jsstring) (c : N) :
  basename file ≠ en_json → basename file ≠ report_json →
  text file = ParsesTo (VObject content) →
  key ∈ Object_keys enContent → (key, VString value) ∈ content →
  c ∈ value → control_character c → c ≠ 9 → c ≠ 10 → c ≠ 13 →
  ControlChars key ∈ errors (validate file enContent).
Proof.
  intros Hen Hreport Htext Hkey Hentry Hc Hcontrol H9 H10 H13.
  destruct (own_elem_of _ _ Hkey) as [enValue Hown].
  apply (entry_errors_reported _ _ _ _ _ Hen Hreport Htext Hentry).
  rewrite (string_entry_errors _ _ _ _ Hown), !elem_of_app. right; left.
  unfold control_errors, hasControlChars, control_chars.
  rewrite (test_one_atom _ _ c Hc) by by apply control_chars_class.
  by left.
Qed.

(** C7, as the specification states it, for any non-printable control
    character, fails: U+0085, the next line control, is one and is none of
    the three allowed, and a value made of it gets no error. *)
Lemma control_characters_beyond_ascii_pass :
  ¬ ∀ (file : submitted_file) (enContent : source) (content : object)
      (key value : jsstring) (c : N),
      basename file ≠ en_json → basename file ≠ report_json →
      text file = ParsesTo (VObject content) →
      key ∈ Object_keys enContent → (key, VString value) ∈ content →
      c ∈ value → unicode_control_character c → c ≠ 9 → c ≠ 10 → c ≠ 13 →
      ControlChars key ∈ errors (validate file enContent).
Proof.
  intros Hclaim.
  pose (content := [(str "greeting", VString [133])] : object).
  pose (file := {| basename := str "de.json"; text := ParsesTo (VObject content) |}).
  assert (ControlChars (str "greeting")
          ∈ errors (validate file [(str "greeting", str "Hello")])) as Hin.
  { apply (Hclaim file [(str "greeting", str "Hello")] content (str "greeting") [133] 133).
    - by_computation.
    - by_computation.
    - reflexivity.
    - by_computation.
    - left.
    - left.
    - right. unfold N.le. by split.
    - done.
    - done.
    - done. }
  revert Hin. by_computation.
Qed.

Lemma atom_matches_case a c c' :
  canonicalize c = canonicalize c' → atom_matches true a c = atom_matches true a c'.
Proof. intros Hc. unfold atom_matches. by rewrite Hc. Qed.

Lemma many_case a rest s s' min max :
  (∀ t t', case_variant t t' → rest t = rest t') →
  case_variant s s' →
  many true a rest s min max = many true a rest s' min max.
Proof.
  intros Hrest Hs. revert min max.
  induction Hs as [|c c' s s' Hc Hs IH]; intros min max.
  - cbn. destruct min; [|done]. apply Hrest. constructor.
  - cbn [many]. rewrite (atom_matches_case a c c' Hc), IH.
    assert (rest (c :: s) = rest (c' :: s')) as -> by (apply Hrest; by constructor).
    done.
Qed.

Lemma match_here_case at_end toks s s' :
  case_variant s s' → match_here true at_end toks s = match_here true at_end toks s'.
Proof.
  revert s s'. induction toks as [|[a|a min max] toks IH]; intros s s' Hs.
  - cbn. by destruct Hs.
  - cbn. destruct Hs as [|c c' s s' Hc Hs]; [done|].
    by rewrite (atom_matches_case a c c' Hc), (IH s s' Hs).
  - cbn. by apply many_case.
Qed.

Lemma search_case re s s' :
  ignoreCase re = true → case_variant s s' → search re s = search re s'.
Proof.
  intros Hic Hs. induction Hs as [|c c' s s' Hc Hs IH].
  - done.
  - cbn [search]. rewrite IH. unfold matches_here. rewrite Hic.
    by rewrite (match_here_case _ _ (c :: s) (c' :: s')) by by constructor.
Qed.

Lemma test_case re s s' :
  ignoreCase re = true → case_variant s s' → test re s = test re s'.
Proof.
  intros Hic Hs. unfold test. destruct (at_start re).
  - unfold matches_here. rewrite Hic. by rewrite (match_here_case _ _ s s').
  - by apply search_case.
Qed.

(** The detectors written with the [i] flag: all but the last, which looks
    for one character that has no case. *)
Lemma textual_detectors :
  ignoreCase <$> BLOCKED_PATTERNS.*1
  = [true; true; true; true; true; true; true; true; false].
Proof. reflexivity. Qed.

(** C10. The detectors written with the [i] flag do not tell the case of
    ASCII letters: when a string triggers one of them, every string that
    differs from it by case only gets its error when it is the value of a
    key of the source, in a file that is not reserved and parses to an
    object. *)
Theorem blocked_content_ignores_case (file : submitted_file) (enContent : source)
    (content : object) (key value lower : jsstring) (pat : regex * jsstring) :
  basename file ≠ en_json → basename file ≠ report_json →
  text file = ParsesTo (VObject content) →
  key ∈ Object_keys enContent → (key, VString value) ∈ content →
  pat ∈ BLOCKED_PATTERNS → ignoreCase pat.1 = true →
  case_variant lower value → test pat.1 lower = true →
  BlockedContent key pat.2 ∈ errors (validate file enContent).
Proof.
  intros Hen Hreport Htext Hkey Hentry Hpat Hic Hcase Htest.
  destruct (own_elem_of _ _ Hkey) as [enValue Hown].
  apply (entry_errors_reported _ _ _ _ _ Hen Hreport Htext Hentry).
  rewrite (string_entry_errors _ _ _ _ Hown), !elem_of_app. left.
  unfold blocked_errors. apply elem_of_flat_map. exists pat. split; [done|].
  rewrite <- (test_case _ _ _ Hic Hcase), Htest. by left.
Qed.

(** The variants the specification gives as examples are caught. *)
Example upper_case_examples :
  blocked_errors (str "k") (str "<SCRIPT") = [BlockedContent (str "k") (str "script tag")]
  ∧ blocked_errors (str "k") (str "JAVASCRIPT:")
    = [BlockedContent (str "k") (str "javascript: URI")]
  ∧ blocked_errors (str "k") (str "ONCLICK=")
    = [BlockedContent (str "k") (str "inline event handler (onX=)")]
  ∧ blocked_errors (str "k") (str "<IFRAME") = [BlockedContent (str "k") (str "iframe tag")].
Proof. repeat split; vm_compute; reflexivity. Qed.

Lemma elem_of_missing_placeholders enValue value p :
  p ∈ missing_placeholders enValue value
  ↔ p ∈ extractPlaceholders enValue ∧ p ∉ extractPlaceholders value.
Proof.
  unfold missing_placeholders, includes.
  rewrite list_elem_of_filter, bool_decide_eq_false. naive_solver.
Qed.

Lemma elem_of_extra_placeholders enValue value p :
  p ∈ extra_placeholders enValue value
  ↔ p ∈ extractPlaceholders value ∧ p ∉ extractPlaceholders enValue.
Proof.
  unfold extra_placeholders, includes.
  rewrite list_elem_of_filter, bool_decide_eq_false. naive_solver.
Qed.

Lemma names_MissingPlaceholders key missing p :
  p ∈ missing → names (MissingPlaceholders key missing) p.
Proof.
  intros Hp. destruct (names_join (str ", ") _ _ Hp) as (before & after & Heq).
  exists (bracketed key ++ str "Missing template placeholder(s): " ++ before), after.
  unfold render. rewrite Heq. by rewrite <- !app_assoc.
Qed.

Lemma names_ExtraPlaceholders key extra p :
  p ∈ extra → names (ExtraPlaceholders key extra) p.
Proof.
  intros Hp. destruct (names_join (str ", ") _ _ Hp) as (before & after & Heq).
  exists (bracketed key ++ str "Extra template placeholder(s) not in English: " ++ before),
    after.
  unfold render. rewrite Heq. by rewrite <- !app_assoc.
Qed.

Lemma missing_placeholder_error key enValue value p :
  p ∈ missing_placeholders enValue value →
  MissingPlaceholders key (missing_placeholders enValue value)
  ∈ placeholder_errors key enValue value.
Proof.
  intros Hp. unfold placeholder_errors. apply elem_of_app. left.
  destruct (missing_placeholders enValue value); [by apply elem_of_nil in Hp|by left].
Qed.

Lemma extra_placeholder_error key enValue value p :
  p ∈ extra_placeholders enValue value →
  ExtraPlaceholders key (extra_placeholders enValue value)
  ∈ placeholder_errors key enValue value.
Proof.
  intros Hp. unfold placeholder_errors. apply elem_of_app. right.
  destruct (extra_placeholders enValue value); [by apply elem_of_nil in Hp|by left].
Qed.

(** With the same set of placeholders on both sides there is nothing to
    report, in whatever order and however often they occur. *)
Lemma placeholder_errors_same_set key enValue value :
  (∀ p, p ∈ extractPlaceholders enValue ↔ p ∈ extractPlaceholders value) →
  placeholder_errors key enValue value = [].
Proof.
  intros Hsame. unfold placeholder_errors.
  assert (missing_placeholders enValue value = []) as ->.
  { apply filter_none. intros p Hp. unfold includes.
    rewrite bool_decide_eq_false. naive_solver. }
  assert (extra_placeholders enValue value = []) as ->; [|done].
  apply filter_none. intros p Hp. unfold includes.
  rewrite bool_decide_eq_false. naive_solver.
Qed.

Lemma NoDup_keys_entry (o : object) key v v' :
  NoDup (Object_keys o) → (key, v) ∈ o → (key, v') ∈ o → v = v'.
Proof.
  unfold Object_keys. induction o as [|[k w] o IH]; cbn; intros Hnd Hv Hv'.
  - by apply elem_of_nil in Hv.
  - apply NoDup_cons in Hnd as [Hk Hnd].
    assert (∀ u, (k, u) ∈ o → False) as Hfresh.
    { intros u Hu. apply Hk. apply list_elem_of_fmap. by exists (k, u). }
    apply elem_of_cons in Hv as [[= -> ->]|Hv], Hv' as [[= <-]|Hv']; try done.
    + by destruct (Hfresh _ Hv').
    + simplify_eq. by destruct (Hfresh _ Hv).
    + by apply IH.
Qed.

Lemma placeholder_message_origin key enValue value m :
  m ∈ blocked_errors key value ++ control_errors key value
      ++ placeholder_errors key enValue value ++ length_errors key value →
  (∃ l, m = MissingPlaceholders key l ∨ m = ExtraPlaceholders key l) →
  m ∈ placeholder_errors key enValue value.
Proof.
  rewrite !elem_of_app. intros [H|[H|[H|H]]] [l Hm]; [| |done|].
  - unfold blocked_errors in H. apply elem_of_flat_map in H as (pat & _ & H).
    destruct (test pat.1 value); [|by apply elem_of_nil in H].
    apply list_elem_of_singleton in H. naive_solver.
  - unfold control_errors in H. destruct (hasControlChars value);
      [|by apply elem_of_nil in H].
    apply list_elem_of_singleton in H. naive_solver.
  - unfold length_errors in H. destruct (MAX_LENGTH <? length value)%nat;
      [|by apply elem_of_nil in H].
    apply list_elem_of_singleton in H. naive_solver.
Qed.

(** C6. For a file that is not reserved and parses to an object, and a key
    of the source whose value in the file is a string: a placeholder of the
    source value that the value lacks is in the list of a [Missing template
    placeholder(s)] error of the key, whose text contains it; a placeholder
    of the value that the source value lacks is in the list of an [Extra
    template placeholder(s)] error of the key, whose text contains it; and
    when the two values have the same set of placeholders the key gets
    neither error, the keys of an object being distinct. The placeholders
    of a string are the texts [{{...}}] without a closing brace inside that
    are found in it, each taken as far to the left as it goes. A text of
    that form found anywhere in one value, also inside a longer
    placeholder, and nowhere in the other is in the text of such an error
    too. *)
Theorem placeholders_compared (file : submitted_file) (enContent : source)
    (content : object) (key enValue value : jsstring) :
  basename file ≠ en_json → basename file ≠ report_json →
  text file = ParsesTo (VObject content) →
  own enContent key = Some enValue → (key, VString value) ∈ content →
  (∀ p, occurs_placeholder p enValue → ¬ occurs_placeholder p value →
     ∃ missing, MissingPlaceholders key missing ∈ errors (validate file enContent)
                ∧ p ∈ missing ∧ names (MissingPlaceholders key missing) p)
  ∧ (∀ p, occurs_placeholder p value → ¬ occurs_placeholder p enValue →
       ∃ extra, ExtraPlaceholders key extra ∈ errors (validate file enContent)
                ∧ p ∈ extra ∧ names (ExtraPlaceholders key extra) p)
  ∧ (NoDup (Object_keys content) →
     (∀ p, occurs_placeholder p enValue ↔ occurs_placeholder p value) →
     ∀ l, (MissingPlaceholders key l ∉ errors (validate file enContent))
          ∧ (ExtraPlaceholders key l ∉ errors (validate file enContent)))
  ∧ (∀ p, placeholder_text p →
       (∃ before after, enValue = before ++ p ++ after) →
       (¬ ∃ before after, value = before ++ p ++ after) →
       ∃ missing, MissingPlaceholders key missing ∈ errors (validate file enContent)
                  ∧ names (MissingPlaceholders key missing) p)
  ∧ (∀ p, placeholder_text p →
       (∃ before after, value = before ++ p ++ after) →
       (¬ ∃ before after, enValue = before ++ p ++ after) →
       ∃ extra, ExtraPlaceholders key extra ∈ errors (validate file enContent)
                ∧ names (ExtraPlaceholders key extra) p).
Proof.
  intros Hen Hreport Htext Hown Hentry.
  pose proof (entry_errors_reported file enContent content (key, VString value))
    as Hreported.
  specialize (λ m, Hreported m Hen Hreport Htext Hentry).
  rewrite (string_entry_errors _ _ _ _ Hown) in Hreported.
  assert (∀ s s' p, placeholder_text p →
            (∃ before after, s = before ++ p ++ after) →
            (¬ ∃ before after, s' = before ++ p ++ after) →
            ∃ pre, pre ++ p ∈ extractPlaceholders s ∧ pre ++ p ∉ extractPlaceholders s')
    as Hlonger.
  { intros s s' p Hp Hin Hout.
    destruct (placeholder_text_extracted s p Hp Hin) as [pre Hpre].
    exists pre. split; [done|]. intros (before & after & ->)%extracted_found.
    apply Hout. exists (before ++ pre), after. by rewrite <- !app_assoc. }
  assert (∀ m pre p, names m (pre ++ p) → names m p) as Hnames.
  { intros m pre p (before & after & Heq). exists (before ++ pre), after.
    by rewrite Heq, <- !app_assoc. }
  split; [|split; [|split; [|split]]].
  - intros p Hin%extractPlaceholders_occurs Hout.
    rewrite <- extractPlaceholders_occurs in Hout.
    assert (p ∈ missing_placeholders enValue value) as Hp
      by by apply elem_of_missing_placeholders.
    exists (missing_placeholders enValue value). split; [|split].
    + apply Hreported. rewrite !elem_of_app. do 2 right. left.
      by apply (missing_placeholder_error _ _ _ p).
    + done.
    + by apply names_MissingPlaceholders.
  - intros p Hin%extractPlaceholders_occurs Hout.
    rewrite <- extractPlaceholders_occurs in Hout.
    assert (p ∈ extra_placeholders enValue value) as Hp
      by by apply elem_of_extra_placeholders.
    exists (extra_placeholders enValue value). split; [|split].
    + apply Hreported. rewrite !elem_of_app. do 2 right. left.
      by apply (extra_placeholder_error _ _ _ p).
    + done.
    + by apply names_ExtraPlaceholders.
  - intros Hnd Hoccur l.
    assert (∀ p, p ∈ extractPlaceholders enValue ↔ p ∈ extractPlaceholders value) as Hsame.
    { intros p. rewrite !extractPlaceholders_occurs. apply Hoccur. }
    assert (∀ m, (∃ l, m = MissingPlaceholders key l ∨ m = ExtraPlaceholders key l) →
                 m ∉ errors (validate file enContent)) as Hnone.
    { intros m Hm Hin.
      rewrite (errors_validate_object _ _ _ Hen Hreport Htext) in Hin.
      rewrite !elem_of_app in Hin. destruct Hin as [Hin|[Hin|[Hin|Hin]]].
      - revert Hin. apply not_name_error. naive_solver.
      - apply list_elem_of_fmap in Hin. naive_solver.
      - apply list_elem_of_fmap in Hin. naive_solver.
      - apply elem_of_flat_map in Hin as ([k v] & Hkv & Hin).
        assert (k = key) as ->.
        { apply entry_errors_key in Hin. cbn in Hin. naive_solver. }
        assert (v = VString value) as -> by by apply (NoDup_keys_entry content key).
        rewrite (string_entry_errors _ _ _ _ Hown) in Hin.
        apply placeholder_message_origin in Hin; [|done].
        rewrite (placeholder_errors_same_set _ _ _ Hsame) in Hin.
        by apply elem_of_nil in Hin. }
    split; apply Hnone; eauto.
  - intros p Hp Hin Hout. destruct (Hlonger enValue value p Hp Hin Hout) as (pre & Hpre & Hnot).
    assert (pre ++ p ∈ missing_placeholders enValue value) as Hmissing
      by by apply elem_of_missing_placeholders.
    exists (missing_placeholders enValue value). split.
    + apply Hreported. rewrite !elem_of_app. do 2 right. left.
      by apply (missing_placeholder_error _ _ _ (pre ++ p)).
    + apply (Hnames _ pre). by apply names_MissingPlaceholders.
  - intros p Hp Hin Hout. destruct (Hlonger value enValue p Hp Hin Hout) as (pre & Hpre & Hnot).
    assert (pre ++ p ∈ extra_placeholders enValue value) as Hextra
      by by apply elem_of_extra_placeholders.
    exists (extra_placeholders enValue value). split.
    + apply Hreported. rewrite !elem_of_app. do 2 right. left.
      by apply (extra_placeholder_error _ _ _ (pre ++ p)).
    + apply (Hnames _ pre). by apply names_ExtraPlaceholders.
Qed.

(** ** The theorems at a concrete file *)

Lemma key_sets_compared_witness :
  occurrences (MissingKey (str "farewell")) (errors (validate sample_file sample_source))
  = 1%nat
  ∧ names (MissingKey (str "farewell")) (str "farewell").
Proof.
  apply (proj1 (key_sets_compared sample_file sample_source sample_content
                  ltac:(by_computation) ltac:(by_computation) eq_refl)).
  - by_computation.
  - by_computation.
Defined.

Lemma placeholders_compared_witness :
  ∃ missing,
    MissingPlaceholders (str "greeting") missing
    ∈ errors (validate sample_file sample_source)
    ∧ str "{{name}}" ∈ missing
    ∧ names (MissingPlaceholders (str "greeting") missing) (str "{{name}}").
Proof.
  apply (proj1 (placeholders_compared sample_file sample_source sample_content
                  (str "greeting") (str "Hello {{name}}")
                  (str "<SCRIPT>" ++ [7] ++ str "Bonjour")
                  ltac:(by_computation) ltac:(by_computation) eq_refl eq_refl
                  ltac:(left))).
  - apply extractPlaceholders_occurs. by_computation.
  - rewrite <- extractPlaceholders_occurs. by_computation.
Defined.

Lemma control_characters_refused_witness :
  ControlChars (str "greeting") ∈ errors (validate sample_file sample_source).
Proof.
  apply (control_characters_refused sample_file sample_source sample_content
           (str "greeting") (str "<SCRIPT>" ++ [7] ++ str "Bonjour") 7).
  - by_computation.
  - by_computation.
  - reflexivity.
  - by_computation.
  - left.
  - by_computation.
  - left. reflexivity.
  - discriminate.
  - discriminate.
  - discriminate.
Defined.

Lemma blocked_content_ignores_case_witness :
  BlockedContent (str "greeting") (str "script tag")
  ∈ errors (validate sample_file sample_source).
Proof.
  apply (blocked_content_ignores_case sample_file sample_source sample_content
           (str "greeting") (str "<SCRIPT>" ++ [7] ++ str "Bonjour")
           (str "<script>" ++ [7] ++ str "bonjour")
           (unanchored (lit "<script") true, str "script tag")).
  - by_computation.
  - by_computation.
  - reflexivity.
  - by_computation.
  - left.
  - left.
  - reflexivity.
  - repeat constructor.
  - vm_compute. reflexivity.
Defined.

(** ** The examples of the specification *)

Example perfect_candidate_passes :
  validate {| basename := str "fr.json";
              text := ParsesTo (VObject [(str "greeting", VString (str "Bonjour {{name}}"));
                                         (str "farewell", VString (str "Au revoir"))]) |}
    sample_source
  = {| errors := []; warnings := [] |}.
Proof. vm_compute. reflexivity. Qed.

Example missing_and_unknown_keys :
  errors (validate {| basename := str "fr.json";
                      text := ParsesTo (VObject [(str "foo", VString (str "x"));
                                                 (str "farewell", VString (str "Au revoir"))]) |}
            sample_source)
  = [MissingKey (str "greeting"); UnknownKey (str "foo")].
Proof. vm_compute. reflexivity. Qed.

Example script_tags_both_reported :
  errors (validate {| basename := str "fr.json";
                      text := ParsesTo (VObject [(str "k", VString (str "<script>alert(1)</script>"))]) |}
            [(str "k", str "Hello")])
  = [BlockedContent (str "k") (str "script tag");
     BlockedContent (str "k") (str "closing script tag")].
Proof. vm_compute. reflexivity. Qed.

Example dropped_placeholder :
  errors (validate {| basename := str "fr.json";
                      text := ParsesTo (VObject [(str "k", VString (str "Bonjour"))]) |}
            [(str "k", str "Hello {{name}}")])
  = [MissingPlaceholders (str "k") [str "{{name}}"]].
Proof. vm_compute. reflexivity. Qed.

Example length_51_of_5_warns :
  validate {| basename := str "fr.json";
              text := ParsesTo (VObject [(str "k", VString (replicate 51 97))]) |}
    [(str "k", str "Hello")]
  = {| errors := []; warnings := [MuchLonger (str "k") 10] |}.
Proof. vm_compute. reflexivity. Qed.

Example length_2001_is_an_error :
  validate {| basename := str "fr.json";
              text := ParsesTo (VObject [(str "k", VString (replicate 2001 97))]) |}
    [(str "k", replicate 2000 98)]
  = {| errors := [TooLong (str "k") 2001]; warnings := [] |}.
Proof. vm_compute. reflexivity. Qed.

Example messages_as_texts :
  render (MissingKey (str "greeting")) = str "Missing key: " ++ [34] ++ str "greeting" ++ [34]
  ∧ render (TooLong (str "k") 2001)
    = str "[k] Value exceeds hard cap of 2000 characters (got 2001)."
  ∧ render (MissingPlaceholders (str "k") [str "{{a}}"; str "{{b}}"])
    = str "[k] Missing template placeholder(s): {{a}}, {{b}}".
Proof. repeat split; vm_compute; reflexivity. Qed.

Example file_name_checks :
  errors (validate {| basename := str "German.json"; text := NotJSON (str "Unexpected token") |}
            sample_source)
  = [BadFileName (str "German.json"); InvalidJSON (str "Unexpected token")]
  ∧ errors (validate {| basename := str "de.json"; text := ParsesTo (VArray []) |}
              sample_source)
    = [RootNotObject].
Proof. split; vm_compute; reflexivity. Qed.

Example a_first_sync :
  syncLanguage (λ x, x)
    {[ de := ParsesTo (VObject [(str "greeting", VString (str "Hallo"));
                                (str "old", VString (str "alt"))]) ]}
    de [(str "greeting", str "Hello"); (str "farewell", str "Goodbye")]
  = Returns ({[ de := ParsesTo (VObject [(str "farewell", VString (str "Goodbye"));
                                         (str "greeting", VString (str "Hallo"))]) ]},
             {| translated := 1; untranslated := 1; missing := 1;
                completion := completion_of (λ x, x) 1 2 |}).
Proof. vm_compute. reflexivity. Qed.

(** ** More on the patterns *)

Lemma match_here_chars_variant ic w found after :
  Forall2 (λ x c, atom_matches ic (Chr x) c = true) w found →
  match_here ic false ((λ c, One (Chr c)) <$> w) (found ++ after) = Some (length w).
Proof.
  induction 1 as [|x c w found Hc Hall IH]; [done|].
  rewrite fmap_cons. cbn [match_here app]. by rewrite Hc, IH.
Qed.

Lemma search_app re before s :
  search re s = true → search re (before ++ s) = true.
Proof.
  intros Hs. induction before as [|c before IH]; [done|].
  cbn [app search]. rewrite IH. apply orb_true_r.
Qed.

Lemma search_true re s :
  search re s = true → ∃ before after n, s = before ++ after ∧ matches_here re after = Some n.
Proof.
  induction s as [|c s IH]; cbn [search].
  - rewrite orb_false_r. intros [n Hn]%bool_decide_eq_true. by exists [], [], n.
  - intros [[n Hn]%bool_decide_eq_true|Hs]%orb_true_iff.
    + by exists [], (c :: s), n.
    + destruct (IH Hs) as (before & after & n & -> & Hn). by exists (c :: before), after, n.
Qed.

Lemma search_found re before after n :
  matches_here re after = Some n → search re (before ++ after) = true.
Proof.
  intros Hn. apply search_app. destruct after; cbn [search]; rewrite Hn;
    by rewrite bool_decide_eq_true_2.
Qed.

Lemma chars_case_variant w found :
  Forall2 (λ x c, atom_matches true (Chr x) c = true) w found ↔ case_variant w found.
Proof.
  unfold case_variant.
  split; intros H; (eapply Forall2_impl; [exact H|]); intros x c; cbn; by rewrite N.eqb_eq.
Qed.

(** X1. A detector that is a word under the [i] flag, as [/<script/i],
    [/<\/script/i] and [/<iframe/i] are, fires on a string exactly when the
    string contains the word, in whatever case its ASCII letters are. *)
Theorem word_detector_finds_variants (w : string) (s : jsstring) :
  test (unanchored (lit w) true) s = true ↔ contains_variant (str w) s.
Proof.
  unfold test, contains_variant. cbn [at_start unanchored]. split.
  - intros (before & after & n & -> & Hn)%search_true.
    apply match_here_chars_Some in Hn as (_ & found & after' & -> & Hall).
    exists before, found, after'. split; [done|]. by apply chars_case_variant.
  - intros (before & found & after & -> & Hall%chars_case_variant).
    apply (search_found _ _ _ (length (str w))).
    by apply match_here_chars_variant.
Qed.

Lemma many_end_iff a s min max :
  is_Some (many false a (match_here false true []) s min (Some max))
  ↔ (min ≤ length s ≤ max)%nat ∧ Forall (λ c, atom_matches false a c = true) s.
Proof.
  revert min max. induction s as [|c s IH]; intros min max.
  - cbn. destruct min; cbn.
    + split; [intros _; split; [lia|constructor]|by eexists].
    + split; [by intros [? ?]|lia].
  - cbn [many]. 
    assert (match min with O => match_here false true [] (c :: s) | S _ => None end = None)
      as -> by by destruct min.
    destruct (atom_matches false a c) eqn:Hc; cycle 1.
    { cbn. split; [by intros [? ?]|]. intros [_ Hall]. apply Forall_cons in Hall as [Hc' _].
      congruence. }
    destruct max as [|max]; cbn [andb negb bool_decide decide_rel].
    { rewrite bool_decide_eq_true_2 by done. cbn.
      split; [by intros [? ?]|]. cbn. lia. }
    rewrite bool_decide_eq_false_2 by done. cbn [negb fmap option_fmap option_map pred].
    specialize (IH (pred min) max). 
    destruct (many false a _ s (pred min) (Some max)) as [n|].
    + split; [intros _|by eexists]. destruct IH as [IH _].
      destruct IH as [Hlen Hall]; [by eexists|]. split; [cbn; lia|by constructor].
    + split; [by intros [? ?]|]. intros [Hlen Hall]. apply Forall_cons in Hall as [_ Hall].
      destruct IH as [_ IH]. destruct IH as [? ?]; [|done]. split; [cbn in Hlen; lia|done].
Qed.

Lemma lower_letter_class c :
  atom_matches false (Cls [(97, 122)] false) c = true ↔ lower_letter c.
Proof.
  unfold atom_matches, in_ranges, lower_letter. cbn.
  rewrite orb_false_r, andb_true_iff, !N.leb_le. done.
Qed.

Lemma test_language_code (s : jsstring) :
  test language_code s = true ↔ (2 ≤ length s ≤ 5)%nat ∧ Forall lower_letter s.
Proof.
  unfold test, matches_here. cbn [at_start language_code ignoreCase at_end tokens match_here].
  rewrite bool_decide_eq_true, many_end_iff.
  split; intros [Hlen Hall]; (split; [done|]);
    (eapply Forall_impl; [exact Hall|]); intros c; by rewrite lower_letter_class.
Qed.

(** X2. The pattern for the language code, [/^[a-z]{2,5}$/], accepts a
    string exactly when it is made of two to five lower case ASCII
    letters. *)
Theorem language_code_accepts (s : jsstring) :
  test language_code s = true ↔ language_code_shape s.
Proof.
  unfold language_code_shape, test, matches_here.
  cbn [at_start language_code ignoreCase at_end tokens match_here].
  rewrite bool_decide_eq_true, many_end_iff.
  split; intros [Hlen Hall]; (split; [done|]);
    (eapply Forall_impl; [exact Hall|]); intros c; by rewrite lower_letter_class.
Qed.

Lemma str_le_total a b : str_le a b = true ∨ str_le b a = true.
Proof.
  revert b. induction a as [|x a IH]; intros b; [by left|].
  destruct b as [|y b]; [by right|]. cbn.
  destruct (N.lt_trichotomy x y) as [Hlt|[->|Hgt]].
  - left. by rewrite (proj2 (N.ltb_lt _ _) Hlt).
  - rewrite N.ltb_irrefl, N.eqb_refl. cbn. apply IH.
  - right. by rewrite (proj2 (N.ltb_lt _ _) Hgt).
Qed.

#[local] Instance str_le_Total : Total (λ a b, Is_true (str_le a b)).
Proof. intros a b. destruct (str_le_total a b) as [->| ->]; [by left|by right]. Qed.

Lemma sort_sorted l : Sorted (λ a b, Is_true (str_le a b)) (sort l).
Proof. unfold sort. apply Sorted_merge_sort. apply _. Qed.

(** X3. What [extractPlaceholders] returns. Each text it returns is two
    opening braces, one code unit or more none of which is a closing
    brace, and two closing braces, and is found in the string; the texts
    come in ascending order; and a string that is one such text alone
    gives back that text. *)
Theorem extractPlaceholders_shape (s : jsstring) :
  (∀ p, p ∈ extractPlaceholders s →
        placeholder_text p ∧ ∃ before after, s = before ++ p ++ after)
  ∧ Sorted (λ a b, Is_true (str_le a b)) (extractPlaceholders s)
  ∧ (placeholder_text s → extractPlaceholders s = [s]).
Proof.
  split; [|split].
  - intros p Hp. unfold extractPlaceholders in Hp. rewrite elem_of_sort in Hp.
    apply match_all_elem in Hp as (before & after & n & -> & Hn & ->).
    apply placeholder_matches in Hn as [Htext Hlen]. split; [done|].
    exists before, (drop n after). by rewrite take_drop.
  - apply sort_sorted.
  - intros (body & -> & Hbody & Hbrace). unfold extractPlaceholders.
    assert (matches_here placeholder (str "{{" ++ body ++ str "}}")
            = Some (length (str "{{" ++ body ++ str "}}"))) as Hmatch.
    { unfold matches_here, placeholder. cbn [ignoreCase at_end tokens unanchored].
      change (lit "{{" ++ [Many (Cls [(125, 125)] true) 1 None] ++ lit "}}")
        with (One (Chr 123) :: One (Chr 123) :: Many (Cls [(125, 125)] true) 1 None
              :: ((λ c, One (Chr c)) <$> str "}}")).
      change (str "{{" ++ body ++ str "}}") with (123 :: 123 :: (body ++ str "}}")).
      cbn [match_here atom_matches]. rewrite N.eqb_refl. cbn [fmap option_fmap option_map].
      rewrite (many_run _ _ _ body (str "}}") 1 2).
      - cbn [length]. rewrite length_app. done.
      - apply Forall_forall. intros c Hc. apply not_closing_brace. by intros ->.
      - destruct body; [done|cbn; lia].
      - done.
      - done. }
    change (str "{{" ++ body ++ str "}}") with (123 :: 123 :: (body ++ str "}}")) in *.
    cbn [match_all]. rewrite Hmatch. rewrite firstn_all.
    cbn [length pred]. by rewrite match_all_skipped by (done || cbn; lia).
Qed.

(** ** More on the validator *)

Lemma starts_with_app pat s : starts_with pat (pat ++ s) = true.
Proof. induction pat as [|p pat IH]; [done|]. cbn. by rewrite N.eqb_refl, IH. Qed.

Lemma starts_with_prefix pat s :
  starts_with pat s = true → ∃ after, s = pat ++ after.
Proof.
  revert s. induction pat as [|p pat IH]; intros s; [by exists s|].
  destruct s as [|c s]; [done|]. cbn.
  intros [->%N.eqb_eq Hs]%andb_true_iff. destruct (IH s Hs) as [after ->]. by exists after.
Qed.

(** What [replace] does: nothing, or it takes the pattern out of the place
    where it found it. *)
Lemma replace_first_cases pat s :
  replace_first pat [] s = s
  ∨ ∃ before after, s = before ++ pat ++ after ∧ replace_first pat [] s = before ++ after.
Proof.
  induction s as [|c s IH].
  - cbn. destruct (starts_with pat []) eqn:Hp; [|by left].
    destruct pat; [|done]. by left.
  - cbn [replace_first]. destruct (starts_with pat (c :: s)) eqn:Hp.
    + right. destruct (starts_with_prefix _ _ Hp) as [after Hs]. exists [], after.
      split; [done|]. rewrite Hs. by rewrite drop_app_length.
    + destruct IH as [->|(before & after & -> & ->)]; [by left|right].
      by exists (c :: before), after.
Qed.

Lemma starts_with_dot_json c s : c ≠ 46 → starts_with dot_json (c :: s) = false.
Proof.
  intros Hc. change dot_json with (46 :: str "json"). cbn [starts_with].
  assert ((46 =? c) = false) as -> by (apply N.eqb_neq; congruence). done.
Qed.

Lemma replace_first_no_dot s :
  46 ∉ s → replace_first dot_json [] s = s.
Proof.
  induction s as [|c s IH]; intros Hs; [done|].
  apply not_elem_of_cons in Hs as [Hc Hs].
  cbn [replace_first]. rewrite starts_with_dot_json by done. by rewrite IH.
Qed.

Lemma replace_first_after_no_dot before after :
  46 ∉ before →
  replace_first dot_json [] (before ++ dot_json ++ after) = before ++ after.
Proof.
  induction before as [|c before IH]; intros Hb.
  - cbn [app]. change (dot_json ++ after) with (46 :: (str "json" ++ after)) at 1.
    cbn [replace_first]. change (46 :: (str "json" ++ after)) with (dot_json ++ after).
    rewrite starts_with_app. cbn [app]. by rewrite drop_app_length.
  - apply not_elem_of_cons in Hb as [Hc Hb].
    cbn [replace_first app]. rewrite starts_with_dot_json by done. by rewrite IH.
Qed.

Lemma lower_letters_no_dot s : Forall lower_letter s → 46 ∉ s.
Proof.
  intros Hall Hin. rewrite Forall_forall in Hall. specialize (Hall _ Hin).
  unfold lower_letter in Hall. lia.
Qed.

(** The errors of a file that is not reserved start with what the file
    name check gives, and have no other error about the name. *)
Lemma errors_after_name file enContent :
  basename file ≠ en_json → basename file ≠ report_json →
  ∃ rest, errors (validate file enContent) = name_errors (basename file) ++ rest
          ∧ ∀ label, BadFileName label ∉ rest.
Proof.
  intros Hen Hreport. destruct (text file) as [v|reason] eqn:Htext.
  - assert (∀ w, (∀ content, w ≠ VObject content) →
              text file = ParsesTo w →
              errors (validate file enContent) = name_errors (basename file) ++ [RootNotObject])
      as Hroot.
    { intros w Hw Hw'. unfold validate, name_errors.
      rewrite decide_False, decide_False, Hw' by done.
      destruct w; try (by destruct (test _ _)). by destruct (Hw props). }
    destruct v as [| | | | | |content];
      try (exists [RootNotObject]; split; [by refine (Hroot _ _ Htext)|];
           by intros label ?%list_elem_of_singleton).
    eexists. split; [by apply errors_validate_object|].
    intros label. rewrite !elem_of_app. intros [H|[H|H]].
    + apply list_elem_of_fmap in H. naive_solver.
    + apply list_elem_of_fmap in H. naive_solver.
    + revert H. by apply not_entry_error.
  - exists [InvalidJSON reason]. split.
    + unfold validate, name_errors. rewrite decide_False, decide_False, Htext by done.
      by destruct (test _ _).
    + intros label ?%list_elem_of_singleton. done.
Qed.

(** X4. The file name check takes the first [.json] out of the name,
    wherever it stands, and wants a language code to be left. So a name
    passes exactly when it is a language code with [.json] put somewhere
    in it, as [de.json] or [d.jsone] are, or a bare language code. *)
Theorem file_name_accepted (file : submitted_file) (enContent : source) :
  basename file ≠ en_json → basename file ≠ report_json →
  (∀ label, BadFileName label ∉ errors (validate file enContent))
  ↔ (∃ before after, basename file = before ++ dot_json ++ after
                     ∧ language_code_shape (before ++ after))
    ∨ language_code_shape (basename file).
Proof.
  intros Hen Hreport.
  destruct (errors_after_name file enContent Hen Hreport) as (rest & -> & Hrest).
  assert ((∀ label, BadFileName label ∉ name_errors (basename file) ++ rest)
          ↔ language_code_shape (replace_first dot_json [] (basename file))) as ->.
  { unfold language_code_shape. rewrite <- test_language_code.
    unfold name_errors. fold dot_json. destruct (test language_code _).
    - split; [done|]. intros _ label. rewrite elem_of_app, elem_of_nil. naive_solver.
    - split; [|done]. intros Hnone. destruct (Hnone (basename file)).
      rewrite elem_of_app. left. by left. }
  split.
  - intros Hshape. destruct (replace_first_cases dot_json (basename file))
      as [Heq|(before & after & Hname & Heq)]; rewrite Heq in Hshape.
    + by right.
    + left. by exists before, after.
  - intros [(before & after & -> & Hshape)| Hshape].
    + rewrite replace_first_after_no_dot; [done|].
      destruct Hshape as [_ Hall]. apply Forall_app in Hall as [Hb _].
      by apply lower_letters_no_dot.
    + rewrite replace_first_no_dot; [done|].
      destruct Hshape as [_ Hall]. by apply lower_letters_no_dot.
Qed.

Lemma file_name_accepted_witness :
  (∀ label, BadFileName label ∉ errors (validate sample_file sample_source))
  ↔ (∃ before after, basename sample_file = before ++ dot_json ++ after
                     ∧ language_code_shape (before ++ after))
    ∨ language_code_shape (basename sample_file).
Proof.
  apply (file_name_accepted sample_file sample_source); by_computation.
Defined.

Lemma test_one_atom_true a s :
  test (unanchored [One a] false) s = true → ∃ c, c ∈ s ∧ atom_matches false a c = true.
Proof.
  unfold test. cbn [at_start unanchored]. induction s as [|x s IH]; cbn [search].
  - unfold matches_here. by cbn.
  - intros [Hx|Hs]%orb_true_iff.
    + exists x. split; [by left|]. unfold matches_here in Hx. cbn in Hx.
      by destruct (atom_matches false a x).
    + destruct (IH Hs) as (c & Hc & Ha). exists c. split; [by right|done].
Qed.

Lemma control_chars_class_true c :
  atom_matches false (Cls [(0, 8); (11, 11); (12, 12); (14, 31); (127, 127)] false) c = true →
  control_character c ∧ c ≠ 9 ∧ c ≠ 10 ∧ c ≠ 13.
Proof.
  unfold atom_matches, in_ranges, existsb, control_character. cbn [fst snd xorb].
  rewrite !orb_true_iff, !andb_true_iff, !N.leb_le. lia.
Qed.

Lemma typeof_not_string v :
  (∀ s, v ≠ VString s) ↔ match v with VString _ => False | _ => True end.
Proof. destruct v; naive_solver. Qed.

(** Where an error of an entry comes from. *)
Lemma entry_error_cause file enContent content key v m :
  (key, v) ∈ content → m ∈ entry_errors enContent (key, v) →
  error_cause file enContent content m.
Proof.
  intros Hentry. unfold entry_errors. cbn [fst snd].
  destruct (own enContent key) as [enValue|] eqn:Hown; [|by intros ?%elem_of_nil].
  assert (key ∈ Object_keys enContent) as Hkey by (apply own_is_Some; by eexists).
  destruct v as [| | | |value| |];
    try (intros ->%list_elem_of_singleton; cbn; eexists; repeat split; [done..|]; done).
  unfold placeholder_errors. rewrite !elem_of_app. intros [H|[H|[[H|H]|H]]].
  - unfold blocked_errors in H. apply elem_of_flat_map in H as ([re l] & Hpat & H).
    cbn [fst snd] in H. destruct (test re value) eqn:Htest; [|by apply elem_of_nil in H].
    apply list_elem_of_singleton in H as ->. cbn. by exists value, re.
  - unfold control_errors, hasControlChars, control_chars in H.
    destruct (test _ value) eqn:Htest; [|by apply elem_of_nil in H].
    apply list_elem_of_singleton in H as ->.
    apply test_one_atom_true in Htest as (c & Hc & Hclass).
    apply control_chars_class_true in Hclass as (? & ? & ? & ?).
    cbn. by exists value, c.
  - destruct (missing_placeholders enValue value) as [|p l] eqn:Hl;
      [by apply elem_of_nil in H|].
    apply list_elem_of_singleton in H as ->. cbn. exists enValue, value.
    split; [done|]. split; [done|]. split; [done|]. intros q.
    rewrite <- Hl. apply elem_of_missing_placeholders.
  - destruct (extra_placeholders enValue value) as [|p l] eqn:Hl;
      [by apply elem_of_nil in H|].
    apply list_elem_of_singleton in H as ->. cbn. exists enValue, value.
    split; [done|]. split; [done|]. split; [done|]. intros q.
    rewrite <- Hl. apply elem_of_extra_placeholders.
  - unfold length_errors in H.
    destruct (MAX_LENGTH <? length value)%nat eqn:Hlen; [|by apply elem_of_nil in H].
    apply list_elem_of_singleton in H as ->. cbn. exists value.
    split; [done|]. split; [done|]. split; [done|]. by apply Nat.ltb_lt.
Qed.

(** X5. No error without a cause. In a file that is not reserved and
    parses to an object, every error is one of: the file name error, for a
    name that is not a language code once [.json] is taken out; a missing or
    an unknown key error, for a key that one side has and the other lacks;
    or an error about the value of a key of both sides, which says what that
    value is: not a string, matched by the detector named, holding a control
    character, lacking or adding exactly the placeholders listed, or longer
    than the cap. *)
Theorem errors_have_causes (file : submitted_file) (enContent : source) (content : object)
    (m : message) :
  basename file ≠ en_json → basename file ≠ report_json →
  text file = ParsesTo (VObject content) →
  m ∈ errors (validate file enContent) → error_cause file enContent content m.
Proof.
  intros Hen Hreport Htext.
  rewrite (errors_validate_object _ _ _ Hen Hreport Htext), !elem_of_app.
  intros [H|[H|[H|H]]].
  - unfold name_errors in H. fold dot_json in H.
    destruct (test language_code _) eqn:Htest; [by apply elem_of_nil in H|].
    apply list_elem_of_singleton in H as ->. split; [done|].
    unfold language_code_shape. rewrite <- test_language_code. congruence.
  - apply list_elem_of_fmap in H as (key & -> & H). by apply elem_of_missing_keys.
  - apply list_elem_of_fmap in H as (key & -> & H). by apply elem_of_unknown_keys.
  - apply elem_of_flat_map in H as ([key v] & Hentry & H).
    by apply (entry_error_cause file enContent content key v).
Qed.

Lemma errors_have_causes_witness :
  error_cause sample_file sample_source sample_content (UnknownKey (str "extra")).
Proof.
  apply (errors_have_causes sample_file sample_source sample_content).
  - by_computation.
  - by_computation.
  - reflexivity.
  - by_computation.
Defined.

Lemma warnings_foldl_same {A} (f : report → A → report) (l : list A) r :
  (∀ r x, warnings (f r x) = warnings r) → warnings (foldl f r l) = warnings r.
Proof.
  intros Hf. revert r. induction l as [|x l IH]; intros r; [done|].
  cbn. by rewrite IH, Hf.
Qed.

Lemma warnings_check_blocked key value r :
  warnings (check_blocked key value r) = warnings r.
Proof.
  unfold check_blocked. apply warnings_foldl_same. intros r' pat.
  by destruct (test pat.1 value).
Qed.

Lemma warnings_check_placeholders key enValue value r :
  warnings (check_placeholders key enValue value r) = warnings r.
Proof.
  unfold check_placeholders.
  by destruct (filter _ (extractPlaceholders enValue)),
    (filter _ (extractPlaceholders value)).
Qed.

Lemma warnings_check_entry enContent entry r :
  warnings (check_entry enContent r entry) = warnings r ++ entry_warnings enContent entry.
Proof.
  unfold check_entry, entry_warnings. destruct (own enContent entry.1) as [enValue|].
  - destruct entry.2 as [| | | |value| |]; try by rewrite app_nil_r.
    unfold check_length.
    destruct (MAX_LENGTH <? length value)%nat;
      [|destruct ((0 <? length enValue)%nat && _)];
      cbn [warnings push_error push_warning];
      rewrite ?warnings_check_placeholders;
      (destruct (hasControlChars value); cbn [warnings push_error];
       rewrite warnings_check_blocked;
       destruct (trim_is_empty value && negb (trim_is_empty enValue));
       cbn [warnings push_warning]; by rewrite <- ?app_assoc, ?app_nil_r).
  - by rewrite app_nil_r.
Qed.

Lemma warnings_foldl_check_entry enContent content r :
  warnings (foldl (check_entry enContent) r content)
  = warnings r ++ flat_map (entry_warnings enContent) content.
Proof.
  revert r. induction content as [|entry content IH]; intros r; cbn.
  - by rewrite app_nil_r.
  - by rewrite IH, warnings_check_entry, <- app_assoc.
Qed.

(** The warnings of a file: those of its entries when it is not reserved
    and parses to an object, none otherwise. *)
Lemma warnings_validate file enContent :
  warnings (validate file enContent)
  = if decide (basename file = en_json ∨ basename file = report_json) then []
    else match text file with
         | ParsesTo (VObject content) => flat_map (entry_warnings enContent) content
         | _ => []
         end.
Proof.
  unfold validate. destruct (decide (basename file = en_json)) as [Hen|Hen].
  { by rewrite decide_True by by left. }
  destruct (decide (basename file = report_json)) as [Hreport|Hreport].
  { by rewrite decide_True by by right. }
  rewrite decide_False by naive_solver. cbv zeta.
  destruct (text file) as [v|reason]; [|by destruct (test _ _)].
  destruct v; try by destruct (test _ _).
  rewrite warnings_foldl_check_entry.
  rewrite !warnings_foldl_same; [by destruct (test _ _)| |].
  - intros r key. by destruct (Set_has _ key).
  - intros r key. by destruct (Set_has _ key).
Qed.

Lemma trim_is_empty_Forall s :
  trim_is_empty s = true ↔ Forall (λ c, is_space c = true) s.
Proof.
  unfold trim_is_empty. induction s as [|c s IH]; cbn.
  - split; [constructor|done].
  - rewrite andb_true_iff, Forall_cons, IH. done.
Qed.

Lemma ratio_at_least_10 (a b : nat) :
  (0 < b)%nat → (b * 10 < a)%nat →
  (10 <= Math_round (inject_Z (Z.of_nat a) / inject_Z (Z.of_nat b)))%Z.
Proof.
  intros Hb Hab. unfold Math_round.
  change 10%Z with (Qfloor (inject_Z 10)). apply Qfloor_resp_le.
  assert (0 < inject_Z (Z.of_nat b))%Q as Hb'.
  { change 0%Q with (inject_Z 0). apply inject_Z_lt. lia. }
  assert (inject_Z 10 * inject_Z (Z.of_nat b) <= inject_Z (Z.of_nat a))%Q as Hab'.
  { rewrite <- inject_Z_mult. apply inject_Z_le. lia. }
  apply (Qle_shift_div_l _ _ _ Hb') in Hab'.
  apply (Qle_trans _ _ _ Hab'). rewrite <- (Qplus_0_r (_ / _)) at 1.
  apply Qplus_le_r. done.
Qed.

(** X6. No warning without a cause. Every warning of the validator is about
    a key of both sides whose value in the file is a string: that the value
    is blank where the value of the source is not, or that it is within the
    cap and more than ten times as long as a non-empty value of the source,
    with a ratio of ten at least. A file that is reserved or does not parse
    to an object has no warning. *)
Theorem warnings_have_causes (file : submitted_file) (enContent : source) (m : message) :
  m ∈ warnings (validate file enContent) →
  ∃ content,
    basename file ≠ en_json ∧ basename file ≠ report_json
    ∧ text file = ParsesTo (VObject content)
    ∧ warning_cause enContent content m.
Proof.
  rewrite warnings_validate. case_decide as Hname; [by intros ?%elem_of_nil|].
  destruct (text file) as [v|reason]; [|by intros ?%elem_of_nil].
  destruct v as [| | | | | |content]; try by intros ?%elem_of_nil.
  intros ([key v] & Hentry & H)%elem_of_flat_map.
  exists content. split; [naive_solver|]. split; [naive_solver|]. split; [done|].
  unfold entry_warnings in H. cbn [fst snd] in H.
  destruct (own enContent key) as [enValue|] eqn:Hown; [|by apply elem_of_nil in H].
  destruct v as [| | | |value| |]; try by apply elem_of_nil in H.
  apply elem_of_app in H as [H|H].
  - destruct (trim_is_empty value) eqn:Hv, (trim_is_empty enValue) eqn:Hen;
      cbn in H; try by apply elem_of_nil in H.
    apply list_elem_of_singleton in H as ->. cbn. exists enValue, value.
    split; [done|]. split; [done|]. rewrite <- !trim_is_empty_Forall. split; congruence.
  - destruct (MAX_LENGTH <? length value)%nat eqn:Hcap; [by apply elem_of_nil in H|].
    destruct (0 <? length enValue)%nat eqn:Hpos; [|by apply elem_of_nil in H].
    destruct (length enValue * MAX_LENGTH_RATIO <? length value)%nat eqn:Hratio;
      [|by apply elem_of_nil in H].
    apply list_elem_of_singleton in H as ->.
    apply Nat.ltb_ge in Hcap. apply Nat.ltb_lt in Hpos, Hratio.
    cbn. exists enValue, value. repeat (split; [done|]).
    by apply ratio_at_least_10.
Qed.

Lemma warnings_have_causes_witness :
  ∃ content,
    str "fr.json" ≠ en_json ∧ str "fr.json" ≠ report_json
    ∧ ParsesTo (VObject [(str "k", VString (replicate 51 97))]) = ParsesTo (VObject content)
    ∧ warning_cause [(str "k", str "Hello")] content (MuchLonger (str "k") 10).
Proof.
  apply (warnings_have_causes
           {| basename := str "fr.json";
              text := ParsesTo (VObject [(str "k", VString (replicate 51 97))]) |}
           [(str "k", str "Hello")] (MuchLonger (str "k") 10)).
  vm_compute. left.
Defined.

Lemma fmap_nil_iff {A B} (f : A → B) (l : list A) : f <$> l = [] ↔ l = [].
Proof. split; [apply fmap_nil_inv|by intros ->]. Qed.

Lemma flat_map_nil_iff {A B} (f : A → list B) (l : list A) :
  flat_map f l = [] ↔ ∀ x, x ∈ l → f x = [].
Proof.
  induction l as [|x l IH]; cbn.
  - split; [by intros _ ? ?%elem_of_nil|done].
  - rewrite app_nil, IH. setoid_rewrite elem_of_cons. naive_solver.
Qed.

Lemma filter_nil_elem {A} (P : A → Prop) `{!∀ x, Decision (P x)} (l : list A) :
  filter P l = [] ↔ ∀ x, x ∈ l → ¬ P x.
Proof.
  split; [|apply filter_none].
  intros Hnil x Hx HP. assert (x ∈ filter P l) as Hin by by apply list_elem_of_filter.
  rewrite Hnil in Hin. by apply elem_of_nil in Hin.
Qed.

Lemma placeholder_errors_nil_iff key enValue value :
  placeholder_errors key enValue value = []
  ↔ ∀ p, p ∈ extractPlaceholders enValue ↔ p ∈ extractPlaceholders value.
Proof.
  split; [|apply placeholder_errors_same_set].
  unfold placeholder_errors. intros [Hm He]%app_nil.
  assert (missing_placeholders enValue value = []) as Hm'
    by by destruct (missing_placeholders enValue value).
  assert (extra_placeholders enValue value = []) as He'
    by by destruct (extra_placeholders enValue value).
  intros p. split; intros Hp.
  - destruct (decide (p ∈ extractPlaceholders value)) as [|Hout]; [done|].
    assert (p ∈ missing_placeholders enValue value) as Hin
      by by apply elem_of_missing_placeholders.
    rewrite Hm' in Hin. by apply elem_of_nil in Hin.
  - destruct (decide (p ∈ extractPlaceholders enValue)) as [|Hout]; [done|].
    assert (p ∈ extra_placeholders enValue value) as Hin
      by by apply elem_of_extra_placeholders.
    rewrite He' in Hin. by apply elem_of_nil in Hin.
Qed.

Lemma hasControlChars_false_iff value :
  hasControlChars value = false
  ↔ ∀ c, c ∈ value → control_character c → c = 9 ∨ c = 10 ∨ c = 13.
Proof.
  unfold hasControlChars, control_chars. split.
  - intros Hnone c Hc Hcontrol.
    destruct (decide (c = 9)) as [|H9]; [by left|].
    destruct (decide (c = 10)) as [|H10]; [by right; left|].
    destruct (decide (c = 13)) as [|H13]; [by right; right|].
    rewrite (test_one_atom _ _ c Hc) in Hnone; [done|].
    by apply control_chars_class.
  - intros Hall. destruct (test _ value) eqn:Htest; [|done].
    apply test_one_atom_true in Htest as (c & Hc & Hclass).
    apply control_chars_class_true in Hclass as (Hcontrol & H9 & H10 & H13).
    destruct (Hall c Hc Hcontrol) as [?|[?|?]]; done.
Qed.

Lemma entry_errors_nil_iff enContent key enValue v :
  own enContent key = Some enValue →
  entry_errors enContent (key, v) = []
  ↔ ∃ value, v = VString value ∧ value_passes enValue value.
Proof.
  intros Hown. unfold entry_errors. cbn [fst snd]. rewrite Hown.
  destruct v as [| | | |value| |]; try (split; [done|by intros (? & ? & _)]).
  rewrite !app_nil, placeholder_errors_nil_iff. unfold value_passes.
  assert (blocked_errors key value = []
          ↔ ∀ pat, pat ∈ BLOCKED_PATTERNS → test pat.1 value = false) as ->.
  { unfold blocked_errors. rewrite flat_map_nil_iff.
    split; intros H pat Hpat; specialize (H pat Hpat); by destruct (test pat.1 value). }
  assert (control_errors key value = []
          ↔ ∀ c, c ∈ value → control_character c → c = 9 ∨ c = 10 ∨ c = 13) as ->.
  { rewrite <- hasControlChars_false_iff.
    unfold control_errors. by destruct (hasControlChars value). }
  assert ((∀ p, p ∈ extractPlaceholders enValue ↔ p ∈ extractPlaceholders value)
          ↔ ∀ p, occurs_placeholder p enValue ↔ occurs_placeholder p value) as ->.
  { split; intros H p; specialize (H p); by rewrite !extractPlaceholders_occurs in *. }
  assert (length_errors key value = [] ↔ (length value ≤ MAX_LENGTH)%nat) as ->.
  { unfold length_errors. destruct (Nat.ltb_spec MAX_LENGTH (length value)).
    - split; [done|lia].
    - split; [lia|done]. }
  split.
  - intros (? & ? & ? & ?). by exists value.
  - intros (? & [= <-] & ? & ? & ? & ?). done.
Qed.

(** X7. When a file passes. The validator has no error for a file exactly
    when the file is not reserved, its name is a language code once [.json]
    is taken out, it parses to an object with the keys of the source and no
    other, and every value is a string that no detector matches, with no
    control character of ASCII (below U+0020, or U+007F) but tabs, line
    feeds and carriage returns, with the placeholders of the source value
    as a set, and within the cap. A placeholder of a string is a text
    [{{...}}] without a closing brace inside that is found in it and is
    not the end of a longer one. *)
Theorem no_errors_iff (file : submitted_file) (enContent : source) :
  errors (validate file enContent) = []
  ↔ basename file ≠ en_json ∧ basename file ≠ report_json
    ∧ language_code_shape (replace_first dot_json [] (basename file))
    ∧ ∃ content,
        text file = ParsesTo (VObject content)
        ∧ (∀ key, key ∈ Object_keys enContent ↔ key ∈ Object_keys content)
        ∧ ∀ key v, (key, v) ∈ content →
            ∃ enValue value, own enContent key = Some enValue ∧ v = VString value
                             ∧ value_passes enValue value.
Proof.
  destruct (decide (basename file = en_json)) as [Hen|Hen].
  { unfold validate. rewrite decide_True by done. cbn. naive_solver. }
  destruct (decide (basename file = report_json)) as [Hreport|Hreport].
  { unfold validate. rewrite decide_False, decide_True by done. cbn. naive_solver. }
  assert (name_errors (basename file) = []
          ↔ language_code_shape (replace_first dot_json [] (basename file))) as Hname.
  { unfold name_errors, language_code_shape. rewrite <- test_language_code.
    fold dot_json. by destruct (test language_code _). }
  destruct (text file) as [v|reason] eqn:Htext; cycle 1.
  { split; [|by intros (_ & _ & _ & ? & ? & _)].
    unfold validate. rewrite decide_False, decide_False, Htext by done.
    destruct (test _ _); cbn; [done|]. by intros ?. }
  destruct v as [| | | | | |content];
    try (split; [|by intros (_ & _ & _ & ? & ? & _)];
         unfold validate; rewrite decide_False, decide_False, Htext by done;
         destruct (test _ _); cbn; done).
  rewrite (errors_validate_object _ _ _ Hen Hreport Htext), !app_nil, Hname.
  rewrite !fmap_nil_iff, flat_map_nil_iff.
  assert (missing_keys enContent content = []
          ↔ ∀ key, key ∈ Object_keys enContent → key ∈ Object_keys content) as ->.
  { unfold missing_keys. rewrite filter_nil_elem. setoid_rewrite elem_of_new_Set.
    setoid_rewrite Set_has_false. split; intros H key Hkey.
    - destruct (decide (key ∈ Object_keys content)); [done|]. by destruct (H key Hkey).
    - intros Hout. by apply Hout, H. }
  assert (unknown_keys enContent content = []
          ↔ ∀ key, key ∈ Object_keys content → key ∈ Object_keys enContent) as ->.
  { unfold unknown_keys. rewrite filter_nil_elem. setoid_rewrite elem_of_new_Set.
    setoid_rewrite Set_has_false. split; intros H key Hkey.
    - destruct (decide (key ∈ Object_keys enContent)); [done|]. by destruct (H key Hkey).
    - intros Hout. by apply Hout, H. }
  split.
  - intros (Hshape & Hmissing & Hunknown & Hentries).
    split; [done|]. split; [done|]. split; [done|]. exists content.
    split; [done|]. split; [naive_solver|]. intros key v Hentry.
    assert (key ∈ Object_keys content) as Hkey.
    { apply list_elem_of_fmap. by exists (key, v). }
    destruct (own_elem_of enContent key (Hunknown key Hkey)) as [enValue Hown].
    specialize (Hentries (key, v) Hentry).
    apply (entry_errors_nil_iff _ _ _ _ Hown) in Hentries as (value & -> & Hpasses).
    by exists enValue, value.
  - intros (_ & _ & Hshape & content' & [= <-] & Hkeys & Hentries).
    split; [done|]. split; [naive_solver|]. split; [naive_solver|].
    intros [key v] Hentry. destruct (Hentries key v Hentry) as (enValue & value & Hown & -> & ?).
    apply (entry_errors_nil_iff _ _ _ _ Hown). by exists value.
Qed.

Lemma entry_warnings_key enContent entry m :
  m ∈ entry_warnings enContent entry →
  warning_key m = Some entry.1 ∧ ∃ value, entry.2 = VString value.
Proof.
  unfold entry_warnings. destruct (own enContent entry.1) as [enValue|];
    [|by intros ?%elem_of_nil].
  destruct entry.2 as [| | | |value| |]; try by intros ?%elem_of_nil.
  intros [H|H]%elem_of_app.
  - destruct (_ && _); [|by apply elem_of_nil in H].
    apply list_elem_of_singleton in H as ->. split; [done|by eexists].
  - destruct (MAX_LENGTH <? length value)%nat; [by apply elem_of_nil in H|].
    destruct (_ && _); [|by apply elem_of_nil in H].
    apply list_elem_of_singleton in H as ->. split; [done|by eexists].
Qed.

(** The messages about a key come from the entry of that key. *)
Lemma errors_of_key file enContent content key v m :
  basename file ≠ en_json → basename file ≠ report_json →
  text file = ParsesTo (VObject content) →
  NoDup (Object_keys content) → (key, v) ∈ content →
  m ∈ errors (validate file enContent) → entry_key m = Some key →
  m ∈ entry_errors enContent (key, v).
Proof.
  intros Hen Hreport Htext Hnd Hentry Hm Hkey.
  rewrite (errors_validate_object _ _ _ Hen Hreport Htext), !elem_of_app in Hm.
  destruct Hm as [Hm|[Hm|[Hm|Hm]]].
  - unfold name_errors in Hm. destruct (test _ _); [by apply elem_of_nil in Hm|].
    by apply list_elem_of_singleton in Hm as ->.
  - by apply list_elem_of_fmap in Hm as (? & -> & _).
  - by apply list_elem_of_fmap in Hm as (? & -> & _).
  - apply elem_of_flat_map in Hm as ([k w] & Hkw & Hm).
    assert (k = key) as -> by (apply entry_errors_key in Hm; cbn in Hm; congruence).
    by rewrite (NoDup_keys_entry content key v w Hnd Hentry Hkw).
Qed.

Lemma warnings_of_key file enContent content key v m :
  text file = ParsesTo (VObject content) →
  NoDup (Object_keys content) → (key, v) ∈ content →
  m ∈ warnings (validate file enContent) → warning_key m = Some key →
  m ∈ entry_warnings enContent (key, v).
Proof.
  intros Htext Hnd Hentry Hm Hkey. rewrite warnings_validate, Htext in Hm.
  case_decide; [by apply elem_of_nil in Hm|].
  apply elem_of_flat_map in Hm as ([k w] & Hkw & Hm).
  assert (k = key) as -> by (apply entry_warnings_key in Hm as [Hm _]; cbn in Hm; congruence).
  by rewrite (NoDup_keys_entry content key v w Hnd Hentry Hkw).
Qed.

(** X8. The type check stops the checks of a key. In a file that is not
    reserved and parses to an object, whose keys are distinct, a key of the
    source whose value is not a string gets the error [Value must be a
    string] with the type of the value, no other error about its value, and
    no warning. *)
Theorem not_a_string_is_the_only_message (file : submitted_file) (enContent : source)
    (content : object) (key : jsstring) (v : value) :
  basename file ≠ en_json → basename file ≠ report_json →
  text file = ParsesTo (VObject content) →
  NoDup (Object_keys content) →
  key ∈ Object_keys enContent → (key, v) ∈ content → (∀ s, v ≠ VString s) →
  NotAString key (typeof v) ∈ errors (validate file enContent)
  ∧ (∀ m, m ∈ errors (validate file enContent) → entry_key m = Some key →
          m = NotAString key (typeof v))
  ∧ (∀ m, m ∈ warnings (validate file enContent) → warning_key m ≠ Some key).
Proof.
  intros Hen Hreport Htext Hnd Hkey Hentry Hv.
  destruct (own_elem_of _ _ Hkey) as [enValue Hown].
  assert (entry_errors enContent (key, v) = [NotAString key (typeof v)]) as Herrors.
  { unfold entry_errors. cbn [fst snd]. rewrite Hown. destruct v; try done.
    by destruct (Hv s). }
  split; [|split].
  - apply (entry_errors_reported _ _ _ _ _ Hen Hreport Htext Hentry).
    rewrite Herrors. by left.
  - intros m Hm Hmkey.
    apply (errors_of_key _ _ _ _ _ _ Hen Hreport Htext Hnd Hentry) in Hm; [|done].
    rewrite Herrors in Hm. by apply list_elem_of_singleton in Hm.
  - intros m Hm Hmkey.
    apply (warnings_of_key _ _ _ _ _ _ Htext Hnd Hentry) in Hm; [|done].
    apply entry_warnings_key in Hm as (_ & value & Heq). cbn in Heq. by destruct (Hv value).
Qed.

Lemma not_a_string_is_the_only_message_witness :
  let content : object := [(str "greeting", VNumber 3); (str "farewell", VString (str "Adieu"))] in
  let file := {| basename := str "fr.json"; text := ParsesTo (VObject content) |} in
  NotAString (str "greeting") (str "number") ∈ errors (validate file sample_source)
  ∧ (∀ m, m ∈ errors (validate file sample_source) → entry_key m = Some (str "greeting") →
          m = NotAString (str "greeting") (str "number"))
  ∧ (∀ m, m ∈ warnings (validate file sample_source) →
          warning_key m ≠ Some (str "greeting")).
Proof.
  intros content file.
  apply (not_a_string_is_the_only_message file sample_source content
           (str "greeting") (VNumber 3)).
  - by_computation.
  - by_computation.
  - reflexivity.
  - by_computation.
  - by_computation.
  - left.
  - discriminate.
Defined.

(** X9. The cap on the length. In a file that is not reserved and parses to
    an object, whose keys are distinct, a key of the source whose value is a
    string gets the error [Value exceeds hard cap] exactly when the string
    has more than 2000 code units, with that length; and then it gets no
    warning about its length, whatever the length of the source value. *)
Theorem length_cap (file : submitted_file) (enContent : source)
    (content : object) (key value : jsstring) :
  basename file ≠ en_json → basename file ≠ report_json →
  text file = ParsesTo (VObject content) →
  NoDup (Object_keys content) →
  key ∈ Object_keys enContent → (key, VString value) ∈ content →
  (∀ n, TooLong key n ∈ errors (validate file enContent)
        ↔ n = length value ∧ (MAX_LENGTH < length value)%nat)
  ∧ ((MAX_LENGTH < length value)%nat →
     ∀ ratio, MuchLonger key ratio ∉ warnings (validate file enContent)).
Proof.
  intros Hen Hreport Htext Hnd Hkey Hentry.
  destruct (own_elem_of _ _ Hkey) as [enValue Hown].
  split.
  - intros n. split.
    + intros Hn.
      apply (errors_of_key _ _ _ _ _ _ Hen Hreport Htext Hnd Hentry) in Hn; [|done].
      apply (entry_error_cause file _ content) in Hn; [|done].
      destruct Hn as (value' & Hentry' & _ & -> & Hlen).
      assert (VString value = VString value') as [= <-]
        by by apply (NoDup_keys_entry content key).
      done.
    + intros [-> Hlen].
      apply (entry_errors_reported _ _ _ _ _ Hen Hreport Htext Hentry).
      rewrite (string_entry_errors _ _ _ _ Hown), !elem_of_app. do 3 right.
      unfold length_errors. rewrite (proj2 (Nat.ltb_lt _ _) Hlen). by left.
  - intros Hlen ratio Hw.
    apply (warnings_of_key _ _ _ _ _ _ Htext Hnd Hentry) in Hw; [|done].
    unfold entry_warnings in Hw. cbn [fst snd] in Hw.
    rewrite Hown, (proj2 (Nat.ltb_lt _ _) Hlen), app_nil_r in Hw.
    destruct (_ && _); [|by apply elem_of_nil in Hw].
    by apply list_elem_of_singleton in Hw.
Qed.

Lemma length_cap_witness :
  let content : object := [(str "k", VString (replicate 2001 97))] in
  let file := {| basename := str "fr.json"; text := ParsesTo (VObject content) |} in
  (∀ n, TooLong (str "k") n ∈ errors (validate file [(str "k", str "Hello")])
        ↔ n = length (replicate 2001 97) ∧ (MAX_LENGTH < length (replicate 2001 97))%nat)
  ∧ ((MAX_LENGTH < length (replicate 2001 97))%nat →
     ∀ ratio, MuchLonger (str "k") ratio ∉ warnings (validate file [(str "k", str "Hello")])).
Proof.
  intros content file.
  apply (length_cap file [(str "k", str "Hello")] content (str "k") (replicate 2001 97)).
  - by_computation.
  - by_computation.
  - reflexivity.
  - by_computation.
  - by_computation.
  - left.
Defined.

Lemma totalErrors_foldl enContent files t :
  totalErrors (foldl (validate_next enContent) t files)
  = (totalErrors t + sum_list (errors_counted enContent <$> files))%nat.
Proof.
  revert t. induction files as [|file files IH]; intros t; cbn.
  - lia.
  - rewrite IH. destruct file; cbn; lia.
Qed.

Lemma sum_list_zero (l : list nat) : sum_list l = 0%nat ↔ Forall (λ n, n = 0%nat) l.
Proof.
  induction l as [|n l IH]; cbn.
  - split; [constructor|done].
  - rewrite Forall_cons, <- IH. lia.
Qed.

(** X10. The exit code of the validator. The script exits with 0 exactly
    when at least one file is named, [en.json] is there, and every file
    named is found and validated without an error; it exits with 1
    otherwise. Warnings do not count. *)
Theorem exit_code_zero_iff (files : list (option submitted_file)) (en_file : option source) :
  (validate_cli files en_file = 0%Z ∨ validate_cli files en_file = 1%Z)
  ∧ (validate_cli files en_file = 0%Z
     ↔ files ≠ []
       ∧ ∃ enContent, en_file = Some enContent
           ∧ ∀ file, file ∈ files →
               ∃ f, file = Some f ∧ errors (validate f enContent) = []).
Proof.
  unfold validate_cli. destruct files as [|file files]; [naive_solver|].
  destruct en_file as [enContent|]; [|naive_solver].
  rewrite totalErrors_foldl. cbn [totalErrors].
  set (l := file :: files).
  destruct (Nat.ltb_spec 0 (0 + sum_list (errors_counted enContent <$> l))) as [Hpos|Hzero].
  - split; [by right|]. split; [done|].
    intros (_ & enContent' & [= <-] & Hall).
    assert (sum_list (errors_counted enContent <$> l) = 0%nat); [|lia].
    apply sum_list_zero, Forall_fmap, Forall_forall. intros x Hx.
    destruct (Hall x Hx) as (f & -> & Hf). cbn. by rewrite Hf.
  - split; [by left|]. split; [intros _|done]. split; [done|].
    exists enContent. split; [done|]. intros x Hx.
    assert (sum_list (errors_counted enContent <$> l) = 0%nat) as Hsum by lia.
    apply sum_list_zero, Forall_fmap in Hsum. rewrite Forall_forall in Hsum.
    specialize (Hsum x Hx). cbn in Hsum. destruct x as [f|]; [|done].
    exists f. split; [done|]. cbn in Hsum. by apply length_zero_iff_nil.
Qed.

(** ** More on the synchronizer *)

Lemma length_filter_impl {A} (P Q : A → Prop) `{!∀ x, Decision (P x), !∀ x, Decision (Q x)}
    (l : list A) :
  (∀ x, P x → Q x) → (length (filter P l) ≤ length (filter Q l))%nat.
Proof.
  intros HPQ. induction l as [|x l IH]; [done|].
  rewrite !filter_cons. destruct (decide (P x)) as [HP|HP].
  - rewrite decide_True by by apply HPQ. cbn. lia.
  - destruct (decide (Q x)); cbn; lia.
Qed.

(** X11. The counts add up. In the stats of a run that returns,
    [translated] and [untranslated] sum to the number of keys of the
    source, and every missing key is untranslated too: [missing] is at most
    [untranslated], which is at most the number of keys. *)
Theorem stats_add_up (fl : Q → Q) (fs : filesystem) (lang : jsstring) (enContent : source)
    (fs' : filesystem) (st : stats) :
  syncLanguage fl fs lang enContent = Returns (fs', st) →
  (translated st + untranslated st = total_of enContent
   ∧ 0 <= missing st <= untranslated st
   ∧ untranslated st <= total_of enContent
   ∧ 0 <= translated st)%Z.
Proof.
  intros Hrun. apply syncLanguage_stats in Hrun as ->.
  unfold stats_of, total_of. cbv zeta. cbn [translated untranslated missing].
  rewrite length_sort.
  pose proof (length_filter (λ key, still_english enContent (candidate fs lang) key = true)
                (sort (Object_keys enContent))) as Hu.
  rewrite length_sort in Hu.
  pose proof (length_filter_impl
                (λ key, has (candidate fs lang) key = false)
                (λ key, still_english enContent (candidate fs lang) key = true)
                (sort (Object_keys enContent))) as Hm.
  assert (∀ key, has (candidate fs lang) key = false →
                 still_english enContent (candidate fs lang) key = true) as Himpl.
  { intros key Hhas. unfold still_english. by rewrite Hhas. }
  specialize (Hm Himpl). lia.
Qed.

Lemma stats_add_up_witness :
  let enContent : source := [(str "greeting", str "Hello"); (str "farewell", str "Goodbye")] in
  let fs : filesystem :=
    {[ de := ParsesTo (VObject [(str "greeting", VString (str "Hallo"))]) ]} in
  let st := stats_of (λ x, x) enContent (candidate fs de) in
  (translated st + untranslated st = total_of enContent
   ∧ 0 <= missing st <= untranslated st
   ∧ untranslated st <= total_of enContent
   ∧ 0 <= translated st)%Z.
Proof.
  intros enContent fs st.
  apply (stats_add_up (λ x, x) fs de enContent
           (<[de := ParsesTo (VObject (merged_of enContent (candidate fs de)))]> fs) st).
  apply syncLanguage_coercible. vm_compute. reflexivity.
Defined.

(** [merge_result] is the loop of [syncLanguage]. *)
Lemma syncLanguage_merge_result (fl : Q → Q) (fs : filesystem) (lang : jsstring)
    (enContent : source) :
  syncLanguage fl fs lang enContent
  = (st ← merge_result enContent (candidate fs lang);
     let totalKeys := Z.of_nat (length (sort (Object_keys enContent))) in
     let translatedKeys := (totalKeys - Z.of_nat (length (untranslatedKeys st)))%Z in
     mret (<[lang := ParsesTo (VObject (merged st))]> fs,
           {| translated := translatedKeys;
              untranslated := Z.of_nat (length (untranslatedKeys st));
              missing := Z.of_nat (length (missingKeys st));
              completion := completion_of fl translatedKeys totalKeys |})).
Proof. reflexivity. Qed.

Lemma merge_result_object enContent props :
  merge_result enContent (VObject props)
  = Returns (merge_all enContent (VObject props) merge_start (sort (Object_keys enContent))).
Proof. unfold merge_result. by apply for_of_merge_key. Qed.

Lemma strict_eq_string v text : strict_eq v (VString text) = true ↔ v = VString text.
Proof.
  destruct v; cbn; try (split; [done|by intros [=]]).
  rewrite bool_decide_eq_true. naive_solver.
Qed.

(** X12. Existing translations are kept. When the candidate is an object,
    the loop stores under a key of the source, other than [__proto__], that
    the candidate has the value of the candidate; it does not count the key
    as missing, and counts it as untranslated exactly when that value is
    the string of the source. A key that the candidate has and the source
    lacks is not in the merged object. *)
Theorem existing_values_kept (enContent : source) (props : object) (st : merge_state)
    (key : jsstring) (v : value) :
  merge_result enContent (VObject props) = Returns st →
  own props key = Some v →
  (key ∈ Object_keys enContent → key ≠ proto_key →
   own (merged st) key = Some v
   ∧ (key ∉ missingKeys st)
   ∧ (key ∈ untranslatedKeys st ↔ ∃ text, own enContent key = Some text ∧ v = VString text))
  ∧ (key ∉ Object_keys enContent → own (merged st) key = None).
Proof.
  rewrite merge_result_object. intros [= <-] Hown.
  assert (has (VObject props) key = true) as Hhas.
  { unfold has, hasOwn. rewrite Hown. by rewrite bool_decide_eq_true. }
  assert (get (VObject props) key = v) as Hget by (unfold get; by rewrite Hown).
  unfold merge_all, merge_start. cbn [merged untranslatedKeys missingKeys app].
  change (@nil (jsstring * value))
    with (entry (kept enContent (VObject props)) <$> []).
  rewrite foldl_assign_entries, own_entries.
  split.
  - intros Hkey Hne. split; [|split].
    + rewrite decide_True; [|rewrite elem_of_foldl_add_key, elem_of_sort; by right].
      unfold kept. by rewrite Hhas, Hget.
    + rewrite list_elem_of_filter. intros [Hfalse _]. congruence.
    + rewrite list_elem_of_filter, elem_of_sort. unfold still_english.
      rewrite Hhas, Hget. destruct (own_elem_of _ _ Hkey) as [text Htext].
      unfold source_get. rewrite Htext, strict_eq_string. naive_solver.
  - intros Hout. rewrite decide_False; [done|].
    rewrite elem_of_foldl_add_key, elem_of_sort, elem_of_nil. naive_solver.
Qed.

Lemma existing_values_kept_witness :
  let enContent : source := [(str "greeting", str "Hello"); (str "farewell", str "Goodbye")] in
  let props : object := [(str "greeting", VString (str "Hallo")); (str "old", VNull)] in
  let st := merge_all enContent (VObject props) merge_start (sort (Object_keys enContent)) in
  (str "greeting" ∈ Object_keys enContent → str "greeting" ≠ proto_key →
   own (merged st) (str "greeting") = Some (VString (str "Hallo"))
   ∧ (str "greeting" ∉ missingKeys st)
   ∧ (str "greeting" ∈ untranslatedKeys st
      ↔ ∃ text, own enContent (str "greeting") = Some text
                ∧ VString (str "Hallo") = VString text))
  ∧ (str "greeting" ∉ Object_keys enContent → own (merged st) (str "greeting") = None).
Proof.
  intros enContent props st.
  apply (existing_values_kept enContent props st (str "greeting") (VString (str "Hallo"))).
  - apply merge_result_object.
  - reflexivity.
Defined.

Lemma insert_key_app indices names i key :
  Forall (λ k, is_Some (array_index k)) indices →
  Forall (λ k, array_index k = None) names →
  insert_key (indices ++ names) i key = insert_key indices i key ++ names.
Proof.
  intros Hindices Hnames. induction Hindices as [|x l [j Hj] Hl IH]; cbn.
  - destruct Hnames as [|n names Hn Hnames]; [done|]. cbn. by rewrite Hn.
  - rewrite Hj. destruct (j <? i); [|done]. cbn. by rewrite IH.
Qed.

Lemma insert_key_sorted indices i key :
  array_index key = Some i →
  Forall (λ k, is_Some (array_index k)) indices →
  Sorted index_le indices → Sorted index_le (insert_key indices i key).
Proof.
  intros Hkey Hindices. induction Hindices as [|x l [j Hj] Hl IH]; intros Hsorted; cbn.
  - by repeat constructor.
  - apply Sorted_inv in Hsorted as [Hsorted Hhead]. rewrite Hj.
    destruct (N.ltb_spec j i) as [Hlt|Hge].
    + apply Sorted_cons; [by apply IH|].
      assert (index_le x key) as Hxkey by (unfold index_le; rewrite Hj, Hkey; lia).
      destruct Hl as [|y l' [j' Hj'] Hl']; cbn; [by constructor|].
      rewrite Hj'. destruct (j' <? i); constructor; [|done].
      by apply HdRel_inv in Hhead.
    + apply Sorted_cons; [by apply Sorted_cons|]. constructor.
      unfold index_le. rewrite Hj, Hkey. lia.
Qed.

Lemma add_key_fresh l key :
  key ≠ proto_key → key ∉ l → add_key l key = place_key l key.
Proof. intros Hkey Hfresh. unfold add_key. by rewrite !decide_False. Qed.

(** The keys the loop lists: the array indices in ascending order, then
    the other keys in the order of their creation. *)
Lemma foldl_add_key_shape keys :
  ∀ indices names,
    proto_key ∉ keys → NoDup ((indices ++ names) ++ keys) →
    Forall (λ k, is_Some (array_index k)) indices → Sorted index_le indices →
    Forall (λ k, array_index k = None) names →
    ∃ indices',
      foldl add_key (indices ++ names) keys
      = indices' ++ names ++ filter (λ k, array_index k = None) keys
      ∧ indices' ≡ₚ indices ++ filter (λ k, is_Some (array_index k)) keys
      ∧ Sorted index_le indices'.
Proof.
  induction keys as [|key keys IH]; intros indices names Hproto Hnd Hindices Hsorted Hnames.
  - exists indices. cbn. by rewrite !app_nil_r.
  - apply not_elem_of_cons in Hproto as [Hkey Hproto].
    assert (key ∉ indices ++ names) as Hfresh.
    { apply NoDup_app in Hnd as (_ & Hdisj & _). intros Hin. apply (Hdisj _ Hin). by left. }
    cbn [foldl]. rewrite add_key_fresh by done.
    rewrite !filter_cons. unfold place_key.
    destruct (array_index key) as [i|] eqn:Hi.
    + rewrite decide_False by done. rewrite decide_True by by eexists.
      rewrite insert_key_app by done.
      destruct (IH (insert_key indices i key) names) as (indices' & Heq & Hperm & Hs).
      * done.
      * rewrite insert_key_Permutation. cbn. by rewrite Permutation_middle.
      * rewrite insert_key_Permutation. constructor; [by eexists|done].
      * by apply insert_key_sorted.
      * done.
      * exists indices'. split; [done|]. split; [|done].
        rewrite Hperm, insert_key_Permutation. cbn. by rewrite Permutation_middle.
    + rewrite decide_True by done.
      rewrite decide_False by (intros [? ?]; done).
      destruct (IH indices (names ++ [key])) as (indices' & Heq & Hperm & Hs).
      * done.
      * rewrite app_assoc. rewrite <- (app_assoc _ [key] keys). done.
      * done.
      * done.
      * apply Forall_app. split; [done|]. by constructor.
      * exists indices'. split; [|done].
        rewrite <- app_assoc, Heq, <- !app_assoc. done.
Qed.

Lemma foldl_add_key_Permutation keys :
  ∀ l, proto_key ∉ keys → NoDup (l ++ keys) → foldl add_key l keys ≡ₚ l ++ keys.
Proof.
  induction keys as [|key keys IH]; intros l Hproto Hnd; cbn [foldl].
  - by rewrite app_nil_r.
  - apply not_elem_of_cons in Hproto as [Hkey Hproto].
    assert (key ∉ l) as Hfresh.
    { apply NoDup_app in Hnd as (_ & Hdisj & _). intros Hin. apply (Hdisj _ Hin). by left. }
    rewrite add_key_fresh by done.
    rewrite IH; [|done|].
    + rewrite place_key_Permutation. cbn. by rewrite Permutation_middle.
    + rewrite place_key_Permutation. cbn. by rewrite Permutation_middle.
Qed.

(** X13. The keys of the file written. For a source whose keys are distinct
    and not [__proto__], the file a run that returns leaves for the
    language holds an object with the keys of the source, in the order in
    which an object lists them: first the keys that are array indices, in
    ascending order of their numbers, then the other keys in ascending
    order of their code units, the order of the sort. With no array index
    among the keys they are all in the order of the sort. The other files
    are as they were. *)
Theorem written_keys_sorted (fl : Q → Q) (fs : filesystem) (lang : jsstring)
    (enContent : source) (fs' : filesystem) (st : stats) :
  NoDup (Object_keys enContent) → proto_key ∉ Object_keys enContent →
  syncLanguage fl fs lang enContent = Returns (fs', st) →
  (∃ o indices,
     fs' !! lang = Some (ParsesTo (VObject o))
     ∧ Object_keys o
       = indices ++ filter (λ key, array_index key = None) (sort (Object_keys enContent))
     ∧ indices ≡ₚ filter (λ key, is_Some (array_index key)) (Object_keys enContent)
     ∧ Sorted index_le indices
     ∧ Object_keys o ≡ₚ Object_keys enContent
     ∧ (Forall (λ key, array_index key = None) (Object_keys enContent) →
        Object_keys o = sort (Object_keys enContent)
        ∧ Sorted (λ a b, Is_true (str_le a b)) (Object_keys o)))
  ∧ ∀ other, other ≠ lang → fs' !! other = fs !! other.
Proof.
  intros Hnd Hproto Hrun.
  assert (∃ c, coercible c = true
               ∧ fs' = <[lang := ParsesTo (VObject (merged_of enContent c))]> fs)
    as (c & Hc & ->).
  { destruct (coercible (candidate fs lang)) eqn:Hc.
    - rewrite syncLanguage_coercible in Hrun by done. injection Hrun as <- _. by eexists.
    - destruct enContent as [|kv o].
      + rewrite syncLanguage_no_keys in Hrun. injection Hrun as <- _.
        by exists (VObject []).
      + destruct (syncLanguage_not_coercible fl fs lang (kv :: o) Hc) as [e He]; [done|].
        by rewrite He in Hrun. }
  split; [|intros other Hother; by rewrite lookup_insert_ne].
  assert (Object_keys (merged_of enContent c)
          = foldl add_key [] (sort (Object_keys enContent))) as Hkeys.
  { unfold merged_of, Object_keys at 1.
    rewrite <- list_fmap_compose, (list_fmap_ext _ id) by done. by rewrite list_fmap_id. }
  assert (proto_key ∉ sort (Object_keys enContent)) as Hproto' by by rewrite elem_of_sort.
  assert (NoDup (sort (Object_keys enContent))) as Hnd'
    by (unfold sort; by rewrite merge_sort_Permutation).
  destruct (foldl_add_key_shape (sort (Object_keys enContent)) [] [])
    as (indices & Heq & Hperm & Hsorted); [done|done|constructor|constructor|constructor|].
  exists (merged_of enContent c), indices. rewrite lookup_insert_eq, Hkeys.
  split; [done|]. split; [exact Heq|]. split.
  { rewrite Hperm. cbn. apply filter_Permutation. unfold sort. apply merge_sort_Permutation. }
  split; [done|]. split.
  { rewrite (foldl_add_key_Permutation _ [] Hproto' Hnd'). cbn.
    unfold sort. apply merge_sort_Permutation. }
  intros Hnames. rewrite <- Hkeys, (merged_of_sorted _ _ Hproto Hnd Hnames).
  split; [done|apply sort_sorted].
Qed.

Lemma written_keys_sorted_witness :
  let enContent : source :=
    [(str "b", str "Bee"); (str "9", str "Nine"); (str "a", str "Ay"); (str "10", str "Ten")] in
  let fs : filesystem := {[ de := ParsesTo (VObject [(str "a", VString (str "Ah"))]) ]} in
  let fs' := <[de := ParsesTo (VObject (merged_of enContent (candidate fs de)))]> fs in
  (∃ o indices,
     fs' !! de = Some (ParsesTo (VObject o))
     ∧ Object_keys o
       = indices ++ filter (λ key, array_index key = None) (sort (Object_keys enContent))
     ∧ indices ≡ₚ filter (λ key, is_Some (array_index key)) (Object_keys enContent)
     ∧ Sorted index_le indices
     ∧ Object_keys o ≡ₚ Object_keys enContent
     ∧ (Forall (λ key, array_index key = None) (Object_keys enContent) →
        Object_keys o = sort (Object_keys enContent)
        ∧ Sorted (λ a b, Is_true (str_le a b)) (Object_keys o)))
  ∧ ∀ other, other ≠ de → fs' !! other = fs !! other.
Proof.
  intros enContent fs fs'.
  apply (written_keys_sorted (λ x, x) fs de enContent fs'
           (stats_of (λ x, x) enContent (candidate fs de))).
  - by_computation.
  - by_computation.
  - apply syncLanguage_coercible. vm_compute. reflexivity.
Defined.

(** The file of the witness has its keys in the order [9], [10], [a],
    [b], where the sort has [10], [9], [a], [b]. *)
Example written_keys_of_indices :
  Object_keys (merged_of [(str "b", str "Bee"); (str "9", str "Nine"); (str "a", str "Ay");
                          (str "10", str "Ten")]
                 (VObject [(str "a", VString (str "Ah"))]))
  = [str "9"; str "10"; str "a"; str "b"]
  ∧ sort [str "b"; str "9"; str "a"; str "10"] = [str "10"; str "9"; str "a"; str "b"].
Proof. split; vm_compute; reflexivity. Qed.

(** X14. What a run writes can always be read again. After a run that
    returns, a run for the same language returns too, whatever the source
    and the rounding are by then. *)
Theorem written_file_syncs_again (fl : Q → Q) (fs : filesystem) (lang : jsstring)
    (enContent : source) (fs' : filesystem) (st : stats)
    (fl' : Q → Q) (enContent' : source) :
  syncLanguage fl fs lang enContent = Returns (fs', st) →
  ∃ r, syncLanguage fl' fs' lang enContent' = Returns r.
Proof.
  intros Hrun.
  assert (∃ o, fs' !! lang = Some (ParsesTo (VObject o))) as [o Ho].
  { destruct (coercible (candidate fs lang)) eqn:Hc.
    - rewrite syncLanguage_coercible in Hrun by done. injection Hrun as <- _.
      eexists. by rewrite lookup_insert_eq.
    - destruct enContent as [|kv o].
      + rewrite syncLanguage_no_keys in Hrun. injection Hrun as <- _.
        eexists. by rewrite lookup_insert_eq.
      + destruct (syncLanguage_not_coercible fl fs lang (kv :: o) Hc) as [e He]; [done|].
        by rewrite He in Hrun. }
  eexists. apply syncLanguage_coercible. unfold candidate. by rewrite Ho.
Qed.

Lemma written_file_syncs_again_witness :
  ∃ r, syncLanguage (λ x, x)
         {[ de := ParsesTo (VObject [(str "greeting", VString (str "Hello"))]) ]}
         de [(str "farewell", str "Goodbye")] = Returns r.
Proof.
  apply (written_file_syncs_again (λ x, x) ∅ de [(str "greeting", str "Hello")]
           {[ de := ParsesTo (VObject [(str "greeting", VString (str "Hello"))]) ]}
           (stats_of (λ x, x) [(str "greeting", str "Hello")] (VObject []))
           (λ x, x) [(str "farewell", str "Goodbye")]).
  by rewrite syncLanguage_coercible.
Defined.

Local Open Scope Q_scope.
(** ** What the completion shows, and the progress bar *)

(** The number of tenths [Math.round] gives is within half a key of
    [1000 * t / n], counted in keys. *)
Lemma tenths_bounds fl (t n : Z) :
  rounds_to_double fl → (0 <= t <= n)%Z → (0 < n < 2 ^ 40)%Z →
  let k := Math_round (fl (fl (inject_Z t / inject_Z n) * 1000)) in
  (2000 * t - n <= 2 * k * n <= 2000 * t + n)%Z.
Proof.
  intros Hfl Ht Hn k.
  pose proof (round_nearest fl t n Hfl Ht Hn) as Hk. fold k in Hk.
  apply Qabs_Qle_condition in Hk.
  set (T := inject_Z t) in *. set (N := inject_Z n) in *. set (K := inject_Z k) in *.
  assert (0 < N) as HN0 by (change 0 with (inject_Z 0); apply inject_Z_lt; lia).
  set (A := T / N) in *.
  assert (A * N == T) as HAN by (unfold A; field; lra).
  assert (K / 10 == K * (1 # 10)) as Hdiv by (field; lra).
  assert (0 <= ((1 # 2) - (K - 1000 * A)) * N) as Hup.
  { apply Qmult_le_0_compat; lra. }
  assert (0 <= ((1 # 2) + (K - 1000 * A)) * N) as Hlow.
  { apply Qmult_le_0_compat; lra. }
  split.
  - rewrite Zle_Qle. unfold Z.sub.
    rewrite !inject_Z_plus, !inject_Z_opp, !inject_Z_mult.
    fold K T N. change (inject_Z 2) with 2. change (inject_Z 2000) with 2000. lra.
  - rewrite Zle_Qle.
    rewrite !inject_Z_plus, !inject_Z_mult.
    fold K T N. change (inject_Z 2) with 2. change (inject_Z 2000) with 2000. lra.
Qed.

Lemma stats_of_counts fl enContent langContent :
  let st := stats_of fl enContent langContent in
  (0 <= untranslated st <= total_of enContent)%Z
  ∧ translated st = (total_of enContent - untranslated st)%Z
  ∧ completion st = completion_of fl (translated st) (total_of enContent).
Proof.
  unfold stats_of, total_of. cbv zeta. cbn [translated untranslated completion].
  rewrite length_sort.
  pose proof (length_filter (λ key, still_english enContent langContent key = true)
                (sort (Object_keys enContent))) as Hu.
  rewrite length_sort in Hu. split; [lia|done].
Qed.

(** X15. What 100 hides. With the rounding of doubles and fewer than 2^40
    keys, a run shows the double of 100 as soon as fewer than one key in
    2000 is untranslated, so also with untranslated keys left; and with
    more than one key in 2000 untranslated the completion is the double of
    at most 99.9. *)
Theorem complete_within_one_in_2000 (fl : Q → Q) (fs : filesystem) (lang : jsstring)
    (enContent : source) (fs' : filesystem) (st : stats) :
  rounds_to_double fl →
  (total_of enContent < 2 ^ 40)%Z →
  syncLanguage fl fs lang enContent = Returns (fs', st) →
  ((2000 * untranslated st < total_of enContent)%Z →
   completion st = fl (inject_Z 1000 / 10))
  ∧ ((total_of enContent < 2000 * untranslated st)%Z →
     ∃ tenths : Z, (0 <= tenths <= 999)%Z ∧ completion st = fl (inject_Z tenths / 10)).
Proof.
  intros Hfl Hsize Hrun. apply syncLanguage_stats in Hrun as ->.
  destruct (stats_of_counts fl enContent (candidate fs lang)) as (Hu & Ht & ->).
  set (st := stats_of fl enContent (candidate fs lang)) in *.
  set (n := total_of enContent) in *. set (u := untranslated st) in *.
  rewrite Ht. unfold completion_of.
  split; intros Hmany.
  - assert (0 < n)%Z as Hn by lia. rewrite (proj2 (Z.ltb_lt 0 n) Hn).
    pose proof (tenths_bounds fl (n - u) n Hfl) as Hk. cbv zeta in Hk.
    specialize (Hk ltac:(lia) ltac:(lia)).
    set (k := Math_round _) in *.
    assert (k = 1000%Z) as -> by nia. done.
  - assert (0 < n)%Z as Hn by lia. rewrite (proj2 (Z.ltb_lt 0 n) Hn).
    pose proof (tenths_bounds fl (n - u) n Hfl) as Hk. cbv zeta in Hk.
    specialize (Hk ltac:(lia) ltac:(lia)).
    set (k := Math_round _) in *.
    exists k. split; [nia|done].
Qed.

Lemma complete_within_one_in_2000_witness :
  let enContent : source := [(str "greeting", str "Hello"); (str "farewell", str "Goodbye")] in
  let fs : filesystem :=
    {[ de := ParsesTo (VObject [(str "greeting", VString (str "Hallo"))]) ]} in
  let st := stats_of (λ x, x) enContent (candidate fs de) in
  ((2000 * untranslated st < total_of enContent)%Z →
   completion st = inject_Z 1000 / 10)
  ∧ ((total_of enContent < 2000 * untranslated st)%Z →
     ∃ tenths : Z, (0 <= tenths <= 999)%Z ∧ completion st = inject_Z tenths / 10).
Proof.
  intros enContent fs st.
  apply (complete_within_one_in_2000 (λ x, x) fs de enContent
           (<[de := ParsesTo (VObject (merged_of enContent (candidate fs de)))]> fs) st).
  - exact exact_rounds_to_double.
  - vm_compute. reflexivity.
  - apply syncLanguage_coercible. vm_compute. reflexivity.
Defined.

Lemma concat_replicate_singleton {A} (n : nat) (x : A) :
  concat (replicate n [x]) = replicate n x.
Proof. induction n as [|n IH]; [done|]. cbn. by rewrite IH. Qed.

Lemma progressBar_filled fl pct (filled : Z) :
  Math_round (fl (pct / 5)) = filled → (0 <= filled <= 20)%Z →
  progressBar fl pct = Some (bar (Z.to_nat filled)).
Proof.
  intros Hf Hrange. unfold progressBar. cbv zeta. rewrite Hf.
  unfold String_repeat.
  rewrite (proj2 (Z.ltb_ge filled 0)) by lia.
  rewrite (proj2 (Z.ltb_ge (20 - filled) 0)) by lia.
  cbn [mbind option_bind]. rewrite !concat_replicate_singleton.
  unfold bar. by replace (Z.to_nat (20 - filled)) with (20 - Z.to_nat filled)%nat by lia.
Qed.

Lemma progressBar_throws fl pct (filled : Z) :
  Math_round (fl (pct / 5)) = filled → (filled < 0 ∨ 20 < filled)%Z →
  progressBar fl pct = None.
Proof.
  intros Hf Hout. unfold progressBar. cbv zeta. rewrite Hf. unfold String_repeat.
  destruct (Z.ltb_spec filled 0) as [Hneg|Hpos]; [done|].
  by rewrite (proj2 (Z.ltb_lt (20 - filled) 0)) by lia.
Qed.

Lemma Math_round_bounds (x : Q) (lo hi : Z) :
  inject_Z lo - (1 # 2) <= x → x < inject_Z hi + (1 # 2) →
  (lo <= Math_round x <= hi)%Z.
Proof.
  intros Hlo Hhi. unfold Math_round.
  pose proof (Qfloor_le (x + (1 # 2))) as Hk1.
  pose proof (Qlt_floor (x + (1 # 2))) as Hk2.
  set (k := Qfloor (x + (1 # 2))) in *.
  rewrite inject_Z_plus in Hk2. change (inject_Z 1) with 1 in Hk2.
  split.
  - assert (inject_Z lo < inject_Z (k + 1)) as H.
    { rewrite inject_Z_plus. change (inject_Z 1) with 1. lra. }
    rewrite <- Zlt_Qlt in H. lia.
  - assert (inject_Z k < inject_Z (hi + 1)) as H.
    { rewrite inject_Z_plus. change (inject_Z 1) with 1. lra. }
    rewrite <- Zlt_Qlt in H. lia.
Qed.

Lemma fifth_filled fl pct :
  rounds_to_double fl → pct == 0 ∨ 5 * range_low <= pct → pct <= 102 →
  (0 <= Math_round (fl (pct / 5)%Q) <= 20)%Z.
Proof.
  intros Hfl Hlow Hhigh.
  assert (pct / 5 == pct * (1 # 5)) as Hdiv by (field; lra).
  pose proof (rounds_nonneg fl (pct / 5) Hfl) as Hq.
  unfold range_low, range_high, half_ulp in *.
  assert (pct / 5 == 0 ∨ (1 # 18446744073709551616) <= pct / 5 <= 18446744073709551616)
    as Hrange by (destruct Hlow; [left|right]; lra).
  specialize (Hq Hrange).
  apply Math_round_bounds.
  - change (inject_Z 0) with 0. destruct Hlow; lra.
  - change (inject_Z 20) with 20. destruct Hlow; lra.
Qed.

(** X16. The range of the progress bar. With the rounding of doubles,
    [progressBar] returns a bar of 20 cells between brackets for a
    percentage from 0 to 102 (zero, or no smaller than 5 * 2^-64), the
    full cells first, one for every 5 percent, rounded; from 103 on and
    from -3 down [repeat] throws. *)
Theorem progressBar_range (fl : Q → Q) (pct : Q) :
  rounds_to_double fl →
  ((pct == 0 ∨ 5 * range_low <= pct) → pct <= 102 →
   ∃ filled : nat,
     (filled ≤ 20)%nat
     ∧ Z.of_nat filled = Math_round (fl (pct / 5))
     ∧ progressBar fl pct = Some (bar filled))
  ∧ (103 <= pct <= range_high → progressBar fl pct = None)
  ∧ (- range_high <= pct <= -3 → progressBar fl pct = None).
Proof.
  intros Hfl. split; [|split].
  - intros Hlow Hhigh.
    pose proof (fifth_filled fl pct Hfl Hlow Hhigh) as Hf.
    exists (Z.to_nat (Math_round (fl (pct / 5)))).
    split; [lia|]. split; [lia|]. by apply progressBar_filled.
  - intros Hbig. apply (progressBar_throws _ _ _ eq_refl). right.
    assert (pct / 5 == pct * (1 # 5)) as Hdiv by (field; lra).
    pose proof (rounds_nonneg fl (pct / 5) Hfl) as Hq.
    unfold range_low, range_high, half_ulp in *.
    specialize (Hq ltac:(right; lra)).
    unfold Math_round.
    assert (inject_Z 21 <= fl (pct / 5) + (1 # 2)) as H21.
    { change (inject_Z 21) with 21. lra. }
    apply Qfloor_resp_le in H21. rewrite Qfloor_Z in H21. lia.
  - intros Hneg. apply (progressBar_throws _ _ _ eq_refl). left.
    assert (pct / 5 == pct * (1 # 5)) as Hdiv by (field; lra).
    pose proof (Hfl (pct / 5)) as Hq.
    unfold range_low, range_high, half_ulp in *.
    assert (Qabs (pct / 5) == - (pct / 5)) as Habs by (apply Qabs_neg; lra).
    rewrite Habs in Hq. specialize (Hq ltac:(right; lra)).
    apply Qabs_Qle_condition in Hq.
    unfold Math_round.
    assert (fl (pct / 5) + (1 # 2) <= inject_Z (-1) + (19 # 20)) as Hm.
    { change (inject_Z (-1)) with (-1). lra. }
    apply Qfloor_resp_le in Hm.
    assert (Qfloor (inject_Z (-1) + (19 # 20)) = (-1)%Z) as Hf by (vm_compute; reflexivity).
    lia.
Qed.

Lemma progressBar_range_witness :
  (((50 : Q) == 0 ∨ 5 * range_low <= 50) → (50 : Q) <= 102 →
   ∃ filled : nat,
     (filled ≤ 20)%nat
     ∧ Z.of_nat filled = Math_round (50 / 5)
     ∧ progressBar (λ x, x) 50 = Some (bar filled))
  ∧ (103 <= (50 : Q) <= range_high → progressBar (λ x, x) 50 = None)
  ∧ (- range_high <= (50 : Q) <= -3 → progressBar (λ x, x) 50 = None).
Proof.
  apply (progressBar_range (λ x, x) 50). exact exact_rounds_to_double.
Defined.

(** X17. The bar of a run. With the rounding of doubles and fewer than
    2^40 keys, [progressBar] does not throw on the completion of a run
    that returns: the line [syncLanguage] prints has its bar of 20
    cells. *)
Theorem progressBar_of_completion (fl : Q → Q) (fs : filesystem) (lang : jsstring)
    (enContent : source) (fs' : filesystem) (st : stats) :
  rounds_to_double fl →
  (total_of enContent < 2 ^ 40)%Z →
  syncLanguage fl fs lang enContent = Returns (fs', st) →
  ∃ filled : nat, (filled ≤ 20)%nat ∧ progressBar fl (completion st) = Some (bar filled).
Proof.
  intros Hfl Hsize Hrun. apply syncLanguage_stats in Hrun as ->.
  destruct (stats_of_counts fl enContent (candidate fs lang)) as (Hu & Ht & ->).
  set (st := stats_of fl enContent (candidate fs lang)) in *.
  set (n := total_of enContent) in *. set (u := untranslated st) in *.
  rewrite Ht.
  assert (∀ pct, (pct == 0 ∨ 5 * range_low <= pct) → pct <= 102 →
                 ∃ filled : nat, (filled ≤ 20)%nat ∧ progressBar fl pct = Some (bar filled))
    as Hbar.
  { intros pct Hlow Hhigh.
    pose proof (fifth_filled fl pct Hfl Hlow Hhigh) as Hf.
    exists (Z.to_nat (Math_round (fl (pct / 5)))).
    split; [lia|]. by apply progressBar_filled. }
  unfold completion_of. destruct (Z.ltb_spec 0 n) as [Hn|Hn].
  - pose proof (tenths_bounds fl (n - u) n Hfl) as Hk. cbv zeta in Hk.
    specialize (Hk ltac:(lia) ltac:(lia)).
    set (k := Math_round _) in *.
    assert (0 <= k <= 1000)%Z as Hkr by nia.
    assert (0 <= inject_Z k <= 1000) as HK.
    { split.
      - change 0 with (inject_Z 0). apply inject_Z_le. lia.
      - change 1000 with (inject_Z 1000). apply inject_Z_le. lia. }
    assert (k ≠ 0%Z → 1 <= inject_Z k) as HK1.
    { intros Hne. change 1 with (inject_Z 1). apply inject_Z_le. lia. }
    assert (inject_Z k / 10 == inject_Z k * (1 # 10)) as Hdiv by (field; lra).
    pose proof (rounds_nonneg fl (inject_Z k / 10) Hfl) as Hq.
    unfold range_low, range_high, half_ulp in *.
    destruct (Z.eq_dec k 0%Z) as [Hz|Hne].
    + assert (inject_Z k == 0) as HK0 by (rewrite Hz; reflexivity).
      specialize (Hq ltac:(left; lra)). apply Hbar; [left|]; lra.
    + specialize (HK1 Hne). specialize (Hq ltac:(right; lra)).
      apply Hbar; [right|]; lra.
  - apply Hbar; [right|]; unfold range_low; lra.
Qed.

Lemma progressBar_of_completion_witness :
  let enContent : source := [(str "greeting", str "Hello"); (str "farewell", str "Goodbye")] in
  let fs : filesystem :=
    {[ de := ParsesTo (VObject [(str "greeting", VString (str "Hallo"))]) ]} in
  let st := stats_of (λ x, x) enContent (candidate fs de) in
  ∃ filled : nat, (filled ≤ 20)%nat ∧ progressBar (λ x, x) (completion st) = Some (bar filled).
Proof.
  intros enContent fs st.
  apply (progressBar_of_completion (λ x, x) fs de enContent
           (<[de := ParsesTo (VObject (merged_of enContent (candidate fs de)))]> fs) st).
  - exact exact_rounds_to_double.
  - vm_compute. reflexivity.
  - apply syncLanguage_coercible. vm_compute. reflexivity.
Defined.
Local Close Scope Q_scope.

(** ** [main] of the synchronizer *)

(** A run reads one file only, the one of its language, and writes that
    one. *)
Lemma syncLanguage_shape (fl : Q → Q) (fs : filesystem) (lang : jsstring)
    (enContent : source) :
  ∃ r : outcome (object * stats),
    ∀ fs2 : filesystem, fs2 !! lang = fs !! lang →
      syncLanguage fl fs2 lang enContent
      = match r with
        | Returns (o, st) => Returns (<[lang := ParsesTo (VObject o)]> fs2, st)
        | Throws e => Throws e
        end.
Proof.
  destruct (coercible (candidate fs lang)) eqn:Hc.
  - exists (Returns (merged_of enContent (candidate fs lang),
                     stats_of fl enContent (candidate fs lang))).
    intros fs2 Hsame.
    assert (candidate fs2 lang = candidate fs lang) as Hcand
      by (unfold candidate; by rewrite Hsame).
    rewrite syncLanguage_coercible by by rewrite Hcand. by rewrite Hcand.
  - destruct enContent as [|kv o].
    + eexists (Returns ([], _)). intros fs2 _. apply syncLanguage_no_keys.
    + destruct (syncLanguage_not_coercible fl fs lang (kv :: o) Hc) as [e He]; [done|].
      exists (Throws e). intros fs2 Hsame.
      unfold syncLanguage in He |- *. rewrite Hsame.
      by destruct (for_of _ _ _).
Qed.

Lemma syncLanguage_same_file (fl : Q → Q) (fs1 fs2 : filesystem) (lang : jsstring)
    (enContent : source) :
  fs1 !! lang = fs2 !! lang →
  (∀ fs1' st, syncLanguage fl fs1 lang enContent = Returns (fs1', st) →
     ∃ fs2', syncLanguage fl fs2 lang enContent = Returns (fs2', st)
             ∧ fs1' !! lang = fs2' !! lang)
  ∧ (∀ e, syncLanguage fl fs1 lang enContent = Throws e →
       syncLanguage fl fs2 lang enContent = Throws e).
Proof.
  intros Hsame. destruct (syncLanguage_shape fl fs1 lang enContent) as [r Hr].
  rewrite (Hr fs1 eq_refl), (Hr fs2 (eq_sym Hsame)).
  destruct r as [[o st0]|e0]; split; try done.
  - intros fs1' st [= <- <-]. eexists. split; [done|]. by rewrite !lookup_insert_eq.
Qed.

Lemma syncLanguage_other_files (fl : Q → Q) (fs : filesystem) (lang : jsstring)
    (enContent : source) (fs' : filesystem) (st : stats) (other : jsstring) :
  syncLanguage fl fs lang enContent = Returns (fs', st) → other ≠ lang →
  fs' !! other = fs !! other.
Proof.
  intros Hrun Hother. destruct (syncLanguage_shape fl fs lang enContent) as [r Hr].
  rewrite (Hr fs eq_refl) in Hrun. destruct r as [[o st0]|e0]; [|done].
  injection Hrun as <- _. by rewrite lookup_insert_ne.
Qed.

(** The loop of [main], for distinct languages: every language is
    synchronized as if it were alone. *)
Lemma sync_each_runs fl enContent langs :
  NoDup langs →
  ∀ fs entries fs' res,
    sync_each fl enContent langs fs entries = (fs', res) →
    match res with
    | Returns all =>
        ∃ sts, all = entries ++ sts ∧ sts.*1 = langs
          ∧ (∀ lang st, (lang, st) ∈ sts →
               ∃ fs_l, syncLanguage fl fs lang enContent = Returns (fs_l, st)
                       ∧ fs' !! lang = fs_l !! lang)
          ∧ (∀ other, other ∉ langs → fs' !! other = fs !! other)
    | Throws e =>
        ∃ before lang after, langs = before ++ lang :: after
          ∧ syncLanguage fl fs lang enContent = Throws e
          ∧ (∀ l, l ∈ before →
               ∃ fs_l st, syncLanguage fl fs l enContent = Returns (fs_l, st)
                          ∧ fs' !! l = fs_l !! l)
          ∧ (∀ other, other ∉ before → fs' !! other = fs !! other)
    end.
Proof.
  induction langs as [|lang rest IH]; intros Hnd fs entries fs' res Hrun.
  - cbn in Hrun. injection Hrun as <- <-. exists []. rewrite app_nil_r.
    split; [done|]. split; [done|]. split; [|done].
    intros lang st Hin. by apply elem_of_nil in Hin.
  - apply NoDup_cons in Hnd as [Hfresh Hnd]. cbn [sync_each] in Hrun.
    destruct (syncLanguage fl fs lang enContent) as [[fs1 st1]|e1] eqn:Hlang; cycle 1.
    { injection Hrun as <- <-. exists [], lang, rest.
      split; [done|]. split; [done|]. split; [|done].
      intros l Hin. by apply elem_of_nil in Hin. }
    assert (∀ other, other ≠ lang → fs1 !! other = fs !! other) as Hframe.
    { intros other. by apply (syncLanguage_other_files fl fs lang enContent fs1 st1). }
    specialize (IH Hnd fs1 (entries ++ [(lang, st1)]) fs' res Hrun).
    destruct res as [all|e].
    + destruct IH as (sts & -> & Hlangs & Heach & Hothers).
      exists ((lang, st1) :: sts). split; [by rewrite <- app_assoc|].
      split; [cbn; by rewrite Hlangs|]. split.
      * intros l st [[= -> ->]|Hin]%elem_of_cons.
        -- exists fs1. split; [done|]. by apply Hothers.
        -- assert (l ∈ rest) as Hl.
           { rewrite <- Hlangs. apply list_elem_of_fmap. by exists (l, st). }
           assert (l ≠ lang) as Hne by (intros ->; by apply Hfresh).
           destruct (Heach l st Hin) as (fs_l & Hl1 & Hfile).
           destruct (syncLanguage_same_file fl fs1 fs l enContent (Hframe l Hne))
             as [Hret _].
           destruct (Hret _ _ Hl1) as (fs2' & Hl2 & Hsame).
           exists fs2'. split; [done|]. by rewrite Hfile.
      * intros other [Hne Hout]%not_elem_of_cons.
        rewrite (Hothers other Hout). by apply Hframe.
    + destruct IH as (before & l & after & -> & Hthrow & Heach & Hothers).
      assert (l ≠ lang) as Hne.
      { intros ->. apply Hfresh. rewrite elem_of_app, elem_of_cons. by right; left. }
      exists (lang :: before), l, after. split; [done|]. split.
      { by apply (syncLanguage_same_file fl fs1 fs l enContent (Hframe l Hne)). }
      split.
      * intros l' [->|Hin]%elem_of_cons.
        -- exists fs1, st1. split; [done|]. apply Hothers.
           intros Hin. apply Hfresh. rewrite elem_of_app. by left.
        -- assert (l' ≠ lang) as Hne'.
           { intros ->. apply Hfresh. rewrite elem_of_app. by left. }
           destruct (Heach l' Hin) as (fs_l & st & Hl1 & Hfile).
           destruct (syncLanguage_same_file fl fs1 fs l' enContent (Hframe l' Hne'))
             as [Hret _].
           destruct (Hret _ _ Hl1) as (fs2' & Hl2 & Hsame).
           exists fs2', st. split; [done|]. by rewrite Hfile.
      * intros other [Hne' Hout]%not_elem_of_cons.
        rewrite (Hothers other Hout). by apply Hframe.
Qed.

Lemma NoDup_LANGUAGES : NoDup LANGUAGES.
Proof. by_computation. Qed.

Lemma report_name_not_a_language : report_name ∉ LANGUAGES.
Proof. by_computation. Qed.

(** X18. What [main] leaves when it finishes. The report has the time, the
    number of keys of the source, and one entry for each of [LANGUAGES], in
    that order; every entry holds the stats [syncLanguage] returns for
    that language on the files as they were, and the file of that language
    is the one that run writes. [report.json] holds the report. The files
    of other names are as they were. *)
Theorem main_report (fl : Q → Q) (now : jsstring) (enContent : source)
    (fs fs' : filesystem) (report : sync_report) :
  main fl now (Some enContent) fs = (fs', Done report) →
  generated report = now
  ∧ totalKeys report = total_of enContent
  ∧ (languages report).*1 = LANGUAGES
  ∧ (∀ lang st, (lang, st) ∈ languages report →
       ∃ fs_l, syncLanguage fl fs lang enContent = Returns (fs_l, st)
               ∧ fs' !! lang = fs_l !! lang)
  ∧ fs' !! report_name = Some (ParsesTo (report_value report))
  ∧ (∀ other, other ∉ LANGUAGES → other ≠ report_name → fs' !! other = fs !! other).
Proof.
  unfold main. cbv zeta.
  destruct (sync_each fl enContent LANGUAGES fs []) as [fs1 [all|e]] eqn:Hloop; [|done].
  intros [= <- <-]. cbn [generated totalKeys languages].
  pose proof (sync_each_runs fl enContent LANGUAGES NoDup_LANGUAGES _ _ _ _ Hloop) as Hspec.
  cbn beta iota in Hspec. destruct Hspec as (sts & -> & Hlangs & Heach & Hothers).
  rewrite app_nil_l. split; [done|]. split; [done|]. split; [done|]. split; [|split].
  - intros lang st Hin. destruct (Heach lang st Hin) as (fs_l & Hrun & Hfile).
    exists fs_l. split; [done|]. rewrite lookup_insert_ne; [done|].
    intros <-. apply report_name_not_a_language. rewrite <- Hlangs.
    apply list_elem_of_fmap. by exists (report_name, st).
  - by rewrite lookup_insert_eq.
  - intros other Hother Hreport. rewrite lookup_insert_ne by done. by apply Hothers.
Qed.

Lemma main_report_witness :
  let enContent : source := [(str "greeting", str "Hello")] in
  let now := str "2024-01-01T00:00:00.000Z" in
  let fs : filesystem := {[ report_name := ParsesTo VNull ]} in
  let report :=
    {| generated := now; totalKeys := 1;
       languages := (λ lang, (lang, stats_of (λ x, x) enContent (VObject []))) <$> LANGUAGES |} in
  let fs' : filesystem :=
    <[report_name := ParsesTo (report_value report)]>
      (list_to_map
         ((λ lang, (lang, ParsesTo (VObject [(str "greeting", VString (str "Hello"))])))
            <$> LANGUAGES)) in
  generated report = now
  ∧ totalKeys report = total_of enContent
  ∧ (languages report).*1 = LANGUAGES
  ∧ (∀ lang st, (lang, st) ∈ languages report →
       ∃ fs_l, syncLanguage (λ x, x) fs lang enContent = Returns (fs_l, st)
               ∧ fs' !! lang = fs_l !! lang)
  ∧ fs' !! report_name = Some (ParsesTo (report_value report))
  ∧ (∀ other, other ∉ LANGUAGES → other ≠ report_name → fs' !! other = fs !! other).
Proof.
  intros enContent now fs report fs'.
  apply (main_report (λ x, x) now enContent fs fs' report).
  vm_compute. reflexivity.
Defined.

(** X19. What [main] leaves when [syncLanguage] throws. The exception is
    that of the first language whose run throws on the files as they were;
    the files of the languages before it are rewritten, as their runs
    write them, every other file is as it was, and there is no report. *)
Theorem main_stops_at_first_throw (fl : Q → Q) (now : jsstring) (enContent : source)
    (fs fs' : filesystem) (e : js_error) :
  main fl now (Some enContent) fs = (fs', Uncaught e) →
  ∃ before lang after,
    LANGUAGES = before ++ lang :: after
    ∧ syncLanguage fl fs lang enContent = Throws e
    ∧ (∀ l, l ∈ before →
         ∃ fs_l st, syncLanguage fl fs l enContent = Returns (fs_l, st)
                    ∧ fs' !! l = fs_l !! l)
    ∧ (∀ other, other ∉ before → fs' !! other = fs !! other).
Proof.
  unfold main. cbv zeta.
  destruct (sync_each fl enContent LANGUAGES fs []) as [fs1 [all|e1]] eqn:Hloop; [done|].
  intros [= <- <-].
  exact (sync_each_runs fl enContent LANGUAGES NoDup_LANGUAGES _ _ _ _ Hloop).
Qed.

Lemma main_stops_at_first_throw_witness :
  let enContent : source := [(str "greeting", str "Hello")] in
  let fs : filesystem := {[ str "es" := ParsesTo VNull ]} in
  let fs' : filesystem :=
    <[de := ParsesTo (VObject [(str "greeting", VString (str "Hello"))])]> fs in
  let e := TypeError (str "Cannot convert undefined or null to object") in
  ∃ before lang after,
    LANGUAGES = before ++ lang :: after
    ∧ syncLanguage (λ x, x) fs lang enContent = Throws e
    ∧ (∀ l, l ∈ before →
         ∃ fs_l st, syncLanguage (λ x, x) fs l enContent = Returns (fs_l, st)
                    ∧ fs' !! l = fs_l !! l)
    ∧ (∀ other, other ∉ before → fs' !! other = fs !! other).
Proof.
  intros enContent fs fs' e.
  apply (main_stops_at_first_throw (λ x, x) (str "2024-01-01T00:00:00.000Z")
           enContent fs fs' e).
  vm_compute. reflexivity.
Defined.

(** X20. How [main] ends. It exits with code 1, the files untouched, exactly
    when there is no [en.json]. With a source, it finishes with a report
    exactly when the source has no key or no file of [LANGUAGES] holds
    [null]; otherwise it ends on the exception. *)
Theorem main_ends (fl : Q → Q) (now : jsstring) (en_file : option source) (fs : filesystem) :
  (en_file = None ↔ main fl now en_file fs = (fs, Exit 1))
  ∧ ∀ enContent, en_file = Some enContent →
      ((∃ fs' report, main fl now en_file fs = (fs', Done report))
       ↔ enContent = []
         ∨ ∀ lang, lang ∈ LANGUAGES →
             fs !! lang ≠ Some (ParsesTo VNull) ∧ fs !! lang ≠ Some (ParsesTo VUndefined))
      ∧ ((∃ fs' e, main fl now en_file fs = (fs', Uncaught e))
         ∨ ∃ fs' report, main fl now en_file fs = (fs', Done report)).
Proof.
  split.
  - split; [by intros ->|]. destruct en_file as [enContent|]; [|done].
    unfold main. cbv zeta.
    by destruct (sync_each fl enContent LANGUAGES fs []) as [fs1 [all|e1]].
  - intros enContent ->. unfold main. cbv zeta.
    destruct (sync_each fl enContent LANGUAGES fs []) as [fs1 [all|e1]] eqn:Hloop.
    + pose proof (sync_each_runs fl enContent LANGUAGES NoDup_LANGUAGES _ _ _ _ Hloop)
        as Hspec.
      cbn beta iota in Hspec. destruct Hspec as (sts & -> & Hlangs & Heach & Hothers).
      split; [|right; by eexists _, _]. split; [|by eexists _, _].
      intros _. destruct enContent as [|kv o]; [by left|right].
      intros lang Hin. rewrite <- Hlangs in Hin.
      apply list_elem_of_fmap in Hin as ([l st] & -> & Hin).
      destruct (Heach l st Hin) as (fs_l & Hrun & _).
      destruct (proj1 (syncLanguage_returns_iff fl fs l (kv :: o))) as [Hok|Hempty];
        [by eexists|done|done].
    + pose proof (sync_each_runs fl enContent LANGUAGES NoDup_LANGUAGES _ _ _ _ Hloop)
        as Hspec.
      cbn beta iota in Hspec.
      destruct Hspec as (before & lang & after & Hsplit & Hthrow & _).
      split; [|left; by eexists _, _]. split; [by intros (? & ? & [=])|].
      intros Hall.
      assert (∃ r, syncLanguage fl fs lang enContent = Returns r) as [r Hr].
      { apply syncLanguage_returns_iff. destruct Hall as [->|Hall]; [by right|left].
        apply Hall. rewrite Hsplit, elem_of_app, elem_of_cons. by right; left. }
      by rewrite Hr in Hthrow.
Qed.

(** ** The matcher and the strings of a pattern *)

Lemma take_add_drop {A} (j r : nat) (s : list A) :
  take (j + r) s = take j s ++ take r (drop j s).
Proof.
  revert s. induction j as [|j IH]; intros s; [done|].
  destruct s as [|c s]; cbn; [by destruct r|]. by rewrite IH.
Qed.

(** A repetition that matches has taken [j] code units of the atom, within
    its bounds, before what the rest of the pattern matches. *)
Lemma many_sound ic a rest s min max n :
  many ic a rest s min max = Some n →
  ∃ j r, n = (j + r)%nat ∧ (min ≤ j ≤ length s)%nat
         ∧ (∀ m, max = Some m → (j ≤ m)%nat)
         ∧ Forall (λ c, atom_matches ic a c = true) (take j s)
         ∧ rest (drop j s) = Some r.
Proof.
  revert min max n. induction s as [|c s IH]; intros min max n.
  - cbn. destruct min; [|done]. intros Hn. exists O, n.
    split; [done|]. split; [done|]. split; [intros; lia|]. split; [constructor|done].
  - cbn [many].
    assert (match min with O => rest (c :: s) | S _ => None end = Some n →
            ∃ j r, n = (j + r)%nat ∧ (min ≤ j ≤ length (c :: s))%nat
                   ∧ (∀ m, max = Some m → (j ≤ m)%nat)
                   ∧ Forall (λ c, atom_matches ic a c = true) (take j (c :: s))
                   ∧ rest (drop j (c :: s)) = Some r) as Hstop.
    { destruct min; [|done]. intros Hn. exists O, n.
      split; [done|]. split; [cbn; lia|]. split; [intros; lia|].
      split; [constructor|done]. }
    destruct (atom_matches ic a c) eqn:Hc; [|done].
    destruct (bool_decide (max = Some O)) eqn:Hmax; [done|].
    apply bool_decide_eq_false in Hmax. cbn [andb negb].
    destruct (many ic a rest s (pred min) (pred <$> max)) as [n'|] eqn:Hrec; [|done].
    intros [= <-]. destruct (IH _ _ _ Hrec) as (j & r & -> & Hj & Hm & Hall & Hrest).
    exists (S j), r. split; [done|]. split; [cbn; lia|]. split.
    + intros m ->. specialize (Hm (pred m) eq_refl).
      destruct m; [done|]. cbn in Hm. lia.
    + split; [by constructor|done].
Qed.

(** A repetition finds a match whenever some run within its bounds leaves
    the rest of the pattern a match: being greedy does not lose any. *)
Lemma many_complete ic a rest s min max j :
  (min ≤ j ≤ length s)%nat → (∀ m, max = Some m → (j ≤ m)%nat) →
  Forall (λ c, atom_matches ic a c = true) (take j s) →
  is_Some (rest (drop j s)) →
  is_Some (many ic a rest s min max).
Proof.
  revert min max j. induction s as [|c s IH]; intros min max j Hj Hm Hall Hrest.
  - cbn in Hj. assert (j = O) as -> by lia. assert (min = O) as -> by lia. done.
  - cbn [many]. destruct j as [|j].
    + assert (min = O) as -> by lia. cbn in Hrest.
      destruct (atom_matches ic a c && negb (bool_decide (max = Some O))); [|done].
      by destruct (many ic a rest s (pred 0) (pred <$> max)).
    + cbn in Hall, Hrest, Hj. apply Forall_cons in Hall as [Hc Hall]. rewrite Hc.
      rewrite bool_decide_eq_false_2; cycle 1.
      { intros ->. specialize (Hm O eq_refl). lia. }
      cbn [andb negb].
      destruct (IH (pred min) (pred <$> max) j) as [n Hn]; [lia| |done|done|].
      * intros m' Hm'. destruct max as [m|]; [|done]. injection Hm' as <-.
        specialize (Hm m eq_refl). lia.
      * by rewrite Hn.
Qed.

Lemma match_here_sound ic e toks s n :
  match_here ic e toks s = Some n →
  (n ≤ length s)%nat ∧ derives ic toks (take n s) ∧ (e = true → n = length s).
Proof.
  revert s n. induction toks as [|[a|a min max] toks IH]; intros s n.
  - cbn. destruct e.
    + destruct s; [|done]. intros [= <-]. split; [done|]. split; [constructor|done].
    + intros [= <-]. split; [lia|]. split; [rewrite take_0; constructor|done].
  - cbn [match_here]. destruct s as [|c s]; [done|].
    destruct (atom_matches ic a c) eqn:Hc; [|done].
    destruct (match_here ic e toks s) as [n'|] eqn:Hrec; [|done].
    intros [= <-]. destruct (IH _ _ Hrec) as (Hle & Hd & He).
    split; [cbn; lia|]. split; [by constructor|]. intros ->. cbn. by rewrite He.
  - cbn [match_here]. intros (j & r & -> & Hj & Hm & Hall & Hrest)%many_sound.
    destruct (IH _ _ Hrest) as (Hle & Hd & He). rewrite length_drop in Hle, He.
    split; [lia|]. split; [|intros ->; specialize (He eq_refl); lia].
    rewrite take_add_drop. constructor; [done| | |done].
    + rewrite length_take. lia.
    + intros m Hmax. rewrite length_take. specialize (Hm m Hmax). lia.
Qed.

Lemma match_here_complete ic e toks found after :
  derives ic toks found → (e = true → after = []) →
  is_Some (match_here ic e toks (found ++ after)).
Proof.
  intros Hd He. induction Hd as [|a toks c s Hc Hd IH|a min max toks run s Hall Hmin Hmax Hd IH].
  - cbn. destruct e; [by rewrite He|done].
  - cbn [match_here app]. rewrite Hc. destruct IH as [n ->]. by eexists.
  - cbn [match_here]. rewrite <- app_assoc.
    apply (many_complete _ _ _ _ _ _ (length run)).
    + rewrite length_app. lia.
    + done.
    + by rewrite take_app_length.
    + by rewrite drop_app_length.
Qed.

(** X21. The matcher finds what the pattern stands for. For every pattern,
    [test] is true of a string exactly when the string holds a string of
    the pattern, one code unit for each atom and a run within its bounds
    for each repetition, at the start and up to the end where the pattern
    is anchored. That a repetition is greedy changes no answer. So it is
    for the nine detectors, for the control characters and for the
    language code. *)
Theorem test_finds_matches (re : regex) (s : jsstring) :
  test re s = true ↔ holds_match re s.
Proof.
  unfold test, holds_match. destruct (at_start re) eqn:Hstart.
  - rewrite bool_decide_eq_true. unfold matches_here. split.
    + intros [n Hn]. destruct (match_here_sound _ _ _ _ _ Hn) as (Hle & Hd & He).
      exists [], (take n s), (drop n s). rewrite app_nil_l, take_drop.
      split; [done|]. split; [done|]. split; [done|].
      intros Hend. rewrite (He Hend). by rewrite drop_all.
    + intros (before & found & after & -> & Hd & Hb & He).
      rewrite (Hb eq_refl), app_nil_l. by apply match_here_complete.
  - split.
    + intros (before & rest & n & -> & Hn)%search_true. unfold matches_here in Hn.
      destruct (match_here_sound _ _ _ _ _ Hn) as (Hle & Hd & He).
      exists before, (take n rest), (drop n rest). rewrite take_drop.
      split; [done|]. split; [done|]. split; [done|].
      intros Hend. rewrite (He Hend). by rewrite drop_all.
    + intros (before & found & after & -> & Hd & _ & He).
      destruct (match_here_complete (ignoreCase re) (at_end re) _ _ after Hd He) as [n Hn].
      by apply (search_found re before (found ++ after) n).
Qed.

(** ** The warnings of a value *)

(** X22. When a value gets a warning. In a file that is not reserved and
    parses to an object, whose keys are distinct, a key of the source
    whose value is a string gets the warning [Value is empty] exactly when
    the value is white space throughout, the empty string too, and the
    value of the source is not; and it gets the warning about its length
    exactly when it is within the cap and more than ten times as long as a
    non-empty value of the source, with the ratio of the two lengths
    rounded. *)
Theorem warnings_of_a_value (file : submitted_file) (enContent : source)
    (content : object) (key enValue value : jsstring) :
  basename file ≠ en_json → basename file ≠ report_json →
  text file = ParsesTo (VObject content) →
  NoDup (Object_keys content) →
  own enContent key = Some enValue → (key, VString value) ∈ content →
  (EmptyValue key ∈ warnings (validate file enContent)
   ↔ Forall (λ c, is_space c = true) value ∧ ¬ Forall (λ c, is_space c = true) enValue)
  ∧ (∀ ratio, MuchLonger key ratio ∈ warnings (validate file enContent)
       ↔ (length value ≤ MAX_LENGTH)%nat
         ∧ (0 < length enValue)%nat
         ∧ (length enValue * MAX_LENGTH_RATIO < length value)%nat
         ∧ ratio = Math_round (inject_Z (Z.of_nat (length value))
                               / inject_Z (Z.of_nat (length enValue)))).
Proof.
  intros Hen Hreport Htext Hnd Hown Hentry.
  assert (∀ m, warning_key m = Some key →
            m ∈ warnings (validate file enContent)
            ↔ m ∈ entry_warnings enContent (key, VString value)) as Hkey.
  { intros m Hm. split.
    - intros Hin. by apply (warnings_of_key file enContent content key (VString value) m).
    - intros Hin. rewrite warnings_validate, Htext.
      rewrite decide_False by naive_solver.
      apply elem_of_flat_map. by exists (key, VString value). }
  assert (∀ m, m ∈ entry_warnings enContent (key, VString value)
            ↔ m ∈ (if trim_is_empty value && negb (trim_is_empty enValue)
                   then [EmptyValue key] else [])
              ∨ m ∈ (if (MAX_LENGTH <? length value)%nat then []
                     else if (0 <? length enValue)%nat
                             && (length enValue * MAX_LENGTH_RATIO <? length value)%nat
                     then [MuchLonger key
                             (Math_round (inject_Z (Z.of_nat (length value))
                                          / inject_Z (Z.of_nat (length enValue))))]
                     else [])) as Hparts.
  { intros m. unfold entry_warnings. cbn [fst snd]. rewrite Hown. apply elem_of_app. }
  split.
  - rewrite (Hkey (EmptyValue key) eq_refl), Hparts, <- !trim_is_empty_Forall.
    destruct (trim_is_empty value), (trim_is_empty enValue); cbn [andb negb];
      repeat case_match; rewrite ?elem_of_nil, ?list_elem_of_singleton; naive_solver.
  - intros ratio. rewrite (Hkey (MuchLonger key ratio) eq_refl), Hparts.
    destruct (trim_is_empty value && negb (trim_is_empty enValue));
      destruct (Nat.ltb_spec MAX_LENGTH (length value));
      destruct (Nat.ltb_spec 0 (length enValue));
      destruct (Nat.ltb_spec (length enValue * MAX_LENGTH_RATIO) (length value));
      cbn [andb]; rewrite ?elem_of_nil, ?list_elem_of_singleton;
      (split;
       [intros [Heq|Heq]; try done; injection Heq as ->; repeat split; (done || lia)
       |intros (Hcap & Hpos & Hlong & ->); first [by right|exfalso; lia]]).
Qed.

Lemma warnings_of_a_value_witness :
  let content : object := [(str "k", VString (str "  "))] in
  let file := {| basename := str "fr.json"; text := ParsesTo (VObject content) |} in
  let enContent : source := [(str "k", str "Hello")] in
  (EmptyValue (str "k") ∈ warnings (validate file enContent)
   ↔ Forall (λ c, is_space c = true) (str "  ")
     ∧ ¬ Forall (λ c, is_space c = true) (str "Hello"))
  ∧ (∀ ratio, MuchLonger (str "k") ratio ∈ warnings (validate file enContent)
       ↔ (length (str "  ") ≤ MAX_LENGTH)%nat
         ∧ (0 < length (str "Hello"))%nat
         ∧ (length (str "Hello") * MAX_LENGTH_RATIO < length (str "  "))%nat
         ∧ ratio = Math_round (inject_Z (Z.of_nat (length (str "  ")))
                               / inject_Z (Z.of_nat (length (str "Hello"))))).
Proof.
  intros content file enContent.
  apply (warnings_of_a_value file enContent content (str "k") (str "Hello") (str "  ")).
  - by_computation.
  - by_computation.
  - reflexivity.
  - by_computation.
  - reflexivity.
  - left.
Defined.

(** ** The validator on what the synchronizer writes *)

Lemma syncLanguage_written (fl : Q → Q) (fs : filesystem) (lang : jsstring)
    (enContent : source) (fs' : filesystem) (st : stats) :
  syncLanguage fl fs lang enContent = Returns (fs', st) →
  ∃ c, fs' = <[lang := ParsesTo (VObject (merged_of enContent c))]> fs.
Proof.
  intros Hrun. destruct (coercible (candidate fs lang)) eqn:Hc.
  - rewrite syncLanguage_coercible in Hrun by done. injection Hrun as <- _. by eexists.
  - destruct enContent as [|kv o].
    + rewrite syncLanguage_no_keys in Hrun. injection Hrun as <- _.
      by exists (VObject []).
    + destruct (syncLanguage_not_coercible fl fs lang (kv :: o) Hc) as [e He]; [done|].
      by rewrite He in Hrun.
Qed.

(** X23. A synchronized file has the keys the validator wants. For a source
    whose keys are distinct and not [__proto__], the file a run that returns
    writes is an object for which the validator, under whatever name the
    file is submitted, has no [Missing key] and no [Unknown key] error. *)
Theorem synced_file_has_the_keys (fl : Q → Q) (fs : filesystem) (lang : jsstring)
    (enContent : source) (fs' : filesystem) (st : stats) :
  NoDup (Object_keys enContent) → proto_key ∉ Object_keys enContent →
  syncLanguage fl fs lang enContent = Returns (fs', st) →
  ∃ content,
    fs' !! lang = Some (ParsesTo (VObject content))
    ∧ ∀ name m,
        m ∈ errors (validate {| basename := name; text := ParsesTo (VObject content) |}
                      enContent) →
        (∀ key, m ≠ MissingKey key) ∧ (∀ key, m ≠ UnknownKey key).
Proof.
  intros Hnd Hproto [c ->]%syncLanguage_written.
  exists (merged_of enContent c). rewrite lookup_insert_eq. split; [done|].
  assert (∀ key, key ∈ Object_keys (merged_of enContent c) ↔ key ∈ Object_keys enContent)
    as Hkeys.
  { intros key. rewrite merged_of_keys. split; [by intros [? _]|].
    intros Hin. split; [done|]. by intros ->. }
  intros name m.
  set (file := {| basename := name; text := ParsesTo (VObject (merged_of enContent c)) |}).
  destruct (decide (name = en_json)) as [->|Hen].
  { intros Hm. apply list_elem_of_singleton in Hm as ->. done. }
  destruct (decide (name = report_json)) as [->|Hreport].
  { intros Hm. apply list_elem_of_singleton in Hm as ->. done. }
  rewrite (errors_validate_object file enContent _ Hen Hreport eq_refl), !elem_of_app.
  intros [Hm|[Hm|[Hm|Hm]]].
  - unfold name_errors in Hm. destruct (test _ _); [by apply elem_of_nil in Hm|].
    by apply list_elem_of_singleton in Hm as ->.
  - apply list_elem_of_fmap in Hm as (key & -> & Hin).
    apply elem_of_missing_keys in Hin as [Hin Hout]. by apply Hkeys in Hin.
  - apply list_elem_of_fmap in Hm as (key & -> & Hin).
    apply elem_of_unknown_keys in Hin as [Hin Hout]. by apply Hkeys in Hin.
  - split; intros key ->; by apply (not_entry_error enContent (merged_of enContent c)) in Hm.
Qed.

Lemma synced_file_has_the_keys_witness :
  let enContent : source := [(str "greeting", str "Hello"); (str "farewell", str "Goodbye")] in
  let fs : filesystem :=
    {[ de := ParsesTo (VObject [(str "greeting", VString (str "Hallo"));
                                (str "old", VString (str "alt"))]) ]} in
  let fs' := <[de := ParsesTo (VObject (merged_of enContent (candidate fs de)))]> fs in
  ∃ content,
    fs' !! de = Some (ParsesTo (VObject content))
    ∧ ∀ name m,
        m ∈ errors (validate {| basename := name; text := ParsesTo (VObject content) |}
                      enContent) →
        (∀ key, m ≠ MissingKey key) ∧ (∀ key, m ≠ UnknownKey key).
Proof.
  intros enContent fs fs'.
  apply (synced_file_has_the_keys (λ x, x) fs de enContent fs'
           (stats_of (λ x, x) enContent (candidate fs de))).
  - by_computation.
  - by_computation.
  - apply syncLanguage_coercible. vm_compute. reflexivity.
Defined.
